(** * Path playback on a map: a model of [static/js/map.js]

    The script replays an ordered list of location fixes on an OpenLayers
    map: a click on the "show path" button cancels the running animation,
    clears the vector source and the timeline, fetches the fixes and starts
    an interval timer whose callback reveals one fix per firing.

    The development has four parts:
    - [Geometry]: the values handed to the map library (coordinates, styles,
      features) and the pure function [createSegmentStyle];
    - the page state, the browser's timer and promise tables, and the two
      functions [fetchAndDisplayPath] and [animatePath] as transitions of
      an event loop;
    - the popup overlay and its two handlers, on top of that event loop;
    - the properties of the playback, ending with the behaviour of the
      page.

    JavaScript numbers that carry coordinates and angles are modelled by the
    real numbers, [Math.atan2] by the two-argument arctangent and [Math.PI]
    by [PI]; counters, timer handles and durations in milliseconds are
    natural numbers (binary ones for milliseconds).  Where the sign of a
    zero decides what [Math.atan2] returns, the numbers are those of
    [Doubles], which have two zeros.  The projection
    [ol.proj.fromLonLat] is a parameter of the playback, and so is what
    [forEachFeatureAtPixel] finds under a click on the map: it comes with
    the event.  The panning of the view that showing the popup triggers
    and the focus of the closer are left out. *)

From Stdlib Require Import Reals Lra Lia String List Arith NArith DecimalString.
From stdpp Require Import base option list gmap.
Import ListNotations.

Open Scope R_scope.

(** ** Results of JavaScript evaluation *)

(** A JavaScript computation either returns a value or throws. *)
Inductive outcome (A : Type) : Type :=
| Returned (a : A)
| Thrown (e : string).
Arguments Returned {A} a.
Arguments Thrown {A} e.

(** The double quote character, for the string literals that contain it. *)
Definition dquote : string := String (Ascii.ascii_of_nat 34) EmptyString.

Module Geometry.

(** A projected map coordinate, the array [[x, y]]. *)
Definition Coord : Type := (R * R)%type.

(** [ol.geom.LineString]: the array of its coordinates. *)
Definition LineString : Type := list Coord.

Inductive Geom : Type :=
| Point (c : Coord)
| Line (cs : LineString).

(** [LineString.getCoordinates()]. *)
Definition getCoordinates (geometry : LineString) : list Coord := geometry.

(** [ol.style.Stroke]. *)
Record Stroke : Type := mkStroke {
  color : string;
  width : R;
  lineDash : option (list R)
}.

(** [ol.style.Circle] and [ol.style.Icon]. *)
Inductive Image : Type :=
| Circle (radius : R) (fill : string) (stroke : Stroke)
| Icon (src : string) (anchor : R * R) (rotateWithView : bool)
       (rotation : R) (scale : R).

(** [ol.style.Style], with the three options the script sets. *)
Record Style : Type := mkStyle {
  geometry : option Geom;
  stroke : option Stroke;
  image : option Image
}.

(** [Math.atan2(y, x)] on the real numbers: the angle of the point
    [(x, y)] in [(-PI, PI]], and [0] at the origin.  The real numbers
    have one zero; the calculation with the two zeros of JavaScript is
    that of [Doubles] below. *)
Definition atan2 (y x : R) : R :=
  if Rlt_dec 0 x then atan (y / x)
  else if Rlt_dec x 0 then
    if Rle_dec 0 y then atan (y / x) + PI else atan (y / x) - PI
  else if Rlt_dec 0 y then PI / 2
  else if Rlt_dec y 0 then - (PI / 2)
  else 0.

(** The inline SVG of the arrow glyph. *)
Definition arrowSvg : string :=
  ("data:image/svg+xml;utf8,<svg xmlns=" ++ dquote
     ++ "http://www.w3.org/2000/svg" ++ dquote
     ++ " width=" ++ dquote ++ "24" ++ dquote
     ++ " height=" ++ dquote ++ "24" ++ dquote
     ++ " viewBox=" ++ dquote ++ "0 0 24 24" ++ dquote
     ++ " fill=" ++ dquote ++ "%23007bff" ++ dquote
     ++ "><path d=" ++ dquote ++ "M12 2L2.5 20.5h19L12 2z" ++ dquote
     ++ "/></svg>")%string.

(** The dashed line of a segment: the first element of [styles]. *)
Definition dashStyle : Style :=
  {| geometry := None;
     stroke := Some {| color := "#007bff"; width := 2;
                       lineDash := Some [20; 5] |};
     image := None |}.

(** The arrow of a segment: the style pushed onto [styles]. *)
Definition arrowStyle (midpoint : Coord) (rotation : R) : Style :=
  {| geometry := Some (Point midpoint);
     stroke := None;
     image := Some (Icon arrowSvg (0.5, 0.5) true
                         (- rotation + PI / 2) 0.6) |}.

(** [createSegmentStyle(geometry)].  Reading [coords[0]] or [coords[1]]
    of a shorter array gives [undefined], and indexing [undefined]
    throws a [TypeError]. *)
Definition createSegmentStyle (geometry : LineString)
  : outcome (list Style) :=
  let styles := [dashStyle] in
  let coords := getCoordinates geometry in
  match coords !! 0%nat, coords !! 1%nat with
  | Some start, Some end_ =>
      let dx := end_.1 - start.1 in
      let dy := end_.2 - start.2 in
      let rotation := atan2 dy dx in
      let midpoint := ((start.1 + end_.1) / 2, (start.2 + end_.2) / 2) in
      Returned (styles ++ [arrowStyle midpoint rotation])
  | _, _ => Thrown "TypeError"
  end.

(** What the renderer receives for the arrow of a segment: the rotation
    of the icon and the point the icon is drawn at. *)
Definition iconRotation (st : Style) : option R :=
  match image st with
  | Some (Icon _ _ _ r _) => Some r
  | _ => None
  end.

Definition iconPosition (st : Style) : option Coord :=
  match image st, geometry st with
  | Some (Icon _ _ _ _ _), Some (Point c) => Some c
  | _, _ => None
  end.

Fixpoint firstSome {A B : Type} (f : A -> option B) (l : list A)
  : option B :=
  match l with
  | [] => None
  | x :: l' => match f x with Some b => Some b | None => firstSome f l' end
  end.

Definition arrowRotation (styles : list Style) : option R :=
  firstSome iconRotation styles.

Definition arrowMidpoint (styles : list Style) : option Coord :=
  firstSome iconPosition styles.

(** [ol.Feature]: its geometry, the properties [timestamp] and [type],
    and the styles set by [setStyle]. *)
Record Feature : Type := mkFeature {
  fgeometry : Geom;
  ftimestamp : option string;
  ftype : string;
  fstyle : list Style
}.

(** The coordinates a geometry spans. *)
Definition geomCoords (g : Geom) : list Coord :=
  match g with
  | Point c => [c]
  | Line cs => cs
  end.

(** An extent [[minX, minY, maxX, maxY]]. *)
Definition Extent : Type := (R * R * R * R)%type.

Definition extendCoordinate (e : Extent) (c : Coord) : Extent :=
  let '(minX, minY, maxX, maxY) := e in
  (Rmin minX c.1, Rmin minY c.2, Rmax maxX c.1, Rmax maxY c.2).

(** The bounding extent of a list of coordinates; [None] is the empty
    extent, which [View.fit] rejects. *)
Definition boundingExtent (cs : list Coord) : option Extent :=
  match cs with
  | [] => None
  | c :: cs' => Some (fold_left extendCoordinate cs' (c.1, c.2, c.1, c.2))
  end.

End Geometry.

Import Geometry.

(** ** Numbers with two zeros

    The real numbers have one zero.  The numbers of JavaScript have two,
    [+0] and [-0]; they are equal for [==], and [Math.atan2] tells them
    apart.  This matters where [createSegmentStyle] is given two equal
    coordinates, as all it computes with then are zeros.  [Doubles]
    models the finite numbers with the sign of their zero, and the
    segment calculation on them; on numbers other than [-0] it is the
    calculation of [Geometry]. *)
Module Doubles.

(** A finite number: [NegZero] is [-0], and [Finite 0] is [+0]. *)
Inductive Double : Type :=
| NegZero
| Finite (x : R).

Definition toR (d : Double) : R :=
  match d with
  | NegZero => 0
  | Finite x => x
  end.

Definition isNegZero (d : Double) : bool :=
  match d with
  | NegZero => true
  | Finite _ => false
  end.

(** [a == b]. *)
Definition equal (a b : Double) : Prop := toR a = toR b.

(** [a - b]: a zero difference is [+0], but for [-0 - (+0)]. *)
Definition sub (a b : Double) : Double :=
  if Req_dec_T (toR a) (toR b) then
    if isNegZero a && negb (isNegZero b) then NegZero else Finite 0
  else Finite (toR a - toR b).

(** [a + b]: a zero sum is [+0], but for [-0 + (-0)]. *)
Definition add (a b : Double) : Double :=
  if Req_dec_T (toR a + toR b) 0 then
    if isNegZero a && isNegZero b then NegZero else Finite 0
  else Finite (toR a + toR b).

(** [-a]. *)
Definition neg (a : Double) : Double :=
  match a with
  | NegZero => Finite 0
  | Finite x => if Req_dec_T x 0 then NegZero else Finite (- x)
  end.

(** [a / 2]. *)
Definition half (a : Double) : Double :=
  match a with
  | NegZero => NegZero
  | Finite x => Finite (x / 2)
  end.

(** [Math.atan2(y, x)].  For a zero [y] the result is that zero when
    [x] is positive or [+0], and [PI] with the sign of [y] when [x] is
    negative or [-0]. *)
Definition atan2 (y x : Double) : Double :=
  if Req_dec_T (toR y) 0 then
    if isNegZero x || (if Rlt_dec (toR x) 0 then true else false) then
      if isNegZero y then Finite (- PI) else Finite PI
    else
      if isNegZero y then NegZero else Finite 0
  else Finite (Geometry.atan2 (toR y) (toR x)).

Definition Coord : Type := (Double * Double)%type.

(** The coordinate as the renderer draws it. *)
Definition erase (c : Coord) : Geometry.Coord := (toR c.1, toR c.2).

(** [createSegmentStyle(geometry)] on the coordinates [geometry]. *)
Definition createSegmentStyle (geometry : list Coord)
  : outcome (list Style) :=
  let styles := [dashStyle] in
  let coords := geometry in
  match coords !! 0%nat, coords !! 1%nat with
  | Some start, Some end_ =>
      let dx := sub end_.1 start.1 in
      let dy := sub end_.2 start.2 in
      let rotation := atan2 dy dx in
      let midpoint := (half (add start.1 end_.1),
                       half (add start.2 end_.2)) in
      Returned
        (styles
           ++ [{| geometry := Some (Point (erase midpoint));
                  stroke := None;
                  image := Some (Icon arrowSvg (0.5, 0.5) true
                                   (toR (add (neg rotation)
                                             (Finite (PI / 2))))
                                   0.6) |}])
  | _, _ => Thrown "TypeError"
  end.

(** For equal [a] and [b]: the difference [a - b] is [-0]. *)
Definition negDiff (a b : Double) : bool :=
  isNegZero a && negb (isNegZero b).

(** The rotation of the arrow of a segment between equal coordinates,
    according to which of the differences [dx] and [dy] is [-0]. *)
Definition degenerateRotation (dxNeg dyNeg : bool) : R :=
  if dxNeg then if dyNeg then 3 * (PI / 2) else - (PI / 2)
  else PI / 2.

End Doubles.

(** ** The page, the browser and the event loop *)

(** One element of the array the location endpoint returns. *)
Record Fix : Type := mkFix {
  timestamp : string;
  latitude : R;
  longitude : R
}.

(** The variables of one call of [animatePath], shared with the interval
    callback it registers. *)
Record Frame : Type := mkFrame {
  locations : list Fix;
  i : nat;
  allCoordinates : list Coord
}.

(** An entry of the browser's timer table.  [clearInterval] switches
    [live] off; the callback of a timer that is not live never runs. *)
Record Timer : Type := mkTimer {
  frame : Frame;
  period : N;
  due : N;
  live : bool
}.

(** Where a suspended call of [fetchAndDisplayPath] waits. *)
Inductive Await : Type :=
| AwaitFetch
| AwaitJson.

#[global] Instance Await_eq_dec : EqDecision Await.
Proof. solve_decision. Defined.

(** The task a command is issued from: a call of [fetchAndDisplayPath]
    or the callback of an interval timer. *)
Inductive Origin : Type :=
| Handler (call : nat)
| TimerTask (handle : nat).

#[global] Instance Origin_eq_dec : EqDecision Origin.
Proof. solve_decision. Defined.

(** The calls the script makes on the browser and on the map library. *)
Inductive Cmd : Type :=
| ClearIntervalCall (handle : option nat)
| SetIntervalCall (handle : nat) (ms : N)
| SourceClear
| TimelineClear
| Alert (msg : string)
| ConsoleError (msg : string)
| FetchCall (url : string)
| AddFeature (f : Feature)
| TimelineAppend (text : string)
| ViewAnimate (center : Coord) (duration : N) (zoom : R)
| ViewFit (extent : Extent) (padding : list N) (duration : N)
| Uncaught (e : string).

Record Entry : Type := mkEntry {
  time : N;
  origin : Origin;
  command : Cmd
}.

Record State : Type := mkState {
  animationInterval : option nat;
  timers : gmap nat Timer;
  nextHandle : nat;
  pending : gmap nat Await;
  nextCall : nat;
  features : list Feature;
  timeline : list string;
  zoom : R;
  now : N;
  trace : list Entry
}.

Definition initial : State :=
  {| animationInterval := None;
     timers := ∅;
     nextHandle := 1;
     pending := ∅;
     nextCall := 1;
     features := [];
     timeline := [];
     zoom := 6;
     now := 0;
     trace := [] |}.

Definition set_animationInterval (v : option nat) (s : State) : State :=
  {| animationInterval := v; timers := timers s;
     nextHandle := nextHandle s; pending := pending s;
     nextCall := nextCall s; features := features s;
     timeline := timeline s; zoom := zoom s; now := now s;
     trace := trace s |}.

Definition set_timers (v : gmap nat Timer) (s : State) : State :=
  {| animationInterval := animationInterval s; timers := v;
     nextHandle := nextHandle s; pending := pending s;
     nextCall := nextCall s; features := features s;
     timeline := timeline s; zoom := zoom s; now := now s;
     trace := trace s |}.

Definition set_nextHandle (v : nat) (s : State) : State :=
  {| animationInterval := animationInterval s; timers := timers s;
     nextHandle := v; pending := pending s;
     nextCall := nextCall s; features := features s;
     timeline := timeline s; zoom := zoom s; now := now s;
     trace := trace s |}.

Definition set_pending (v : gmap nat Await) (s : State) : State :=
  {| animationInterval := animationInterval s; timers := timers s;
     nextHandle := nextHandle s; pending := v;
     nextCall := nextCall s; features := features s;
     timeline := timeline s; zoom := zoom s; now := now s;
     trace := trace s |}.

Definition set_nextCall (v : nat) (s : State) : State :=
  {| animationInterval := animationInterval s; timers := timers s;
     nextHandle := nextHandle s; pending := pending s;
     nextCall := v; features := features s;
     timeline := timeline s; zoom := zoom s; now := now s;
     trace := trace s |}.

Definition set_features (v : list Feature) (s : State) : State :=
  {| animationInterval := animationInterval s; timers := timers s;
     nextHandle := nextHandle s; pending := pending s;
     nextCall := nextCall s; features := v;
     timeline := timeline s; zoom := zoom s; now := now s;
     trace := trace s |}.

Definition set_timeline (v : list string) (s : State) : State :=
  {| animationInterval := animationInterval s; timers := timers s;
     nextHandle := nextHandle s; pending := pending s;
     nextCall := nextCall s; features := features s;
     timeline := v; zoom := zoom s; now := now s;
     trace := trace s |}.

Definition set_zoom (v : R) (s : State) : State :=
  {| animationInterval := animationInterval s; timers := timers s;
     nextHandle := nextHandle s; pending := pending s;
     nextCall := nextCall s; features := features s;
     timeline := timeline s; zoom := v; now := now s;
     trace := trace s |}.

Definition set_now (v : N) (s : State) : State :=
  {| animationInterval := animationInterval s; timers := timers s;
     nextHandle := nextHandle s; pending := pending s;
     nextCall := nextCall s; features := features s;
     timeline := timeline s; zoom := zoom s; now := v;
     trace := trace s |}.

Definition set_trace (v : list Entry) (s : State) : State :=
  {| animationInterval := animationInterval s; timers := timers s;
     nextHandle := nextHandle s; pending := pending s;
     nextCall := nextCall s; features := features s;
     timeline := timeline s; zoom := zoom s; now := now s;
     trace := v |}.

(** ** A monad for the script's statements

    A statement runs inside a task (its [Origin]), reads and writes the
    page state, and either returns or throws; the state at the point of a
    throw is kept. *)

Definition JS (A : Type) : Type := Origin -> State -> outcome A * State.

Definition ret {A : Type} (a : A) : JS A :=
  fun _ s => (Returned a, s).

Definition bind {A B : Type} (m : JS A) (k : A -> JS B) : JS B :=
  fun o s =>
    match m o s with
    | (Returned a, s') => k a o s'
    | (Thrown e, s') => (Thrown e, s')
    end.

Definition throw {A : Type} (e : string) : JS A :=
  fun _ s => (Thrown e, s).

(** [try { m } catch (error) { h error }]. *)
Definition try_catch {A : Type} (m : JS A) (h : string -> JS A) : JS A :=
  fun o s =>
    match m o s with
    | (Returned a, s') => (Returned a, s')
    | (Thrown e, s') => h e o s'
    end.

Definition lift {A : Type} (r : outcome A) : JS A :=
  fun _ s => (r, s).

Definition gets {A : Type} (f : State -> A) : JS A :=
  fun _ s => (Returned (f s), s).

Definition modify (f : State -> State) : JS unit :=
  fun _ s => (Returned tt, f s).

Declare Scope js_scope.
Delimit Scope js_scope with js.
Notation "'let*' x ':=' m 'in' k" := (bind m (fun x => k))
  (at level 10, x name, m at level 100, k at level 200) : js_scope.
Notation "m '>>' k" := (bind m (fun _ => k))
  (at level 100, k at level 200, right associativity) : js_scope.
Open Scope js_scope.

(** Every call on the browser or the map library is recorded with the
    current time and the task that makes it. *)
Definition tell (o : Origin) (c : Cmd) (s : State) : State :=
  set_trace (trace s ++ [{| time := now s; origin := o; command := c |}]) s.

Definition emit (c : Cmd) : JS unit :=
  fun o s => (Returned tt, tell o c s).

(** [a[k]] followed by a property access: [undefined] throws. *)
Definition index {A : Type} (a : list A) (k : nat) : JS A :=
  match a !! k with
| Some x => ret x
| None => throw "TypeError"
  end.

(** *** Browser timers *)

Definition stop (t : Timer) : Timer :=
  {| frame := frame t; period := period t; due := due t; live := false |}.

(** [clearInterval(handle)]: [null] and handles of no timer are ignored. *)
Definition clearInterval (handle : option nat) : JS unit :=
  emit (ClearIntervalCall handle) >>
  match handle with
| Some h => modify (fun s => set_timers (alter stop h (timers s)) s)
| None => ret tt
  end.

(** [setInterval(callback, ms)], where [fr] holds the variables the
    callback closes over: a fresh handle, first due [ms] from now. *)
Definition setInterval (fr : Frame) (ms : N) : JS nat :=
  let* h := gets nextHandle in
  let* t := gets now in
  modify (fun s =>
    set_nextHandle (S h)
      (set_timers
         (<[h := {| frame := fr; period := ms; due := (t + ms)%N;
                    live := true |}]> (timers s)) s)) >>
  emit (SetIntervalCall h ms) >>
  ret h.

(** The closure variables of the callback of timer [h]. *)
Definition closure (h : nat) : JS Frame :=
  let* ts := gets timers in
  match ts !! h with
| Some t => ret (frame t)
| None => throw "ReferenceError"
  end.

Definition with_frame (f : Frame -> Frame) (t : Timer) : Timer :=
  {| frame := f (frame t); period := period t; due := due t;
     live := live t |}.

Definition update_closure (h : nat) (f : Frame -> Frame) : JS unit :=
  modify (fun s => set_timers (alter (with_frame f) h (timers s)) s).

(** [allCoordinates.push(c)] and [i++]. *)
Definition push (c : Coord) (fr : Frame) : Frame :=
  {| locations := locations fr; i := i fr;
     allCoordinates := allCoordinates fr ++ [c] |}.

Definition increment (fr : Frame) : Frame :=
  {| locations := locations fr; i := S (i fr);
     allCoordinates := allCoordinates fr |}.

(** *** The vector source, the timeline and the view *)

(** [vectorSource.clear()]. *)
Definition sourceClear : JS unit :=
  emit SourceClear >> modify (set_features []).

(** [timelineUl.innerHTML = '']. *)
Definition timelineClear : JS unit :=
  emit TimelineClear >> modify (set_timeline []).

(** [vectorSource.addFeature(f)]. *)
Definition addFeature (f : Feature) : JS unit :=
  emit (AddFeature f) >> modify (fun s => set_features (features s ++ [f]) s).

(** [timelineUl.appendChild(li)] with [li.textContent = text], followed
    by the scroll to the newest item. *)
Definition timelineAppend (text : string) : JS unit :=
  emit (TimelineAppend text) >>
  modify (fun s => set_timeline (timeline s ++ [text]) s).

(** [vectorSource.getFeatures()]. *)
Definition getFeatures : JS (list Feature) := gets features.

(** [vectorSource.getExtent()]: the extent of the geometries of all
    features of the source. *)
Definition featureCoords (fs : list Feature) : list Coord :=
  concat (map (fun f => geomCoords (fgeometry f)) fs).

Definition sourceExtent (fs : list Feature) : option Extent :=
  boundingExtent (featureCoords fs).

Definition getExtent : JS (option Extent) :=
  gets (fun s => sourceExtent (features s)).

(** [map.getView().getZoom()]. *)
Definition getZoom : JS R := gets zoom.

(** [map.getView().animate({center, duration, zoom})]. *)
Definition viewAnimate (center : Coord) (duration : N) (z : R) : JS unit :=
  emit (ViewAnimate center duration z).

(** [map.getView().fit(extent, {padding, duration})]; the library
    refuses an empty extent. *)
Definition viewFit (extent : option Extent) (padding : list N)
    (duration : N) : JS unit :=
  match extent with
| Some e => emit (ViewFit e padding duration)
| None => throw "AssertionError"
  end.

Definition alert (msg : string) : JS unit := emit (Alert msg).

Definition consoleError (msg : string) : JS unit := emit (ConsoleError msg).

(** ** The script *)

(** The text of a number in a template literal. *)
Definition string_of_nat (n : nat) : string :=
  NilEmpty.string_of_uint (Nat.to_uint n).

(** An error object is modelled by the text [String(error)] gives for
    it, its name and its message.  The text of an error the browser
    raises is the browser's own; it comes with the event. *)

(** What [await fetch(url)] resumes with: a rejection with its error, or
    a response with its [ok] flag and [status]. *)
Inductive FetchResult : Type :=
| NetworkError (error : string)
| Response (ok : bool) (status : nat).

(** What happens in the browser, one task at a time. *)
Inductive Event : Type :=
| Click (groupId startDate endDate : string)
| FetchSettled (call : nat) (r : FetchResult)
| JsonSettled (call : nat) (body : outcome (list Fix))
| Tick (handle : nat)
| Zoomed (z : R)
| Elapse (ms : N).

(** [if (v)] on a timer handle: [null] and [0] are falsy. *)
Definition truthy (v : option nat) : bool :=
  match v with
| Some (S _) => true
| _ => false
  end.

(** [!s] on a string: only the empty string is falsy. *)
Definition blank (s : string) : bool :=
  match s with
| EmptyString => true
| _ => false
  end.

(** The call of [fetchAndDisplayPath] numbered [call] stops at an
    [await]. *)
Definition suspend (call : nat) (w : Await) : JS unit :=
  modify (fun s => set_pending (<[call := w]> (pending s)) s).

(** The style of a revealed point. *)
Definition pointStyle : Style :=
  {| geometry := None;
     stroke := None;
     image := Some (Circle 7 "#E53935"
                      {| color := "#fff"; width := 2; lineDash := None |}) |}.

Definition pointFeature (transformedCoord : Coord) (loc : Fix) : Feature :=
  {| fgeometry := Point transformedCoord;
     ftimestamp := Some (timestamp loc);
     ftype := "point";
     fstyle := [pointStyle] |}.

Definition segmentFeature (segmentGeom : LineString) (style : list Style)
  : Feature :=
  {| fgeometry := Line segmentGeom;
     ftimestamp := None;
     ftype := "path-segment";
     fstyle := style |}.

(** The equirectangular projection: a longitude and latitude pair as it
    is.  It stands for the projection of the map library where a run is
    computed on concrete fixes. *)
Definition plateCarree (lonLat : Coord) : Coord := lonLat.

Section Playback.

(** [ol.proj.fromLonLat], the projection of the map library. *)
Variable fromLonLat : Coord -> Coord.

(** The callback [animatePath] hands to [setInterval]; [h] is the timer
    whose closure it runs in. *)
Definition callback (h : nat) : JS unit :=
  let* fr := closure h in
  if (length (locations fr) <=? i fr)%nat then
    (let* a := gets animationInterval in clearInterval a) >>
    let* fs := getFeatures in
    if (0 <? length fs)%nat then
      let* e := getExtent in
      viewFit e [50; 50; 50; 50]%N 1000
    else ret tt
  else
    let* loc := index (locations fr) (i fr) in
    let lonLat := (longitude loc, latitude loc) in
    let transformedCoord := fromLonLat lonLat in
    update_closure h (push transformedCoord) >>
    addFeature (pointFeature transformedCoord loc) >>
    timelineAppend ("Location at: " ++ timestamp loc) >>
    (if (0 <? i fr)%nat then
       let* fr' := closure h in
       let* prevCoord := index (allCoordinates fr') (i fr' - 1) in
       let segmentGeom := [prevCoord; transformedCoord] in
       let* style := lift (createSegmentStyle segmentGeom) in
       addFeature (segmentFeature segmentGeom style)
     else ret tt) >>
    (let* z := getZoom in viewAnimate transformedCoord 1000 z) >>
    update_closure h increment.

(** [animatePath(locations)]. *)
Definition animatePath (locations : list Fix) : JS unit :=
  let* h := setInterval {| locations := locations; i := 0;
                           allCoordinates := [] |} 2000 in
  modify (set_animationInterval (Some h)).

(** The [catch] block of [fetchAndDisplayPath]. *)
Definition onCatch (error : string) : JS unit :=
  consoleError ("Error fetching location data: " ++ error) >>
  alert "Failed to fetch location data.".

(** [fetchAndDisplayPath()] up to [await fetch(...)]. *)
Definition fetchAndDisplayPath (call : nat)
    (groupId startDate endDate : string) : JS unit :=
  (let* a := gets animationInterval in
   if truthy a then clearInterval a else ret tt) >>
  sourceClear >>
  timelineClear >>
  if blank groupId || blank startDate || blank endDate then
    alert "Please select a group and a date range."
  else
    emit (FetchCall ("/api/locations?group_id=" ++ groupId
                       ++ "&start_date=" ++ startDate
                       ++ "&end_date=" ++ endDate)) >>
    suspend call AwaitFetch.

(** From the settling of [fetch] to [await response.json()]. *)
Definition afterFetch (call : nat) (r : FetchResult) : JS unit :=
  try_catch
    (match r with
     | NetworkError error => throw error
     | Response ok status =>
         if negb ok then
           throw ("Error: HTTP error! status: " ++ string_of_nat status)
         else suspend call AwaitJson
     end)
    onCatch.

(** From the settling of [response.json()] to the end: the promise
    resolves with the array of the body, or it rejects with the error of
    a body that does not parse. *)
Definition afterJson (body : outcome (list Fix)) : JS unit :=
  try_catch
    (match body with
     | Returned locations =>
         if (length locations =? 0)%nat then
           alert "No data available for the selected criteria."
         else animatePath locations
     | Thrown error => throw error
     end)
    onCatch.

(** *** The event loop *)

(** A task runs to its end; an exception nobody catches is reported. *)
Definition runTask (o : Origin) (m : JS unit) (s : State) : State :=
  match m o s with
  | (Returned _, s') => s'
  | (Thrown e, s') => tell o (Uncaught e) s'
  end.

(** After its callback has run, an interval timer is due again one
    period later. *)
Definition rearm (h : nat) (s : State) : State :=
  set_timers
    (alter (fun t => {| frame := frame t; period := period t;
                        due := (now s + period t)%N; live := live t |})
           h (timers s)) s.

Definition step (ev : Event) (s : State) : State :=
  match ev with
  | Click groupId startDate endDate =>
      let call := nextCall s in
      runTask (Handler call)
              (fetchAndDisplayPath call groupId startDate endDate)
              (set_nextCall (S call) s)
  | FetchSettled call r =>
      match pending s !! call with
      | Some AwaitFetch =>
          runTask (Handler call) (afterFetch call r)
                  (set_pending (delete call (pending s)) s)
      | _ => s
      end
  | JsonSettled call body =>
      match pending s !! call with
      | Some AwaitJson =>
          runTask (Handler call) (afterJson body)
                  (set_pending (delete call (pending s)) s)
      | _ => s
      end
  | Tick h =>
      match timers s !! h with
      | Some t =>
          if live t then
            rearm h (runTask (TimerTask h) (callback h)
                             (set_now (N.max (now s) (due t)) s))
          else s
      | None => s
      end
  | Zoomed z => set_zoom z s
  | Elapse ms => set_now (now s + ms)%N s
  end.

Definition run (evs : list Event) (s : State) : State :=
  fold_left (fun s ev => step ev s) evs s.

(** The states the page can be in. *)
Inductive reachable : State -> Prop :=
| reachable_initial : reachable initial
| reachable_step ev s : reachable s -> reachable (step ev s).

(** *** What one firing of the callback reveals *)

(** The projected coordinate of a fix. *)
Definition project (loc : Fix) : Coord :=
  fromLonLat (longitude loc, latitude loc).

(** The coordinate revealed before the one at index [i], if any. *)
Definition previous (fr : Frame) : option Coord :=
  match i fr with
  | O => None
  | S k => allCoordinates fr !! k
  end.

(** The segment feature the callback builds from [prevCoord] to
    [transformedCoord]. *)
Definition segmentBetween (prevCoord transformedCoord : Coord) : Feature :=
  let segmentGeom := [prevCoord; transformedCoord] in
  segmentFeature segmentGeom
    (match createSegmentStyle segmentGeom with
     | Returned style => style
     | Thrown _ => []
     end).

Definition revealedFeatures (prev : option Coord) (loc : Fix)
  : list Feature :=
  pointFeature (project loc) loc
    :: match prev with
       | Some p => [segmentBetween p (project loc)]
       | None => []
       end.

Definition revealCmds (prev : option Coord) (loc : Fix) (z : R)
  : list Cmd :=
  [AddFeature (pointFeature (project loc) loc);
   TimelineAppend ("Location at: " ++ timestamp loc)]
    ++ match prev with
       | Some p => [AddFeature (segmentBetween p (project loc))]
       | None => []
       end
    ++ [ViewAnimate (project loc) 1000 z].

Definition stamp (tm : N) (o : Origin) (cs : list Cmd) : list Entry :=
  map (fun c => {| time := tm; origin := o; command := c |}) cs.

(** The state after the callback of timer [h] has revealed [loc] at
    time [tm]. *)
Definition advanced (h : nat) (t : Timer) (loc : Fix) (tm : N) (s : State)
  : State :=
  {| animationInterval := animationInterval s;
     timers :=
       <[h := {| frame := {| locations := locations (frame t);
                             i := S (i (frame t));
                             allCoordinates :=
                               allCoordinates (frame t) ++ [project loc] |};
                 period := period t;
                 due := (tm + period t)%N;
                 live := live t |}]> (timers s);
     nextHandle := nextHandle s;
     pending := pending s;
     nextCall := nextCall s;
     features := features s ++ revealedFeatures (previous (frame t)) loc;
     timeline := timeline s ++ [("Location at: " ++ timestamp loc)%string];
     zoom := zoom s;
     now := tm;
     trace := trace s ++ stamp tm (TimerTask h)
                (revealCmds (previous (frame t)) loc (zoom s)) |}.

(** *** What the completion branch of the callback does *)

(** The timer table after [clearInterval(a)]. *)
Definition cleared (a : option nat) (ts : gmap nat Timer) : gmap nat Timer :=
  match a with
  | Some h => alter stop h ts
  | None => ts
  end.

(** The fit issued on completion over the features [fs] of the source. *)
Definition fitCmds (fs : list Feature) : list Cmd :=
  match fs with
  | [] => []
  | _ :: _ =>
      match sourceExtent fs with
      | Some e => [ViewFit e [50; 50; 50; 50]%N 1000]
      | None => [Uncaught "AssertionError"]
      end
  end.

Definition rescheduled (tm : N) (t : Timer) : Timer :=
  {| frame := frame t; period := period t; due := (tm + period t)%N;
     live := live t |}.

(** The state after the callback of timer [h] has found every fix
    revealed, at time [tm]. *)
Definition completed (h : nat) (tm : N) (s : State) : State :=
  {| animationInterval := animationInterval s;
     timers := alter (rescheduled tm) h
                 (cleared (animationInterval s) (timers s));
     nextHandle := nextHandle s;
     pending := pending s;
     nextCall := nextCall s;
     features := features s;
     timeline := timeline s;
     zoom := zoom s;
     now := tm;
     trace := trace s ++ stamp tm (TimerTask h)
                (ClearIntervalCall (animationInterval s)
                   :: fitCmds (features s)) |}.

(** *** What the three parts of [fetchAndDisplayPath] do *)

Definition requestUrl (groupId startDate endDate : string) : string :=
  ("/api/locations?group_id=" ++ groupId ++ "&start_date=" ++ startDate
     ++ "&end_date=" ++ endDate)%string.

(** The state after a click on the button. *)
Definition clicked (groupId startDate endDate : string) (s : State)
  : State :=
  let incomplete := blank groupId || blank startDate || blank endDate in
  {| animationInterval := animationInterval s;
     timers := if truthy (animationInterval s)
               then cleared (animationInterval s) (timers s)
               else timers s;
     nextHandle := nextHandle s;
     pending := if incomplete then pending s
                else <[nextCall s := AwaitFetch]> (pending s);
     nextCall := S (nextCall s);
     features := [];
     timeline := [];
     zoom := zoom s;
     now := now s;
     trace := trace s ++ stamp (now s) (Handler (nextCall s))
                ((if truthy (animationInterval s)
                  then [ClearIntervalCall (animationInterval s)]
                  else [])
                   ++ [SourceClear; TimelineClear]
                   ++ [if incomplete
                       then Alert "Please select a group and a date range."
                       else FetchCall
                              (requestUrl groupId startDate endDate)]) |}.

(** The two commands of the [catch] block. *)
Definition failure (error : string) : list Cmd :=
  [ConsoleError ("Error fetching location data: " ++ error);
   Alert "Failed to fetch location data."].

(** The state after [fetch] has settled for the call [call]. *)
Definition fetched (call : nat) (r : FetchResult) (s : State) : State :=
  {| animationInterval := animationInterval s;
     timers := timers s;
     nextHandle := nextHandle s;
     pending := match r with
                | Response true _ => <[call := AwaitJson]> (pending s)
                | _ => delete call (pending s)
                end;
     nextCall := nextCall s;
     features := features s;
     timeline := timeline s;
     zoom := zoom s;
     now := now s;
     trace := trace s ++ stamp (now s) (Handler call)
                match r with
                | NetworkError error => failure error
                | Response false status =>
                    failure ("Error: HTTP error! status: "
                               ++ string_of_nat status)
                | Response true _ => []
                end |}.

(** The state after [animatePath(locations)] has been called by the
    call [call]. *)
Definition started (call : nat) (locations : list Fix) (s : State)
  : State :=
  {| animationInterval := Some (nextHandle s);
     timers := <[nextHandle s :=
                   {| frame := {| locations := locations; i := 0;
                                  allCoordinates := [] |};
                      period := 2000;
                      due := (now s + 2000)%N;
                      live := true |}]> (timers s);
     nextHandle := S (nextHandle s);
     pending := delete call (pending s);
     nextCall := nextCall s;
     features := features s;
     timeline := timeline s;
     zoom := zoom s;
     now := now s;
     trace := trace s ++ stamp (now s) (Handler call)
                [SetIntervalCall (nextHandle s) 2000] |}.

(** The state after the body of the response did not start a playback:
    it did not parse, or it is the empty array. *)
Definition rejected (call : nat) (cmds : list Cmd) (s : State) : State :=
  {| animationInterval := animationInterval s;
     timers := timers s;
     nextHandle := nextHandle s;
     pending := delete call (pending s);
     nextCall := nextCall s;
     features := features s;
     timeline := timeline s;
     zoom := zoom s;
     now := now s;
     trace := trace s ++ stamp (now s) (Handler call) cmds |}.

(** The state after [response.json()] has settled for the call [call]. *)
Definition parsed (call : nat) (body : outcome (list Fix)) (s : State)
  : State :=
  match body with
  | Returned [] =>
      rejected call
        [Alert "No data available for the selected criteria."] s
  | Returned locations => started call locations s
  | Thrown error => rejected call (failure error) s
  end.

(** *** What a playback has done after [k] firings *)

(** The coordinate revealed before index [k] of [locs]. *)
Definition prevAt (locs : list Fix) (k : nat) : option Coord :=
  match k with
  | O => None
  | S j => project <$> locs !! j
  end.

(** The features added by the firing that reveals index [k]. *)
Definition featuresAt (locs : list Fix) (k : nat) : list Feature :=
  match locs !! k with
  | Some loc => revealedFeatures (prevAt locs k) loc
  | None => []
  end.

(** The calls made by the firing that reveals index [k], when the first
    firing is at time [t0] and the zoom is [z]. *)
Definition entriesAt (h : nat) (t0 p : N) (z : R) (locs : list Fix)
    (k : nat) : list Entry :=
  match locs !! k with
  | Some loc =>
      stamp (t0 + N.of_nat k * p)%N (TimerTask h)
            (revealCmds (prevAt locs k) loc z)
  | None => []
  end.

Definition sessionFeatures (locs : list Fix) (k : nat) : list Feature :=
  flat_map (featuresAt locs) (seq 0 k).

Definition sessionEntries (h : nat) (t0 p : N) (z : R) (locs : list Fix)
    (k : nat) : list Entry :=
  flat_map (entriesAt h t0 p z locs) (seq 0 k).

Definition entryText (loc : Fix) : string :=
  ("Location at: " ++ timestamp loc)%string.

(** The state [k] firings after timer [h] was started on [locs] in the
    state [s], nothing else happening in between. *)
Definition revealedState (h : nat) (locs : list Fix) (k : nat) (s : State)
  : State :=
  {| animationInterval := animationInterval s;
     timers :=
       <[h := {| frame := {| locations := locs; i := k;
                             allCoordinates :=
                               map project (take k locs) |};
                 period := 2000;
                 due := (now s + N.of_nat (S k) * 2000)%N;
                 live := true |}]> (timers s);
     nextHandle := nextHandle s;
     pending := pending s;
     nextCall := nextCall s;
     features := features s ++ sessionFeatures locs k;
     timeline := timeline s ++ map entryText (take k locs);
     zoom := zoom s;
     now := (now s + N.of_nat k * 2000)%N;
     trace := trace s
                ++ sessionEntries h (now s + 2000)%N 2000 (zoom s) locs k |}.

(** *** Well-formed states *)

(** The closure of a timer is consistent: [i] fixes are revealed and
    [allCoordinates] holds their projections. *)
Definition consistent (fr : Frame) : Prop :=
  (i fr <= length (locations fr))%nat
  /\ allCoordinates fr = map project (take (i fr) (locations fr))
  /\ locations fr <> [].

Definition boundedOrigin (s : State) (o : Origin) : Prop :=
  match o with
  | Handler call => (call < nextCall s)%nat
  | TimerTask h => (1 <= h < nextHandle s)%nat
  end.

Record wf (s : State) : Prop := mkWf {
  wf_next : (1 <= nextHandle s)%nat;
  wf_handles : forall h t, timers s !! h = Some t ->
                 (1 <= h < nextHandle s)%nat;
  wf_frames : forall h t, timers s !! h = Some t -> consistent (frame t);
  wf_periods : forall h t, timers s !! h = Some t -> period t = 2000%N;
  wf_current : forall h, animationInterval s = Some h ->
                 is_Some (timers s !! h);
  wf_pending : forall call w, pending s !! call = Some w ->
                 (call < nextCall s)%nat;
  wf_trace : forall e, In e (trace s) -> boundedOrigin s (origin e)
}.

(** The three things a firing of timer [h] can do. *)
Inductive fired (h : nat) (s : State) : State -> Prop :=
| fired_dead :
    (forall t, timers s !! h = Some t -> live t = false) ->
    fired h s s
| fired_advance t loc :
    timers s !! h = Some t ->
    live t = true ->
    locations (frame t) !! i (frame t) = Some loc ->
    fired h s (advanced h t loc (N.max (now s) (due t)) s)
| fired_complete t :
    timers s !! h = Some t ->
    live t = true ->
    i (frame t) = length (locations (frame t)) ->
    fired h s (completed h (N.max (now s) (due t)) s).

(** *** A whole playback *)

(** The state after a click with a complete form whose request got a
    successful response. *)
Definition requested (groupId startDate endDate : string) (status : nat)
    (s : State) : State :=
  fetched (nextCall s) (Response true status)
          (clicked groupId startDate endDate s).

(** The state [animatePath] leaves, the new timer apart. *)
Definition armed (call : nat) (s : State) : State :=
  {| animationInterval := Some (nextHandle s);
     timers := timers s;
     nextHandle := S (nextHandle s);
     pending := delete call (pending s);
     nextCall := nextCall s;
     features := features s;
     timeline := timeline s;
     zoom := zoom s;
     now := now s;
     trace := trace s ++ stamp (now s) (Handler call)
                [SetIntervalCall (nextHandle s) 2000] |}.

(** The state after the firing that found all of [locs] revealed. *)
Definition finishedState (h : nat) (locs : list Fix) (s : State) : State :=
  let tm := (now s + N.of_nat (S (length locs)) * 2000)%N in
  {| animationInterval := animationInterval s;
     timers :=
       <[h := {| frame := {| locations := locs; i := length locs;
                             allCoordinates := map project locs |};
                 period := 2000;
                 due := (tm + 2000)%N;
                 live := false |}]> (timers s);
     nextHandle := nextHandle s;
     pending := pending s;
     nextCall := nextCall s;
     features := features s ++ sessionFeatures locs (length locs);
     timeline := timeline s ++ map entryText locs;
     zoom := zoom s;
     now := tm;
     trace := trace s
                ++ sessionEntries h (now s + 2000)%N 2000 (zoom s) locs
                     (length locs)
                ++ stamp tm (TimerTask h)
                     (ClearIntervalCall (Some h)
                        :: fitCmds (features s
                                      ++ sessionFeatures locs
                                           (length locs))) |}.

(** The events of a playback of [locs] that nothing disturbs, up to
    the [k]-th firing of its timer [h]. *)
Definition playback (groupId startDate endDate : string) (status : nat)
    (locs : list Fix) (call h k : nat) : list Event :=
  [Click groupId startDate endDate;
   FetchSettled call (Response true status);
   JsonSettled call (Returned locs)]
    ++ repeat (Tick h) k.

Definition complete (groupId startDate endDate : string) : Prop :=
  blank groupId = false /\ blank startDate = false
  /\ blank endDate = false.

(** *** What is observed of a run *)

(** The calls a task has made, in the order it made them. *)
Definition issuedBy (o : Origin) (tr : list Entry) : list Cmd :=
  map command (filter (fun e => origin e = o) tr).

Definition addedFeature (c : Cmd) : option Feature :=
  match c with
  | AddFeature f => Some f
  | _ => None
  end.

(** The features a list of calls adds to the source: the points
    ([addPoint]) and the segments ([addSegment]). *)
Definition added (cs : list Cmd) : list Feature := omap addedFeature cs.

Definition isPoint (f : Feature) : bool := String.eqb (ftype f) "point".

Definition isSegment (f : Feature) : bool :=
  String.eqb (ftype f) "path-segment".

Definition addedPoints (cs : list Cmd) : list Feature :=
  List.filter isPoint (added cs).

Definition addedSegments (cs : list Cmd) : list Feature :=
  List.filter isSegment (added cs).

(** *** Extents *)

(** The extent [e] contains the coordinate [c]. *)
Definition covers (e : Extent) (c : Coord) : Prop :=
  let '(minX, minY, maxX, maxY) := e in
  minX <= c.1 <= maxX /\ minY <= c.2 <= maxY.

Definition isFit (c : Cmd) : bool :=
  match c with
  | ViewFit _ _ _ => true
  | _ => false
  end.

Definition isCamera (c : Cmd) : bool :=
  match c with
  | ViewAnimate _ _ _ | ViewFit _ _ _ => true
  | _ => false
  end.

(** The calls of a click with a complete form, up to the request. *)
Definition requestCmds (groupId startDate endDate : string) (s : State)
  : list Cmd :=
  (if truthy (animationInterval s)
   then [ClearIntervalCall (animationInterval s)]
   else [])
    ++ [SourceClear; TimelineClear;
        FetchCall (requestUrl groupId startDate endDate)].

(** The effect of an event, case by case. *)
Inductive stepped (s : State) : Event -> State -> Prop :=
| stepped_click g a b :
    stepped s (Click g a b) (clicked g a b s)
| stepped_fetch call r :
    pending s !! call = Some AwaitFetch ->
    stepped s (FetchSettled call r) (fetched call r s)
| stepped_json call body :
    pending s !! call = Some AwaitJson ->
    stepped s (JsonSettled call body) (parsed call body s)
| stepped_tick h s' :
    fired h s s' ->
    stepped s (Tick h) s'
| stepped_zoom z :
    stepped s (Zoomed z) (set_zoom z s)
| stepped_elapse ms :
    stepped s (Elapse ms) (set_now (now s + ms)%N s)
| stepped_fetch_idle call r :
    pending s !! call <> Some AwaitFetch ->
    stepped s (FetchSettled call r) s
| stepped_json_idle call body :
    pending s !! call <> Some AwaitJson ->
    stepped s (JsonSettled call body) s.

(** Every feature of the source has coordinates, and no task has ended
    in an exception. *)
Definition located (s : State) : Prop :=
  forall f, In f (features s) -> geomCoords (fgeometry f) <> [].

Definition uncaught (c : Cmd) : bool :=
  match c with
  | Uncaught _ => true
  | _ => false
  end.

Definition quiet (s : State) : Prop :=
  forall e, In e (trace s) -> uncaught (command e) = false.

(** *** Two clicks in quick succession *)

Definition fixA1 : Fix :=
  {| timestamp := "A1"; latitude := 28; longitude := 77 |}.
Definition fixA2 : Fix :=
  {| timestamp := "A2"; latitude := 29; longitude := 78 |}.
Definition fixB1 : Fix :=
  {| timestamp := "B1"; latitude := 19; longitude := 73 |}.

(** The button is clicked twice before the first response arrives;
    then both responses arrive and the timers fire in turn. *)
Definition raceEvents : list Event :=
  [Click "1" "2024-01-01" "2024-01-02";
   Click "2" "2024-01-01" "2024-01-02";
   FetchSettled 1 (Response true 200);
   JsonSettled 1 (Returned [fixA1; fixA2]);
   FetchSettled 2 (Response true 200);
   JsonSettled 2 (Returned [fixB1]);
   Tick 1; Tick 2; Tick 1; Tick 2; Tick 1; Tick 1].

(** What matters of a call for telling playbacks apart. *)
Inductive Mark : Type :=
| Cancels (handle : option nat)
| Clears
| Sets (handle : nat)
| Adds (timestamp : option string)
| Fits.

Definition mark (c : Cmd) : option Mark :=
  match c with
  | ClearIntervalCall handle => Some (Cancels handle)
  | SourceClear => Some Clears
  | SetIntervalCall handle _ => Some (Sets handle)
  | AddFeature f => Some (Adds (ftimestamp f))
  | ViewFit _ _ _ => Some Fits
  | _ => None
  end.

(** The marked calls of a trace, each with the task that made it. *)
Definition digest (tr : list Entry) : list (Origin * Mark) :=
  omap (fun e => match mark (command e) with
                 | Some m => Some (origin e, m)
                 | None => None
                 end) tr.

(** *** Concrete runs *)

Definition form1 : Event := Click "1" "2024-01-01" "2024-01-02".
Definition form2 : Event := Click "2" "2024-01-01" "2024-01-02".

(** A playback of two fixes is started and reveals its first fix. *)
Definition startedEvents : list Event :=
  [form1; FetchSettled 1 (Response true 200);
   JsonSettled 1 (Returned [fixA1; fixA2]); Tick 1].

(** What may follow a cancellation: firings, time passing, a zoom. *)
Definition laterEvents : list Event :=
  [Tick 1; Elapse 6000; Tick 1; Zoomed 9; Tick 1].

(** The calls of a firing of the live timer [t] in the state [s]. *)
Definition firingCmds (s : State) (t : Timer) : list Cmd :=
  match locations (frame t) !! i (frame t) with
  | Some loc => revealCmds (previous (frame t)) loc (zoom s)
  | None => ClearIntervalCall (animationInterval s) :: fitCmds (features s)
  end.

(** In every state, what a timer has added is what its closure says it
    has revealed. *)
Definition traced (s : State) : Prop :=
  forall h t,
    timers s !! h = Some t ->
    added (issuedBy (TimerTask h) (trace s))
    = sessionFeatures (locations (frame t)) (i (frame t)).

(** *** Requests that do not overlap *)

(** A click that sends a request: the form is complete. *)
Definition requesting (ev : Event) : bool :=
  match ev with
  | Click g a b => negb (blank g || blank a || blank b)
  | _ => false
  end.

(** The run of [evs] from [s] sends a request only when none is in
    flight. *)
Fixpoint sequential (evs : list Event) (s : State) : Prop :=
  match evs with
  | [] => True
  | ev :: evs' =>
      (requesting ev = true -> pending s = ∅) /\ sequential evs' (step ev s)
  end.

(** The states of such runs. *)
Inductive orderly : State -> Prop :=
| orderly_initial : orderly initial
| orderly_step ev s :
    orderly s ->
    (requesting ev = true -> pending s = ∅) ->
    orderly (step ev s).

(** What holds in those states: at most one request is in flight; the
    only timer that can be live is the one the page holds; while a
    request is in flight no timer is live and the source and the timeline
    are empty; while a timer is live the source and the timeline hold
    what it has revealed, and it has not fitted the view. *)
Record calm (s : State) : Prop := mkCalm {
  calm_pending : forall c c' w w',
      pending s !! c = Some w -> pending s !! c' = Some w' -> c = c';
  calm_live : forall h t,
      timers s !! h = Some t -> live t = true ->
      animationInterval s = Some h;
  calm_waiting : forall c w,
      pending s !! c = Some w ->
      (forall h t, timers s !! h = Some t -> live t = false)
      /\ features s = [] /\ timeline s = [];
  calm_source : forall h t,
      timers s !! h = Some t -> live t = true ->
      features s = sessionFeatures (locations (frame t)) (i (frame t))
      /\ timeline s
         = map entryText (take (i (frame t)) (locations (frame t)));
  calm_fits : forall h t,
      timers s !! h = Some t -> live t = true ->
      List.filter isFit (issuedBy (TimerTask h) (trace s)) = []
}.

(** What a call of [fetchAndDisplayPath] that waits for its response
    has done so far: it has cancelled the timer the page held, if any,
    cleared the source and the timeline, and sent its request. *)
Definition asked (s : State) : Prop :=
  forall call w,
    pending s !! call = Some w ->
    exists a url,
      issuedBy (Handler call) (trace s)
      = (if truthy a then [ClearIntervalCall a] else [])
          ++ [SourceClear; TimelineClear; FetchCall url].

(** *** Requests that start no playback *)

(** The call [call], made in the state [s0], has ended in the state [s]
    without starting a playback: it has made the calls [cmds] and
    nothing is left of it; no timer was set, the page holds the handle it
    held, and the source and the timeline are as the call cleared
    them. *)
Definition refused (s0 s : State) (call : nat) (cmds : list Cmd) : Prop :=
  issuedBy (Handler call) (trace s) = cmds
  /\ pending s !! call = None
  /\ nextHandle s = nextHandle s0
  /\ animationInterval s = animationInterval s0
  /\ features s = []
  /\ timeline s = []
  /\ (forall h t, timers s !! h = Some t -> live t = true ->
        timers s0 !! h = Some t /\ animationInterval s0 <> Some h)
  /\ (forall r, step (FetchSettled call r) s = s)
  /\ (forall body, step (JsonSettled call body) s = s).

(** The settlements that fail the request of the call [call] waiting in
    the state [s], each with the error the handler catches: [fetch]
    rejects, the response is not [ok], or its body does not parse. *)
Inductive failing (s : State) (call : nat) : Event -> string -> Prop :=
| failing_fetch error :
    pending s !! call = Some AwaitFetch ->
    failing s call (FetchSettled call (NetworkError error)) error
| failing_status status :
    pending s !! call = Some AwaitFetch ->
    failing s call (FetchSettled call (Response false status))
      ("Error: HTTP error! status: " ++ string_of_nat status)
| failing_body error :
    pending s !! call = Some AwaitJson ->
    failing s call (JsonSettled call (Thrown error)) error.

(** *** The handle the page holds *)

Definition setHandle (c : Cmd) : option nat :=
  match c with
  | SetIntervalCall handle _ => Some handle
  | _ => None
  end.

(** The handle returned by the last call of [setInterval]. *)
Definition lastSet (tr : list Entry) : option nat :=
  last (omap (fun e => setHandle (command e)) tr).

(** The timer [h] is live and the page does not hold its handle. *)
Definition leaked (h : nat) (s : State) : Prop :=
  animationInterval s <> Some h
  /\ exists t, timers s !! h = Some t /\ live t = true.

(** *** The timeline and the camera *)

Definition appendedText (c : Cmd) : option string :=
  match c with
  | TimelineAppend text => Some text
  | _ => None
  end.

(** The items a list of calls appends to the timeline. *)
Definition appended (cs : list Cmd) : list string := omap appendedText cs.

Definition animation (c : Cmd) : option (Coord * N) :=
  match c with
  | ViewAnimate center duration _ => Some (center, duration)
  | _ => None
  end.

(** The centres a list of calls moves the view to, each with the
    duration of the move. *)
Definition animations (cs : list Cmd) : list (Coord * N) :=
  omap animation cs.

(** *** What the source and the timeline can hold *)

(** The feature [f] was drawn for one of the first [k] fixes of [locs]:
    it is the point of one of them, or the segment between two
    consecutive ones. *)
Definition drawnFor (locs : list Fix) (k : nat) (f : Feature) : Prop :=
  (exists j loc,
     (j < k)%nat /\ locs !! j = Some loc
     /\ f = pointFeature (project loc) loc)
  \/ (exists j a b,
        (S j < k)%nat /\ locs !! j = Some a /\ locs !! S j = Some b
        /\ f = segmentBetween (project a) (project b)).

(** Every feature of the source was drawn for a fix some timer has
    revealed, and every item of the timeline was written for one. *)
Definition genuine (s : State) : Prop :=
  (forall f, In f (features s) ->
     exists h t,
       timers s !! h = Some t
       /\ drawnFor (locations (frame t)) (i (frame t)) f)
  /\ (forall text, In text (timeline s) ->
        exists h t j loc,
          timers s !! h = Some t
          /\ (j < i (frame t))%nat
          /\ locations (frame t) !! j = Some loc
          /\ text = entryText loc).

(** *** The sides of an extent *)

(** Every side of the extent [e] touches a coordinate of [cs]. *)
Definition attained (e : Extent) (cs : list Coord) : Prop :=
  let '(minX, minY, maxX, maxY) := e in
  (exists c, In c cs /\ c.1 = minX)
  /\ (exists c, In c cs /\ c.2 = minY)
  /\ (exists c, In c cs /\ c.1 = maxX)
  /\ (exists c, In c cs /\ c.2 = maxY).

(** *** The popup *)

(** What [getGeometry().getCoordinates()] returns: one coordinate for a
    point, the array of its coordinates for a line. *)
Inductive Coordinates : Type :=
| Single (c : Coord)
| Several (cs : list Coord).

Definition coordinatesOf (g : Geom) : Coordinates :=
  match g with
  | Point c => Single c
  | Line cs => Several cs
  end.

(** The popup overlay: the position it is shown at, [None] for the
    [undefined] that hides it, and the HTML of its content. *)
Record Popup : Type := mkPopup {
  position : option Coordinates;
  content : string
}.

(** [popupOverlay.setPosition(undefined)], followed by the [blur] of the
    closer. *)
Definition hidePopup (p : Popup) : Popup :=
  {| position := None; content := content p |}.

(** [popupCloser.onclick]. *)
Definition onCloserClick (p : Popup) : Popup := hidePopup p.

(** A property of a feature in a template literal; one that is not set
    prints as [undefined]. *)
Definition printed (v : option string) : string :=
  match v with
  | Some text => text
  | None => "undefined"
  end.

(** The handler of the clicks on the map; [feature] is what
    [forEachFeatureAtPixel] has found under the click. *)
Definition onMapClick (feature : option Feature) (p : Popup) : Popup :=
  match feature with
  | Some f =>
      if String.eqb (ftype f) "point" then
        {| position := Some (coordinatesOf (fgeometry f));
           content := "<p>Timestamp:</p><code>" ++ printed (ftimestamp f)
                        ++ "</code>" |}
      else hidePopup p
  | None => hidePopup p
  end.

(** The page: the state of the playback and the popup. *)
Record Page : Type := mkPage {
  player : State;
  popup : Popup
}.

(** What happens on the page: an event of the playback, a click on the
    map, a click on the closer of the popup. *)
Inductive PageEvent : Type :=
| Playing (ev : Event)
| MapClick (feature : option Feature)
| CloserClick.

Definition pageStep (ev : PageEvent) (pg : Page) : Page :=
  match ev with
  | Playing e => {| player := step e (player pg); popup := popup pg |}
  | MapClick feature =>
      {| player := player pg; popup := onMapClick feature (popup pg) |}
  | CloserClick => {| player := player pg; popup := onCloserClick (popup pg) |}
  end.

Definition pageRun (evs : list PageEvent) (pg : Page) : Page :=
  fold_left (fun pg ev => pageStep ev pg) evs pg.

(** The page as it is loaded, [html] being the content of the popup
    element in the document. *)
Definition loaded (html : string) : Page :=
  {| player := initial; popup := {| position := None; content := html |} |}.

(** The map has one vector layer: a feature found under a click is a
    feature of the source. *)
Definition hits (ev : PageEvent) (pg : Page) : Prop :=
  match ev with
  | MapClick (Some f) => In f (features (player pg))
  | _ => True
  end.

Fixpoint plausible (evs : list PageEvent) (pg : Page) : Prop :=
  match evs with
  | [] => True
  | ev :: evs' => hits ev pg /\ plausible evs' (pageStep ev pg)
  end.

(** *** More concrete runs *)

(** Two requests overlap and both start a playback. *)
Definition overlapEvents : list Event := take 6 raceEvents.

(** The first point of a playback is revealed and clicked on the map. *)
Definition popupEvents : list PageEvent :=
  map Playing startedEvents
    ++ [MapClick
          (Some (pointFeature
                   (plateCarree (longitude fixA1, latitude fixA1)) fixA1))].

(** *** The answer to a click *)

Definition alertText (c : Cmd) : option string :=
  match c with
  | Alert msg => Some msg
  | _ => None
  end.

(** The alerts a list of calls shows, and the timers it sets. *)
Definition alerts (cs : list Cmd) : list string := omap alertText cs.

Definition timersSet (cs : list Cmd) : list nat := omap setHandle cs.

(** The three messages of [fetchAndDisplayPath]. *)
Definition knownAlert (msg : string) : Prop :=
  msg = "Please select a group and a date range."%string
  \/ msg = "No data available for the selected criteria."%string
  \/ msg = "Failed to fetch location data."%string.

(** Every call of [fetchAndDisplayPath] so far waits for its response,
    having shown no alert and set no timer, or it is over: then it has
    shown one alert and set no timer, or set one timer and shown no
    alert. *)
Definition answered (s : State) : Prop :=
  forall c,
    (1 <= c < nextCall s)%nat ->
    let cmds := issuedBy (Handler c) (trace s) in
    match pending s !! c with
    | Some _ => alerts cmds = [] /\ timersSet cmds = []
    | None =>
        (exists msg, alerts cmds = [msg] /\ knownAlert msg
                     /\ timersSet cmds = [])
        \/ (alerts cmds = [] /\ exists h, timersSet cmds = [h])
    end.

(** *** What is drawn for a fix *)

(** The geometries the firing that reveals index [k] of [locs] draws:
    the point at the projected coordinate of the fix and, for every fix
    but the first, the line from the coordinate of the fix before it. *)
Definition geometriesAt (locs : list Fix) (k : nat) : list Geom :=
  match locs !! k with
  | Some loc =>
      Point (project loc)
        :: match prevAt locs k with
           | Some p => [Line [p; project loc]]
           | None => []
           end
  | None => []
  end.

(** What a feature is for the map: its geometry and its two
    properties. *)
Definition described (f : Feature) : Geom * option string * string :=
  (fgeometry f, ftimestamp f, ftype f).

(** The point of a fix, and the segment from a fix to the next one. *)
Definition pointOf (loc : Fix) : Geom * option string * string :=
  (Point (project loc), Some (timestamp loc), "point"%string).

Definition segmentOf (a b : Fix) : Geom * option string * string :=
  (Line [project a; project b], None, "path-segment"%string).

(** *** Playbacks after overlapping requests *)

(** Two requests overlap and both start a playback; the button is
    clicked again, the timer the page does not hold fires, and the
    response to the third request carries no fix. *)
Definition staleEvents : list Event :=
  overlapEvents
    ++ [Click "3" "2024-01-01" "2024-01-02"; Tick 1;
        FetchSettled 3 (Response true 200); JsonSettled 3 (Returned [])].

Definition isCancel (c : Cmd) : bool :=
  match c with
  | ClearIntervalCall _ => true
  | _ => false
  end.

(** The number of times the callback has run, by the calls it has made:
    a run that reveals a fix appends one item to the timeline, and a run
    that finds every fix revealed calls [clearInterval] once. *)
Definition firings (cmds : list Cmd) : nat :=
  length (appended cmds) + length (List.filter isCancel cmds).

(** ** Properties *)

(** *** States and timer tables *)

Lemma State_eq (s1 s2 : State) :
  animationInterval s1 = animationInterval s2 ->
  timers s1 = timers s2 ->
  nextHandle s1 = nextHandle s2 ->
  pending s1 = pending s2 ->
  nextCall s1 = nextCall s2 ->
  features s1 = features s2 ->
  timeline s1 = timeline s2 ->
  zoom s1 = zoom s2 ->
  now s1 = now s2 ->
  trace s1 = trace s2 ->
  s1 = s2.
Proof.
  destruct s1, s2; cbn; intros; subst; reflexivity.
Qed.

Ltac fields :=
  cbn [animationInterval timers nextHandle pending nextCall features
       timeline zoom now trace
       set_animationInterval set_timers set_nextHandle set_pending
       set_nextCall set_features set_timeline set_zoom set_now set_trace
       tell].

Ltac state_eq := apply State_eq; fields.

Ltac frames :=
  unfold with_frame, increment, push, stop, project;
  cbn [frame period due live locations i allCoordinates].

Lemma alter_known {A : Type} (f : A -> A) (h : nat) (m : gmap nat A) (x : A) :
  m !! h = Some x -> alter f h m = <[h := f x]> m.
Proof.
  intros Hx. apply map_eq. intros j.
  destruct (decide (h = j)) as [->|Hne].
  - rewrite lookup_alter_eq, lookup_insert_eq, Hx. reflexivity.
  - rewrite lookup_alter_ne, lookup_insert_ne by done. reflexivity.
Qed.

Lemma alter_inserted {A : Type} (f : A -> A) (h : nat) (m : gmap nat A) (x : A) :
  alter f h (<[h := x]> m) = <[h := f x]> m.
Proof.
  rewrite (alter_known f h _ x) by apply lookup_insert_eq.
  apply insert_insert_eq.
Qed.

(** *** One firing of the callback *)

Lemma tick_advance (s : State) (h : nat) (t : Timer) (loc : Fix) :
  timers s !! h = Some t ->
  live t = true ->
  locations (frame t) !! i (frame t) = Some loc ->
  length (allCoordinates (frame t)) = i (frame t) ->
  step (Tick h) s = advanced h t loc (N.max (now s) (due t)) s.
Proof.
  intros Ht Hlive Hloc Hlen.
  assert (Hlt : (i (frame t) < length (locations (frame t)))%nat)
    by (eapply lookup_lt_Some; eassumption).
  unfold step. rewrite Ht, Hlive.
  unfold runTask, callback, bind, closure, gets. cbn.
  rewrite Ht. cbn.
  destruct (Nat.leb_spec (length (locations (frame t))) (i (frame t))) as [Hge|_];
    [lia|].
  unfold index at 1. rewrite Hloc.
  unfold advanced, previous, revealCmds, revealedFeatures.
  destruct (i (frame t)) as [|k] eqn:Hi.
  - cbn. unfold rearm. cbn.
    rewrite (alter_known _ h (timers s) t) by assumption.
    rewrite !alter_inserted.
    state_eq; try reflexivity.
    + frames. rewrite Hi. reflexivity.
    + rewrite <- !app_assoc. reflexivity.
  - cbn. rewrite (alter_known _ h (timers s) t) by assumption.
    rewrite lookup_insert_eq. cbn.
    assert (Hk : is_Some (allCoordinates (frame t) !! k))
      by (apply lookup_lt_is_Some; lia).
    destruct Hk as [p Hp].
    unfold index. rewrite Hi. cbn. rewrite Nat.sub_0_r.
    rewrite lookup_app_l by lia. rewrite Hp. cbn.
    unfold rearm. cbn. rewrite !alter_inserted.
    state_eq; try reflexivity.
    + frames. rewrite Hi. reflexivity.
    + rewrite <- !app_assoc. reflexivity.
    + rewrite <- !app_assoc. reflexivity.
Qed.

Lemma tick_complete (s : State) (h : nat) (t : Timer) :
  timers s !! h = Some t ->
  live t = true ->
  (length (locations (frame t)) <= i (frame t))%nat ->
  step (Tick h) s = completed h (N.max (now s) (due t)) s.
Proof.
  intros Ht Hlive Hge.
  unfold step. rewrite Ht, Hlive.
  unfold runTask, callback, bind, closure, gets. cbn.
  rewrite Ht. cbn.
  destruct (Nat.leb_spec (length (locations (frame t))) (i (frame t)))
    as [_|Hlt]; [|lia].
  unfold viewFit, modify, emit, ret, throw. fields.
  unfold completed, fitCmds, cleared.
  destruct (features s) as [|f fs] eqn:Hfs;
    [|destruct (sourceExtent (f :: fs)) as [e|] eqn:He];
    (destruct (animationInterval s) as [a|] eqn:Ha);
    fields; rewrite Hfs; cbn [length]; fields; rewrite ?Hfs, ?He;
    unfold rearm; state_eq; rewrite ?Ha, ?Hfs, <- ?app_assoc;
    reflexivity.
Qed.

Lemma tick_dead (s : State) (h : nat) :
  (forall t, timers s !! h = Some t -> live t = false) ->
  step (Tick h) s = s.
Proof.
  intros Hdead. unfold step.
  destruct (timers s !! h) as [t|] eqn:Ht; [|reflexivity].
  rewrite (Hdead t eq_refl). reflexivity.
Qed.

(** *** The three parts of [fetchAndDisplayPath] *)

Lemma click_step (groupId startDate endDate : string) (s : State) :
  step (Click groupId startDate endDate) s
  = clicked groupId startDate endDate s.
Proof.
  unfold step, runTask, fetchAndDisplayPath, sourceClear,
    timelineClear, clearInterval, suspend, alert, bind, gets, modify, emit,
    ret, clicked, cleared, requestUrl.
  fields.
  destruct (animationInterval s) as [[|a]|] eqn:Ha; cbn [truthy];
    destruct (blank groupId || blank startDate || blank endDate);
    fields; state_eq; rewrite ?Ha, <- ?app_assoc; reflexivity.
Qed.

Lemma fetch_step (call : nat) (r : FetchResult) (s : State) :
  pending s !! call = Some AwaitFetch ->
  step (FetchSettled call r) s = fetched call r s.
Proof.
  intros Hp. unfold step. rewrite Hp.
  unfold runTask, afterFetch, try_catch, onCatch, suspend, consoleError,
    alert, bind, modify, emit, throw, fetched, failure.
  destruct r as [error|[|] status]; cbn [negb]; fields; state_eq;
    rewrite <- ?app_assoc, ?insert_delete_eq; cbn [stamp map];
    rewrite ?app_nil_r; reflexivity.
Qed.

Lemma fetch_step_idle (call : nat) (r : FetchResult) (s : State) :
  pending s !! call <> Some AwaitFetch ->
  step (FetchSettled call r) s = s.
Proof.
  intros Hp. unfold step.
  destruct (pending s !! call) as [[|]|]; congruence.
Qed.

Lemma json_step (call : nat) (body : outcome (list Fix)) (s : State) :
  pending s !! call = Some AwaitJson ->
  step (JsonSettled call body) s = parsed call body s.
Proof.
  intros Hp. unfold step. rewrite Hp.
  unfold runTask, afterJson, try_catch, onCatch, animatePath, setInterval,
    consoleError, alert, bind, gets, modify, emit, throw, ret, parsed,
    rejected, started, failure.
  destruct body as [[|loc locs]|error]; cbn [length Nat.eqb]; fields; state_eq;
    rewrite <- ?app_assoc; reflexivity.
Qed.

Lemma json_step_idle (call : nat) (body : outcome (list Fix)) (s : State) :
  pending s !! call <> Some AwaitJson ->
  step (JsonSettled call body) s = s.
Proof.
  intros Hp. unfold step.
  destruct (pending s !! call) as [[|]|]; congruence.
Qed.

(** *** Runs *)

Lemma run_app (evs1 evs2 : list Event) (s : State) :
  run (evs1 ++ evs2) s = run evs2 (run evs1 s).
Proof. unfold run. apply fold_left_app. Qed.

Lemma run_snoc (evs : list Event) (ev : Event) (s : State) :
  run (evs ++ [ev]) s = step ev (run evs s).
Proof. rewrite run_app. reflexivity. Qed.

Lemma run_cons (ev : Event) (evs : list Event) (s : State) :
  run (ev :: evs) s = run evs (step ev s).
Proof. reflexivity. Qed.

Lemma reachable_run (evs : list Event) (s : State) :
  reachable s -> reachable (run evs s).
Proof.
  revert s. induction evs as [|ev evs IH]; intros s Hs; [exact Hs|].
  rewrite run_cons. apply IH. constructor. exact Hs.
Qed.

Lemma repeat_snoc {A : Type} (x : A) (k : nat) :
  repeat x (S k) = repeat x k ++ [x].
Proof. exact (repeat_cons k x). Qed.

(** *** An undisturbed playback *)

Lemma previous_revealed (locs : list Fix) (k : nat) :
  previous {| locations := locs; i := k;
              allCoordinates := map project (take k locs) |}
  = prevAt locs k.
Proof.
  unfold previous, prevAt. cbn [i allCoordinates].
  destruct k as [|j]; [reflexivity|].
  rewrite list_lookup_fmap, lookup_take_lt by lia. reflexivity.
Qed.

Lemma sessionFeatures_S (locs : list Fix) (k : nat) :
  sessionFeatures locs (S k) = sessionFeatures locs k ++ featuresAt locs k.
Proof.
  unfold sessionFeatures. rewrite seq_S, flat_map_app. cbn.
  rewrite app_nil_r. reflexivity.
Qed.

Lemma sessionEntries_S (h : nat) (t0 p : N) (z : R) (locs : list Fix)
    (k : nat) :
  sessionEntries h t0 p z locs (S k)
  = sessionEntries h t0 p z locs k ++ entriesAt h t0 p z locs k.
Proof.
  unfold sessionEntries. rewrite seq_S, flat_map_app. cbn.
  rewrite app_nil_r. reflexivity.
Qed.

Lemma revealedState_S (h : nat) (locs : list Fix) (k : nat) (s : State) :
  (k < length locs)%nat ->
  step (Tick h) (revealedState h locs k s) = revealedState h locs (S k) s.
Proof.
  intros Hk.
  destruct (lookup_lt_is_Some_2 locs k Hk) as [loc Hloc].
  erewrite tick_advance;
    [|unfold revealedState; cbn [timers]; apply lookup_insert_eq
     |reflexivity
     |exact Hloc
     |cbn [frame allCoordinates i]; rewrite length_map, length_take; lia].
  unfold advanced. cbn [frame period due live locations].
  rewrite previous_revealed.
  unfold revealedState. fields.
  replace (N.max (now s + N.of_nat k * 2000)
                 (now s + N.of_nat (S k) * 2000))%N
    with (now s + N.of_nat (S k) * 2000)%N by lia.
  state_eq; try reflexivity.
  - rewrite insert_insert_eq. cbn [i allCoordinates].
    rewrite (take_S_r locs k loc Hloc), map_app. cbn [map].
    replace (now s + N.of_nat (S (S k)) * 2000)%N
      with (now s + N.of_nat (S k) * 2000 + 2000)%N by lia.
    reflexivity.
  - rewrite sessionFeatures_S. unfold featuresAt. rewrite Hloc.
    rewrite <- app_assoc. reflexivity.
  - rewrite (take_S_r locs k loc Hloc), map_app, <- app_assoc.
    reflexivity.
  - rewrite sessionEntries_S. unfold entriesAt. rewrite Hloc.
    rewrite <- app_assoc.
    replace (now s + 2000 + N.of_nat k * 2000)%N
      with (now s + N.of_nat (S k) * 2000)%N by lia.
    reflexivity.
Qed.

Lemma play (h : nat) (locs : list Fix) (k : nat) (s : State) :
  (k <= length locs)%nat ->
  run (repeat (Tick h) k) (revealedState h locs 0 s)
  = revealedState h locs k s.
Proof.
  induction k as [|k IH]; intros Hk; [reflexivity|].
  rewrite repeat_snoc, run_snoc, IH by lia.
  apply revealedState_S. lia.
Qed.

(** *** The effect of a firing in a well-formed state *)

Lemma consistent_length (fr : Frame) :
  consistent fr -> length (allCoordinates fr) = i fr.
Proof.
  intros (Hle & Hc & _). rewrite Hc, length_map, length_take. lia.
Qed.

Lemma tick_fired (s : State) (h : nat) :
  wf s -> fired h s (step (Tick h) s).
Proof.
  intros Hwf.
  destruct (timers s !! h) as [t|] eqn:Ht.
  - destruct (live t) eqn:Hlive.
    + pose proof (wf_frames s Hwf h t Ht) as Hc.
      destruct (locations (frame t) !! i (frame t)) as [loc|] eqn:Hloc.
      * rewrite (tick_advance s h t loc Ht Hlive Hloc
                   (consistent_length _ Hc)).
        eapply fired_advance; eassumption.
      * apply lookup_ge_None in Hloc. destruct Hc as (Hle & _).
        rewrite (tick_complete s h t Ht Hlive Hloc).
        eapply fired_complete; [eassumption..|lia].
    + rewrite tick_dead; [|intros t' Ht'; congruence].
      apply fired_dead. intros t' Ht'. congruence.
  - rewrite tick_dead; [|intros t' Ht'; congruence].
    apply fired_dead. intros t' Ht'. congruence.
Qed.

(** *** Well-formedness is invariant *)

Lemma stamp_origin (tm : N) (o : Origin) (cs : list Cmd) (e : Entry) :
  In e (stamp tm o cs) -> origin e = o /\ time e = tm /\ In (command e) cs.
Proof.
  unfold stamp. rewrite in_map_iff. intros (c & <- & Hc). auto.
Qed.

Lemma lookup_cleared (a : option nat) (ts : gmap nat Timer) (h : nat)
    (t' : Timer) :
  cleared a ts !! h = Some t' ->
  exists t, ts !! h = Some t /\ frame t' = frame t /\ period t' = period t
            /\ due t' = due t
            /\ live t' = (if bool_decide (a = Some h) then false else live t).
Proof.
  unfold cleared. destruct a as [k|].
  - rewrite lookup_alter. destruct (decide (k = h)) as [->|Hne].
    + rewrite bool_decide_eq_true_2 by reflexivity.
      destruct (ts !! h) as [t|]; [|discriminate].
      cbn. intros [= <-]. exists t. auto.
    + rewrite bool_decide_eq_false_2 by congruence.
      intros Ht. exists t'. auto.
  - rewrite bool_decide_eq_false_2 by congruence.
    intros Ht. exists t'. auto.
Qed.

Lemma lookup_rescheduled (tm : N) (k : nat) (ts : gmap nat Timer) (h : nat)
    (t' : Timer) :
  alter (rescheduled tm) k ts !! h = Some t' ->
  exists t, ts !! h = Some t /\ frame t' = frame t /\ period t' = period t
            /\ live t' = live t.
Proof.
  rewrite lookup_alter. destruct (decide (k = h)) as [->|Hne].
  - destruct (ts !! h) as [t|]; [|discriminate].
    cbn. intros [= <-]. exists t. auto.
  - intros Ht. exists t'. auto.
Qed.

Lemma wf_initial : wf initial.
Proof.
  split; cbn; try (intros; lia); try done.
Qed.

Lemma wf_clicked (g a b : string) (s : State) :
  wf s -> wf (clicked g a b s).
Proof.
  intros Hwf.
  assert (Hts : forall h t',
             (if truthy (animationInterval s)
              then cleared (animationInterval s) (timers s)
              else timers s) !! h = Some t' ->
             exists t, timers s !! h = Some t /\ frame t' = frame t
                       /\ period t' = period t).
  { intros h t'. destruct (truthy (animationInterval s)).
    - intros Ht. apply lookup_cleared in Ht as (t & ? & ? & ? & _).
      eauto.
    - eauto. }
  split; unfold clicked; cbn [animationInterval timers nextHandle pending
                               nextCall trace].
  - apply Hwf.
  - intros h t' Ht. apply Hts in Ht as (t & Ht & _).
    eapply wf_handles; eassumption.
  - intros h t' Ht. apply Hts in Ht as (t & Ht & -> & _).
    eapply wf_frames; eassumption.
  - intros h t' Ht. apply Hts in Ht as (t & Ht & _ & ->).
    eapply wf_periods; eassumption.
  - intros h Ha. destruct (wf_current s Hwf h Ha) as [t Ht].
    destruct (truthy (animationInterval s)); [|eauto].
    unfold cleared. rewrite Ha, lookup_alter_eq, Ht. eauto.
  - intros call w.
    destruct (blank g || blank a || blank b).
    + intros Hp. apply (wf_pending s Hwf) in Hp. lia.
    + rewrite lookup_insert. case_decide; [intros; lia|].
      intros Hp. apply (wf_pending s Hwf) in Hp. lia.
  - intros e. rewrite in_app_iff. intros [He|He].
    + apply (wf_trace s Hwf) in He.
      destruct (origin e); cbn in *; lia.
    + apply stamp_origin in He as (-> & _). cbn. lia.
Qed.

Lemma wf_fetched (call : nat) (r : FetchResult) (s : State) :
  pending s !! call = Some AwaitFetch -> wf s -> wf (fetched call r s).
Proof.
  intros Hp Hwf.
  pose proof (wf_pending s Hwf call _ Hp) as Hcall.
  split; unfold fetched; cbn [animationInterval timers nextHandle pending
                               nextCall trace]; try apply Hwf.
  - intros c w Hc.
    assert (is_Some (pending s !! c) \/ c = call) as [[w' Hw]| ->];
      [|eapply wf_pending; eassumption|exact Hcall].
    destruct r as [error|[|] status].
    + rewrite lookup_delete in Hc. case_decide; [discriminate|eauto].
    + rewrite lookup_insert in Hc. case_decide; [auto|eauto].
    + rewrite lookup_delete in Hc. case_decide; [discriminate|eauto].
  - intros e. rewrite in_app_iff. intros [He|He].
    + apply (wf_trace s Hwf) in He. exact He.
    + apply stamp_origin in He as (-> & _). exact Hcall.
Qed.

Lemma wf_parsed (call : nat) (body : outcome (list Fix)) (s : State) :
  pending s !! call = Some AwaitJson -> wf s -> wf (parsed call body s).
Proof.
  intros Hp Hwf.
  pose proof (wf_pending s Hwf call _ Hp) as Hcall.
  assert (Hrej : forall cmds, wf (rejected call cmds s)).
  { intros cmds.
    split; unfold rejected; cbn [animationInterval timers nextHandle
                                   pending nextCall trace]; try apply Hwf.
    - intros c w. rewrite lookup_delete. case_decide; [discriminate|].
      apply Hwf.
    - intros e. rewrite in_app_iff. intros [He|He].
      + apply (wf_trace s Hwf) in He. exact He.
      + apply stamp_origin in He as (-> & _). exact Hcall. }
  unfold parsed. destruct body as [[|loc locs]|error]; try apply Hrej.
  pose proof (wf_next s Hwf) as Hnext.
  split; unfold started; cbn [animationInterval timers nextHandle pending
                                nextCall trace].
  - lia.
  - intros h t. rewrite lookup_insert. case_decide.
    + intros _. lia.
    + intros Ht. apply (wf_handles s Hwf) in Ht. lia.
  - intros h t. rewrite lookup_insert. case_decide.
    + intros [= <-]. unfold consistent. cbn.
      split; [lia|]. split; [reflexivity|discriminate].
    + apply Hwf.
  - intros h t. rewrite lookup_insert. case_decide.
    + intros [= <-]. reflexivity.
    + apply Hwf.
  - intros h [= <-]. rewrite lookup_insert_eq. eauto.
  - intros c w. rewrite lookup_delete. case_decide; [discriminate|].
    apply Hwf.
  - intros e. rewrite in_app_iff. intros [He|He].
    + apply (wf_trace s Hwf) in He.
      destruct (origin e); cbn in *; lia.
    + apply stamp_origin in He as (-> & _). exact Hcall.
Qed.

Lemma consistent_advance (fr : Frame) (loc : Fix) :
  consistent fr ->
  locations fr !! i fr = Some loc ->
  consistent {| locations := locations fr; i := S (i fr);
                allCoordinates := allCoordinates fr ++ [project loc] |}.
Proof.
  intros (Hle & Hc & Hne) Hloc. unfold consistent. cbn.
  split; [apply lookup_lt_Some in Hloc; lia|].
  split; [|exact Hne].
  rewrite (take_S_r _ _ _ Hloc), map_app, Hc. reflexivity.
Qed.

Lemma wf_fired (h : nat) (s s' : State) :
  fired h s s' -> wf s -> wf s'.
Proof.
  intros Hf Hwf. destruct Hf as [Hdead|t loc Ht Hlive Hloc|t Ht Hlive Hi].
  - exact Hwf.
  - pose proof (wf_handles s Hwf h t Ht) as Hh.
    split; unfold advanced; cbn [animationInterval timers nextHandle
                                   pending nextCall trace]; try apply Hwf.
    + intros k t'. rewrite lookup_insert. case_decide; [subst; auto|].
      apply Hwf.
    + intros k t'. rewrite lookup_insert. case_decide.
      * intros [= <-]. cbn [frame].
        apply consistent_advance; [|exact Hloc].
        eapply wf_frames; eassumption.
      * apply Hwf.
    + intros k t'. rewrite lookup_insert. case_decide.
      * intros [= <-]. cbn [period]. eapply wf_periods; eassumption.
      * apply Hwf.
    + intros k Hk. rewrite lookup_insert. case_decide; [eauto|].
      apply Hwf. exact Hk.
    + intros e. rewrite in_app_iff. intros [He|He].
      * apply (wf_trace s Hwf) in He. exact He.
      * apply stamp_origin in He as (-> & _). exact Hh.
  - pose proof (wf_handles s Hwf h t Ht) as Hh.
    assert (Hts : forall k t',
               alter (rescheduled (N.max (now s) (due t))) h
                     (cleared (animationInterval s) (timers s)) !! k
               = Some t' ->
               exists t0, timers s !! k = Some t0 /\ frame t' = frame t0
                          /\ period t' = period t0).
    { intros k t' Hk.
      apply lookup_rescheduled in Hk as (t1 & Hk & -> & -> & _).
      apply lookup_cleared in Hk as (t0 & Hk & -> & -> & _). eauto. }
    split; unfold completed; cbn [animationInterval timers nextHandle
                                   pending nextCall trace]; try apply Hwf.
    + intros k t' Hk. apply Hts in Hk as (t0 & Hk & _).
      eapply wf_handles; eassumption.
    + intros k t' Hk. apply Hts in Hk as (t0 & Hk & -> & _).
      eapply wf_frames; eassumption.
    + intros k t' Hk. apply Hts in Hk as (t0 & Hk & _ & ->).
      eapply wf_periods; eassumption.
    + intros k Hk. destruct (wf_current s Hwf k Hk) as [t0 Ht0].
      rewrite lookup_alter. unfold cleared. rewrite Hk.
      case_decide; [subst k|]; rewrite lookup_alter_eq, Ht0; cbn; eauto.
    + intros e. rewrite in_app_iff. intros [He|He].
      * apply (wf_trace s Hwf) in He. exact He.
      * apply stamp_origin in He as (-> & _). exact Hh.
Qed.

Lemma wf_step (ev : Event) (s : State) : wf s -> wf (step ev s).
Proof.
  intros Hwf. destruct ev as [g a b|call r|call body|h|z|ms].
  - rewrite click_step. apply wf_clicked. exact Hwf.
  - destruct (decide (pending s !! call = Some AwaitFetch)) as [Hp|Hp].
    + rewrite fetch_step by exact Hp. apply wf_fetched; assumption.
    + rewrite fetch_step_idle by exact Hp. exact Hwf.
  - destruct (decide (pending s !! call = Some AwaitJson)) as [Hp|Hp].
    + rewrite json_step by exact Hp. apply wf_parsed; assumption.
    + rewrite json_step_idle by exact Hp. exact Hwf.
  - eapply wf_fired; [apply tick_fired|]; exact Hwf.
  - destruct Hwf. split; assumption.
  - destruct Hwf. split; assumption.
Qed.

Lemma reachable_wf (s : State) : reachable s -> wf s.
Proof.
  induction 1 as [|ev s _ IH]; [apply wf_initial|apply wf_step; exact IH].
Qed.

(** *** The geometry of a segment *)

Lemma atan2_origin : atan2 0 0 = 0.
Proof.
  unfold atan2.
  destruct (Rlt_dec 0 0) as [H|_]; [lra|].
  destruct (Rlt_dec 0 0) as [H|_]; [lra|]. reflexivity.
Qed.

Lemma atan2_east (x : R) : 0 < x -> atan2 0 x = 0.
Proof.
  intros Hx. unfold atan2. destruct (Rlt_dec 0 x) as [_|H]; [|lra].
  replace (0 / x) with 0 by (field; lra). apply atan_0.
Qed.

Lemma atan2_north (y : R) : 0 < y -> atan2 y 0 = PI / 2.
Proof.
  intros Hy. unfold atan2.
  destruct (Rlt_dec 0 0) as [H|_]; [lra|].
  destruct (Rlt_dec 0 y) as [_|H]; [reflexivity|lra].
Qed.

Lemma createSegmentStyle_pair (prev curr : Coord) :
  createSegmentStyle [prev; curr]
  = Returned [dashStyle;
              arrowStyle ((prev.1 + curr.1) / 2, (prev.2 + curr.2) / 2)
                         (atan2 (curr.2 - prev.2) (curr.1 - prev.1))].
Proof. reflexivity. Qed.

Lemma arrowRotation_pair (mid : Coord) (rot : R) :
  arrowRotation [dashStyle; arrowStyle mid rot] = Some (- rot + PI / 2).
Proof. reflexivity. Qed.

Lemma arrowMidpoint_pair (mid : Coord) (rot : R) :
  arrowMidpoint [dashStyle; arrowStyle mid rot] = Some mid.
Proof. reflexivity. Qed.

Lemma previous_consistent (fr : Frame) :
  consistent fr -> previous fr = prevAt (locations fr) (i fr).
Proof.
  intros (Hle & Hc & _). unfold previous, prevAt. rewrite Hc.
  destruct (i fr) as [|j]; [reflexivity|].
  rewrite list_lookup_fmap, lookup_take_lt by lia. reflexivity.
Qed.

Lemma started_armed (call : nat) (locs : list Fix) (s : State) :
  started call locs s = revealedState (nextHandle s) locs 0 (armed call s).
Proof.
  unfold started, revealedState, armed. state_eq; try reflexivity.
  - unfold sessionFeatures. cbn. rewrite app_nil_r. reflexivity.
  - rewrite take_0. cbn. rewrite app_nil_r. reflexivity.
  - lia.
  - unfold sessionEntries. cbn. rewrite app_nil_r. reflexivity.
Qed.

Lemma request_run (g a b : string) (status : nat) (s : State) :
  complete g a b ->
  run [Click g a b; FetchSettled (nextCall s) (Response true status)] s
  = requested g a b status s.
Proof.
  intros (Hg & Ha & Hb). unfold run. cbn [fold_left].
  rewrite click_step. apply fetch_step.
  unfold clicked. cbn [pending]. rewrite Hg, Ha, Hb. cbn [orb].
  apply lookup_insert_eq.
Qed.

Lemma requested_pending (g a b : string) (status : nat) (s : State) :
  pending (requested g a b status s) !! nextCall s = Some AwaitJson.
Proof. unfold requested, fetched. cbn [pending]. apply lookup_insert_eq. Qed.

Lemma playback_run (g a b : string) (status : nat) (loc : Fix)
    (rest : list Fix) (k : nat) (s : State) :
  complete g a b ->
  (k <= length (loc :: rest))%nat ->
  run (playback g a b status (loc :: rest) (nextCall s) (nextHandle s) k) s
  = revealedState (nextHandle s) (loc :: rest) k
      (armed (nextCall s) (requested g a b status s)).
Proof.
  intros Hform Hk. unfold playback.
  change [Click g a b; FetchSettled (nextCall s) (Response true status);
          JsonSettled (nextCall s) (Returned (loc :: rest))]
    with ([Click g a b; FetchSettled (nextCall s) (Response true status)]
            ++ [JsonSettled (nextCall s) (Returned (loc :: rest))]).
  rewrite !run_app, request_run by exact Hform.
  unfold run at 2. cbn [fold_left].
  rewrite json_step by apply requested_pending.
  unfold parsed. rewrite started_armed.
  apply play. exact Hk.
Qed.

Lemma finish (h : nat) (locs : list Fix) (s : State) :
  animationInterval s = Some h ->
  step (Tick h) (revealedState h locs (length locs) s)
  = finishedState h locs s.
Proof.
  intros Ha.
  erewrite tick_complete;
    [|unfold revealedState; cbn [timers]; apply lookup_insert_eq
     |reflexivity
     |cbn [frame locations i]; lia].
  unfold completed, revealedState, finishedState, cleared. fields.
  cbn [due]. rewrite Ha.
  replace (N.max (now s + N.of_nat (length locs) * 2000)
                 (now s + N.of_nat (S (length locs)) * 2000))%N
    with (now s + N.of_nat (S (length locs)) * 2000)%N by lia.
  state_eq; try reflexivity.
  - rewrite !alter_inserted. unfold rescheduled, stop.
    cbn [frame period due live]. rewrite firstn_all. reflexivity.
  - rewrite firstn_all. reflexivity.
  - rewrite <- app_assoc. reflexivity.
Qed.

Lemma finished_idle (h : nat) (locs : list Fix) (s : State) (m : nat) :
  run (repeat (Tick h) m) (finishedState h locs s) = finishedState h locs s.
Proof.
  induction m as [|m IH]; [reflexivity|].
  cbn [repeat]. rewrite run_cons, tick_dead; [exact IH|].
  intros t. unfold finishedState. cbn [timers].
  rewrite lookup_insert_eq. intros [= <-]. reflexivity.
Qed.

(** *** Reading a trace *)

Lemma issuedBy_app (o : Origin) (tr1 tr2 : list Entry) :
  issuedBy o (tr1 ++ tr2) = issuedBy o tr1 ++ issuedBy o tr2.
Proof. unfold issuedBy. rewrite filter_app, map_app. reflexivity. Qed.

Lemma issuedBy_stamp (o o' : Origin) (tm : N) (cs : list Cmd) :
  issuedBy o (stamp tm o' cs) = if decide (o' = o) then cs else [].
Proof.
  unfold issuedBy, stamp. induction cs as [|c cs IH].
  - destruct (decide (o' = o)); reflexivity.
  - cbn [map]. rewrite filter_cons. cbn [origin].
    destruct (decide (o' = o)) as [Heq|Hne]; cbn [map command];
      rewrite IH; reflexivity.
Qed.

Lemma issuedBy_none (o : Origin) (tr : list Entry) :
  (forall e, In e tr -> origin e <> o) -> issuedBy o tr = [].
Proof.
  unfold issuedBy. induction tr as [|e tr IH]; intros Hall; [reflexivity|].
  rewrite filter_cons. destruct (decide (origin e = o)) as [Heq|_].
  - exfalso. apply (Hall e); [left; reflexivity|exact Heq].
  - apply IH. intros e' He'. apply Hall. right. exact He'.
Qed.

Lemma issuedBy_fresh (s : State) :
  wf s -> issuedBy (TimerTask (nextHandle s)) (trace s) = [].
Proof.
  intros Hwf. apply issuedBy_none. intros e He Ho.
  apply (wf_trace s Hwf) in He. rewrite Ho in He. cbn in He. lia.
Qed.

Lemma issuedBy_sessionEntries (h : nat) (t0 p : N) (z : R)
    (locs : list Fix) (k : nat) :
  added (issuedBy (TimerTask h) (sessionEntries h t0 p z locs k))
  = sessionFeatures locs k.
Proof.
  induction k as [|k IH]; [reflexivity|].
  rewrite sessionEntries_S, sessionFeatures_S, issuedBy_app.
  unfold added in *. rewrite omap_app, IH. f_equal.
  unfold entriesAt, featuresAt.
  destruct (locs !! k) as [loc|]; [|reflexivity].
  rewrite issuedBy_stamp. destruct (decide _) as [_|Hne]; [|congruence].
  unfold revealCmds, revealedFeatures.
  destruct (prevAt locs k); reflexivity.
Qed.

Lemma added_fitCmds (fs : list Feature) : added (fitCmds fs) = [].
Proof.
  unfold fitCmds. destruct fs; [reflexivity|].
  destruct (sourceExtent _); reflexivity.
Qed.

(** *** The points and the segments of a playback *)

Lemma points_sessionFeatures (locs : list Fix) (k : nat) :
  (k <= length locs)%nat ->
  List.filter isPoint (sessionFeatures locs k)
  = map (fun loc => pointFeature (project loc) loc) (take k locs).
Proof.
  induction k as [|k IH]; intros Hk; [reflexivity|].
  destruct (lookup_lt_is_Some_2 locs k) as [loc Hloc]; [lia|].
  rewrite sessionFeatures_S, List.filter_app, IH by lia.
  rewrite (take_S_r _ _ _ Hloc), map_app. f_equal.
  unfold featuresAt. rewrite Hloc. unfold revealedFeatures.
  destruct (prevAt locs k); reflexivity.
Qed.

Lemma segments_sessionFeatures (locs : list Fix) (k : nat) :
  (k <= length locs)%nat ->
  length (List.filter isSegment (sessionFeatures locs k)) = (k - 1)%nat
  /\ forall j a b,
       (S j < k)%nat -> locs !! j = Some a -> locs !! S j = Some b ->
       List.filter isSegment (sessionFeatures locs k) !! j
       = Some (segmentBetween (project a) (project b)).
Proof.
  induction k as [|k IH]; intros Hk.
  - split; [reflexivity|]. intros; lia.
  - destruct IH as [IHlen IHat]; [lia|].
    destruct (lookup_lt_is_Some_2 locs k) as [loc Hloc]; [lia|].
    rewrite sessionFeatures_S, List.filter_app.
    unfold featuresAt. rewrite Hloc. unfold revealedFeatures.
    destruct k as [|k'].
    + cbn. split; [reflexivity|]. intros; lia.
    + unfold prevAt.
      destruct (lookup_lt_is_Some_2 locs k') as [prev Hprev]; [lia|].
      rewrite Hprev. cbn [fmap option_fmap option_map].
      change (List.filter isSegment
                [pointFeature (project loc) loc;
                 segmentBetween (project prev) (project loc)])
        with [segmentBetween (project prev) (project loc)].
      split.
      * rewrite length_app, IHlen. cbn. lia.
      * intros j a b Hj Ha Hb.
        destruct (decide (j = k')) as [->|Hne].
        -- rewrite lookup_app_r by lia.
           rewrite IHlen. replace (k' - (S k' - 1))%nat with 0%nat by lia.
           rewrite Hprev in Ha. rewrite Hloc in Hb.
           injection Ha as <-. injection Hb as <-. reflexivity.
        -- rewrite lookup_app_l by lia. apply IHat; [lia|assumption..].
Qed.

Lemma issuedBy_all (o : Origin) (tr : list Entry) :
  (forall e, In e tr -> origin e = o) -> issuedBy o tr = map command tr.
Proof.
  unfold issuedBy. induction tr as [|e tr IH]; intros Hall; [reflexivity|].
  rewrite filter_cons. destruct (decide (origin e = o)) as [_|Hne].
  - cbn [map]. f_equal. apply IH. intros e' He'. apply Hall. right.
    exact He'.
  - exfalso. apply Hne, Hall. left. reflexivity.
Qed.

Lemma sessionEntries_origin (h : nat) (t0 p : N) (z : R) (locs : list Fix)
    (k : nat) (e : Entry) :
  In e (sessionEntries h t0 p z locs k) -> origin e = TimerTask h.
Proof.
  unfold sessionEntries. rewrite in_flat_map. intros (j & _ & He).
  unfold entriesAt in He. destruct (locs !! j); [|contradiction].
  apply stamp_origin in He. tauto.
Qed.

Lemma playback_finished (g a b : string) (status : nat) (loc : Fix)
    (rest : list Fix) (m : nat) (s : State) :
  complete g a b ->
  run (playback g a b status (loc :: rest) (nextCall s) (nextHandle s)
         (S (length (loc :: rest)) + m)) s
  = finishedState (nextHandle s) (loc :: rest)
      (armed (nextCall s) (requested g a b status s)).
Proof.
  intros Hform.
  replace (S (length (loc :: rest)) + m)%nat
    with (length (loc :: rest) + (1 + m))%nat by lia.
  unfold playback. rewrite repeat_app, app_assoc, run_app.
  fold (playback g a b status (loc :: rest) (nextCall s) (nextHandle s)
          (length (loc :: rest))).
  rewrite playback_run by (exact Hform || lia).
  cbn [repeat Nat.add]. rewrite run_cons, finish by reflexivity.
  apply finished_idle.
Qed.

(** The calls made by the timer of an undisturbed playback: one group
    per fix, then the calls of the completing firing. *)
Lemma playback_issued (g a b : string) (status : nat) (locs : list Fix)
    (s : State) :
  wf s ->
  let h := nextHandle s in
  issuedBy (TimerTask h)
    (trace (finishedState h locs
              (armed (nextCall s) (requested g a b status s))))
  = map command
      (sessionEntries h (now s + 2000)%N 2000 (zoom s) locs (length locs))
    ++ ClearIntervalCall (Some h)
         :: fitCmds (sessionFeatures locs (length locs)).
Proof.
  intros Hwf h. subst h.
  unfold finishedState, armed, requested, fetched, clicked. fields.
  rewrite !issuedBy_app, !issuedBy_stamp.
  rewrite (issuedBy_fresh s Hwf).
  repeat (destruct (decide _) as [Heq|_]; [discriminate Heq|]).
  rewrite (issuedBy_all _ _
             (sessionEntries_origin (nextHandle s) _ _ _ _ _)).
  destruct (decide _) as [_|Hne]; [|congruence].
  reflexivity.
Qed.

(** *** The extent of the features of a playback *)

Lemma extend_covered (e : Extent) (c : Coord) :
  covers e c -> extendCoordinate e c = e.
Proof.
  destruct e as [[[minX minY] maxX] maxY]. cbn. intros [[? ?] [? ?]].
  rewrite !Rmin_left, !Rmax_left by assumption. reflexivity.
Qed.

Lemma covers_extend (e : Extent) (c c' : Coord) :
  covers e c -> covers (extendCoordinate e c') c.
Proof.
  destruct e as [[[minX minY] maxX] maxY]. cbn. intros [[? ?] [? ?]].
  pose proof (Rmin_l minX c'.1). pose proof (Rmin_l minY c'.2).
  pose proof (Rmax_l maxX c'.1). pose proof (Rmax_l maxY c'.2).
  repeat split; lra.
Qed.

Lemma covers_extended (e : Extent) (c : Coord) :
  covers (extendCoordinate e c) c.
Proof.
  destruct e as [[[minX minY] maxX] maxY]. cbn.
  pose proof (Rmin_r minX c.1). pose proof (Rmin_r minY c.2).
  pose proof (Rmax_r maxX c.1). pose proof (Rmax_r maxY c.2).
  repeat split; lra.
Qed.

Lemma covers_fold (cs : list Coord) (e : Extent) (c : Coord) :
  covers e c \/ In c cs -> covers (fold_left extendCoordinate cs e) c.
Proof.
  revert e. induction cs as [|c' cs IH]; intros e [Hc|Hin]; cbn.
  - exact Hc.
  - destruct Hin.
  - apply IH. left. apply covers_extend. exact Hc.
  - apply IH. destruct Hin as [->|Hin]; [left; apply covers_extended|].
    right. exact Hin.
Qed.

Lemma boundingExtent_app (cs cs' : list Coord) (e : Extent) :
  boundingExtent cs = Some e ->
  boundingExtent (cs ++ cs') = Some (fold_left extendCoordinate cs' e).
Proof.
  destruct cs as [|c cs]; [discriminate|]. cbn. intros [= <-].
  rewrite fold_left_app. reflexivity.
Qed.

Lemma boundingExtent_covers (cs : list Coord) (e : Extent) (c : Coord) :
  boundingExtent cs = Some e -> In c cs -> covers e c.
Proof.
  destruct cs as [|c0 cs]; [discriminate|]. cbn. intros [= <-] [->|Hin].
  - apply covers_fold. left. cbn. lra.
  - apply covers_fold. right. exact Hin.
Qed.

Lemma featureCoords_app (fs fs' : list Feature) :
  featureCoords (fs ++ fs') = featureCoords fs ++ featureCoords fs'.
Proof. unfold featureCoords. rewrite map_app, concat_app. reflexivity. Qed.

(** The extent of the features of a playback is the extent of the
    coordinates revealed: the ends of a segment are points already. *)
Lemma sessionFeatures_extent (locs : list Fix) (k : nat) :
  (k <= length locs)%nat ->
  sourceExtent (sessionFeatures locs k)
  = boundingExtent (map project (take k locs)).
Proof.
  unfold sourceExtent.
  induction k as [|k IH]; intros Hk; [reflexivity|].
  destruct (lookup_lt_is_Some_2 locs k) as [loc Hloc]; [lia|].
  rewrite sessionFeatures_S, featureCoords_app.
  rewrite (take_S_r _ _ _ Hloc), map_app. cbn [map].
  unfold featuresAt. rewrite Hloc. unfold revealedFeatures.
  destruct k as [|k'].
  - reflexivity.
  - specialize (IH ltac:(lia)).
    destruct (lookup_lt_is_Some_2 locs k') as [prev Hprev]; [lia|].
    unfold prevAt. rewrite Hprev. cbn [fmap option_fmap option_map].
    destruct (boundingExtent (map project (take (S k') locs)))
      as [e|] eqn:He.
    + rewrite (boundingExtent_app _ _ e IH).
      rewrite (boundingExtent_app _ _ e He).
      cbn [featureCoords map concat fgeometry pointFeature segmentBetween
           segmentFeature geomCoords app fold_left].
      rewrite (extend_covered (extendCoordinate e (project loc))
                 (project prev)).
      * rewrite extend_covered by apply covers_extended. reflexivity.
      * apply covers_extend. eapply boundingExtent_covers; [exact He|].
        apply in_map. apply list_elem_of_In.
        apply (list_elem_of_lookup_2 _ k').
        rewrite lookup_take_lt by lia. exact Hprev.
    + rewrite (take_S_r _ _ _ Hprev), map_app in He.
      destruct (map project (take k' locs)); discriminate.
Qed.

(** *** Completion *)

Lemma fits_sessionEntries (h : nat) (t0 p : N) (z : R) (locs : list Fix)
    (k : nat) :
  List.filter isFit (map command (sessionEntries h t0 p z locs k)) = [].
Proof.
  induction k as [|k IH]; [reflexivity|].
  rewrite sessionEntries_S, map_app, List.filter_app, IH.
  unfold entriesAt. destruct (locs !! k) as [loc|]; [|reflexivity].
  unfold stamp, revealCmds. destruct (prevAt locs k); reflexivity.
Qed.

Lemma fitCmds_extent (fs : list Feature) (e : Extent) :
  sourceExtent fs = Some e ->
  fitCmds fs = [ViewFit e [50; 50; 50; 50]%N 1000].
Proof.
  intros He. unfold fitCmds. destruct fs as [|f fs]; [discriminate|].
  rewrite He. reflexivity.
Qed.

Lemma boundingExtent_some (cs : list Coord) :
  cs <> [] -> is_Some (boundingExtent cs).
Proof. destruct cs; [congruence|]. cbn. eauto. Qed.

Lemma addedPoints_revealCmds (prev : option Coord) (loc : Fix) (z : R) :
  addedPoints (revealCmds prev loc z) = [pointFeature (project loc) loc].
Proof. unfold revealCmds. destruct prev; reflexivity. Qed.

(** *** The trace of a request *)

Lemma issuedBy_fresh_call (s : State) :
  wf s -> issuedBy (Handler (nextCall s)) (trace s) = [].
Proof.
  intros Hwf. apply issuedBy_none. intros e He Ho.
  apply (wf_trace s Hwf) in He. rewrite Ho in He. cbn in He. lia.
Qed.

Lemma requested_trace (g a b : string) (status : nat) (s : State) :
  complete g a b ->
  trace (requested g a b status s)
  = trace s ++ stamp (now s) (Handler (nextCall s)) (requestCmds g a b s).
Proof.
  intros (Hg & Ha & Hb). unfold requested, fetched, clicked, requestCmds.
  cbn [trace now]. rewrite Hg, Ha, Hb. cbn [orb stamp map].
  rewrite app_nil_r. reflexivity.
Qed.

(** *** Every step, case by case *)

Lemma step_stepped (ev : Event) (s : State) :
  wf s -> stepped s ev (step ev s).
Proof.
  intros Hwf. destruct ev as [g a b|call r|call body|h|z|ms].
  - rewrite click_step. constructor.
  - destruct (decide (pending s !! call = Some AwaitFetch)) as [Hp|Hp].
    + rewrite fetch_step by exact Hp. constructor. exact Hp.
    + rewrite fetch_step_idle by exact Hp. constructor. exact Hp.
  - destruct (decide (pending s !! call = Some AwaitJson)) as [Hp|Hp].
    + rewrite json_step by exact Hp. constructor. exact Hp.
    + rewrite json_step_idle by exact Hp. constructor. exact Hp.
  - constructor. apply tick_fired. exact Hwf.
  - constructor.
  - constructor.
Qed.

(** What a step does to a timer that exists: its closure stays, or it
    is this timer that fires and reveals the fix at index [i]; a timer
    that is not live stays so. *)
Lemma step_timer (ev : Event) (s : State) (h : nat) (t : Timer) :
  wf s ->
  timers s !! h = Some t ->
  exists t',
    timers (step ev s) !! h = Some t'
    /\ (live t' = true -> live t = true)
    /\ (frame t' = frame t
        \/ exists loc,
             ev = Tick h /\ live t = true
             /\ locations (frame t) !! i (frame t) = Some loc
             /\ frame t' = {| locations := locations (frame t);
                              i := S (i (frame t));
                              allCoordinates :=
                                allCoordinates (frame t)
                                  ++ [project loc] |}).
Proof.
  intros Hwf Ht.
  pose proof (wf_handles s Hwf h t Ht) as Hh.
  assert (Hstop : exists t', Some (stop t) = Some t'
                             /\ (live t' = true -> live t = true)
                             /\ (frame t' = frame t \/ False)).
  { eexists. split; [reflexivity|]. cbn. split; [discriminate|auto]. }
  destruct (step_stepped ev s Hwf)
    as [g a b|call r Hp|call body Hp|k s' Hf|z|ms|call r Hp|call body Hp].
  - unfold clicked. cbn [timers].
    destruct (truthy (animationInterval s)); [|eauto].
    unfold cleared. destruct (animationInterval s) as [c|]; [|eauto].
    rewrite lookup_alter. case_decide; [subst c|]; rewrite Ht; cbn;
      [|eauto].
    destruct Hstop as (t' & Heq & Hl & [Hfr|[]]). eauto.
  - unfold fetched. cbn [timers]. eauto.
  - unfold parsed, rejected, started.
    destruct body as [[|loc locs]|error]; cbn [timers]; eauto.
    rewrite lookup_insert_ne by lia. eauto.
  - destruct Hf as [Hdead|t0 loc Ht0 Hlive Hloc|t0 Ht0 Hlive Hi].
    + eauto.
    + unfold advanced. cbn [timers]. rewrite lookup_insert.
      case_decide as Hk; [subst k|eauto].
      rewrite Ht in Ht0. injection Ht0 as <-.
      eexists. split; [reflexivity|]. cbn [frame live].
      split; [auto|]. right. exists loc. auto.
    + unfold completed. cbn [timers].
      rewrite lookup_alter.
      assert (Hc : exists t1, cleared (animationInterval s) (timers s) !! h
                              = Some t1
                              /\ frame t1 = frame t
                              /\ (live t1 = true -> live t = true)).
      { unfold cleared. destruct (animationInterval s) as [c|]; [|eauto].
        rewrite lookup_alter. case_decide; [subst c|]; rewrite Ht; cbn;
          [|eauto].
        eexists. split; [reflexivity|]. cbn. split; [reflexivity|].
        discriminate. }
      destruct Hc as (t1 & Ht1 & Hfr & Hl).
      case_decide; [subst k|]; rewrite Ht1; cbn; eauto.
  - cbn [timers set_zoom]. eauto.
  - cbn [timers set_now]. eauto.
  - eauto.
  - eauto.
Qed.

(** What a step adds to the trace: the calls of one task, which is a
    call of the handler or the callback of a live timer. *)
Lemma step_trace (ev : Event) (s : State) :
  wf s ->
  exists tm o cmds,
    trace (step ev s) = trace s ++ stamp tm o cmds
    /\ forall k, o = TimerTask k ->
         ev = Tick k /\ exists t, timers s !! k = Some t /\ live t = true.
Proof.
  intros Hwf.
  assert (Hnone : exists tm o cmds,
             trace s = trace s ++ stamp tm o cmds
             /\ forall k, o = TimerTask k ->
                  ev = Tick k
                  /\ exists t, timers s !! k = Some t /\ live t = true).
  { exists 0%N, (Handler 0), []. cbn. rewrite app_nil_r.
    split; [reflexivity|discriminate]. }
  destruct (step_stepped ev s Hwf)
    as [g a b|call r Hp|call body Hp|k s' Hf|z|ms|call r Hp|call body Hp];
    try exact Hnone.
  - unfold clicked. cbn [trace].
    do 3 eexists. split; [reflexivity|discriminate].
  - unfold fetched. cbn [trace].
    do 3 eexists. split; [reflexivity|discriminate].
  - unfold parsed, rejected, started.
    destruct body as [[|loc locs]|error]; cbn [trace];
      do 3 eexists; (split; [reflexivity|discriminate]).
  - destruct Hf as [Hdead|t0 loc Ht0 Hlive Hloc|t0 Ht0 Hlive Hi].
    + exact Hnone.
    + unfold advanced. cbn [trace].
      do 3 eexists. split; [reflexivity|].
      intros k' [= <-]. eauto.
    + unfold completed. cbn [trace].
      do 3 eexists. split; [reflexivity|].
      intros k' [= <-]. eauto.
Qed.

(** A timer that is not live stays so, keeps its closure and makes no
    call, whatever happens next. *)
Lemma dead_timer_silent (evs : list Event) (s : State) (h : nat)
    (t : Timer) :
  wf s ->
  timers s !! h = Some t ->
  live t = false ->
  exists t',
    timers (run evs s) !! h = Some t'
    /\ live t' = false
    /\ frame t' = frame t
    /\ issuedBy (TimerTask h) (trace (run evs s))
       = issuedBy (TimerTask h) (trace s).
Proof.
  revert s t. induction evs as [|ev evs IH]; intros s t Hwf Ht Hdead.
  - exists t. auto.
  - rewrite run_cons.
    destruct (step_timer ev s h t Hwf Ht) as (t1 & Ht1 & Hl & Hfr).
    assert (Hdead1 : live t1 = false).
    { destruct (live t1); [|reflexivity].
      rewrite Hl in Hdead by reflexivity. discriminate. }
    destruct (IH (step ev s) t1 (wf_step ev s Hwf) Ht1 Hdead1)
      as (t' & Ht' & Hl' & Hfr' & Hissued).
    exists t'. split; [exact Ht'|]. split; [exact Hl'|].
    split.
    + rewrite Hfr'. destruct Hfr as [Hfr|(loc & _ & Hlive & _)];
        [exact Hfr|congruence].
    + rewrite Hissued.
      destruct (step_trace ev s Hwf) as (tm & o & cmds & -> & Ho).
      rewrite issuedBy_app, issuedBy_stamp.
      destruct (decide (o = TimerTask h)) as [->|_];
        [|apply app_nil_r].
      destruct (Ho h eq_refl) as (_ & t0 & Ht0 & Hlive0). congruence.
Qed.

(** *** No task throws *)

Lemma sourceExtent_located (f : Feature) (fs : list Feature) :
  geomCoords (fgeometry f) <> [] -> is_Some (sourceExtent (f :: fs)).
Proof.
  intros Hf. unfold sourceExtent, featureCoords. cbn [map concat].
  apply boundingExtent_some.
  destruct (geomCoords (fgeometry f)); [congruence|discriminate].
Qed.

Lemma quiet_extend (s : State) (tm : N) (o : Origin) (cmds : list Cmd)
    (tr : list Entry) :
  quiet s ->
  tr = trace s ++ stamp tm o cmds ->
  forallb (fun c => negb (uncaught c)) cmds = true ->
  forall e, In e tr -> uncaught (command e) = false.
Proof.
  intros Hq -> Hcmds e. rewrite in_app_iff. intros [He|He].
  - apply Hq. exact He.
  - apply stamp_origin in He as (_ & _ & Hc).
    rewrite forallb_forall in Hcmds. apply Hcmds in Hc.
    destruct (uncaught (command e)); [discriminate|reflexivity].
Qed.

Lemma located_quiet_step (ev : Event) (s : State) :
  wf s -> located s -> quiet s ->
  located (step ev s) /\ quiet (step ev s).
Proof.
  intros Hwf Hloc Hq.
  destruct (step_stepped ev s Hwf)
    as [g a b|call r Hp|call body Hp|k s' Hf|z|ms|call r Hp|call body Hp];
    try (split; assumption).
  - split; [intros f []|].
    unfold quiet, clicked. cbn [trace].
    eapply quiet_extend; [exact Hq|reflexivity|].
    destruct (truthy _), (blank g || blank a || blank b); reflexivity.
  - split; [exact Hloc|].
    unfold quiet, fetched. cbn [trace].
    eapply quiet_extend; [exact Hq|reflexivity|].
    destruct r as [error|[|] status]; reflexivity.
  - unfold parsed, rejected, started.
    destruct body as [[|loc locs]|error]; (split; [exact Hloc|]);
      unfold quiet; cbn [trace];
      (eapply quiet_extend; [exact Hq|reflexivity|reflexivity]).
  - destruct Hf as [Hdead|t0 loc Ht0 Hlive Hl|t0 Ht0 Hlive Hi].
    + split; assumption.
    + split.
      * unfold located, advanced. cbn [features]. intros f.
        rewrite in_app_iff. intros [Hf|Hf]; [apply Hloc; exact Hf|].
        unfold revealedFeatures in Hf.
        destruct (previous (frame t0)); cbn in Hf;
          intuition (subst; discriminate).
      * unfold quiet, advanced. cbn [trace].
        eapply quiet_extend; [exact Hq|reflexivity|].
        unfold revealCmds. destruct (previous (frame t0)); reflexivity.
    + split; [exact Hloc|].
      unfold quiet, completed. cbn [trace].
      eapply quiet_extend; [exact Hq|reflexivity|].
      unfold fitCmds. destruct (features s) as [|f fs] eqn:Hfs;
        [reflexivity|].
      destruct (sourceExtent_located f fs) as [e ->]; [|reflexivity].
      apply Hloc. rewrite Hfs. left. reflexivity.
Qed.

Lemma reachable_quiet (s : State) : reachable s -> located s /\ quiet s.
Proof.
  induction 1 as [|ev s Hs [Hloc Hq]].
  - split; intros ? [].
  - apply located_quiet_step; [apply reachable_wf; exact Hs|assumption..].
Qed.

(** *** What each timer has issued *)

(** The calls a step adds for the timer [h]: those of its firing, when
    the step is a firing of it and it is live. *)
Lemma step_issued (ev : Event) (s : State) (h : nat) (t : Timer) :
  wf s ->
  timers s !! h = Some t ->
  issuedBy (TimerTask h) (trace (step ev s))
  = issuedBy (TimerTask h) (trace s)
      ++ match ev with
         | Tick k => if decide (k = h)
                     then if live t then firingCmds s t else []
                     else []
         | _ => []
         end.
Proof.
  intros Hwf Ht.
  destruct (step_stepped ev s Hwf)
    as [g a b|call r Hp|call body Hp|k s' Hf|z|ms|call r Hp|call body Hp].
  - unfold clicked. cbn [trace]. rewrite issuedBy_app, issuedBy_stamp.
    destruct (decide _) as [Heq|_]; [discriminate Heq|reflexivity].
  - unfold fetched. cbn [trace]. rewrite issuedBy_app, issuedBy_stamp.
    destruct (decide _) as [Heq|_]; [discriminate Heq|reflexivity].
  - unfold parsed, rejected, started.
    destruct body as [[|loc locs]|error]; cbn [trace];
      rewrite issuedBy_app, issuedBy_stamp;
      (destruct (decide _) as [Heq|_]; [discriminate Heq|reflexivity]).
  - destruct Hf as [Hdead|t0 loc Ht0 Hlive Hloc|t0 Ht0 Hlive Hi].
    + destruct (decide (k = h)) as [->|_]; [|symmetry; apply app_nil_r].
      rewrite (Hdead t Ht). symmetry. apply app_nil_r.
    + unfold advanced. cbn [trace]. rewrite issuedBy_app, issuedBy_stamp.
      destruct (decide (k = h)) as [->|Hne].
      * rewrite Ht in Ht0. injection Ht0 as <-.
        rewrite Hlive. unfold firingCmds. rewrite Hloc.
        destruct (decide _) as [_|Hne]; [reflexivity|congruence].
      * destruct (decide _) as [Heq|_]; [congruence|reflexivity].
    + unfold completed. cbn [trace]. rewrite issuedBy_app, issuedBy_stamp.
      destruct (decide (k = h)) as [->|Hne].
      * rewrite Ht in Ht0. injection Ht0 as <-.
        rewrite Hlive. unfold firingCmds.
        rewrite (proj2 (lookup_ge_None _ _)) by lia.
        destruct (decide _) as [_|Hne]; [reflexivity|congruence].
      * destruct (decide _) as [Heq|_]; [congruence|reflexivity].
  - symmetry. apply app_nil_r.
  - symmetry. apply app_nil_r.
  - symmetry. apply app_nil_r.
  - symmetry. apply app_nil_r.
Qed.

(** A timer of the next state is a timer of this one, or the one that
    [animatePath] has just set. *)
Lemma step_timer_inv (ev : Event) (s : State) (h : nat) (t' : Timer) :
  wf s ->
  timers (step ev s) !! h = Some t' ->
  is_Some (timers s !! h)
  \/ (h = nextHandle s
      /\ i (frame t') = 0%nat
      /\ live t' = true
      /\ animationInterval (step ev s) = Some h
      /\ issuedBy (TimerTask h) (trace (step ev s)) = []
      /\ exists call, ev = JsonSettled call (Returned (locations (frame t')))
                      /\ pending s !! call = Some AwaitJson).
Proof.
  intros Hwf Ht'.
  destruct (timers s !! h) as [t|] eqn:Ht; [left; eauto|right].
  destruct (step_stepped ev s Hwf)
    as [g a b|call r Hp|call body Hp|k s' Hf|z|ms|call r Hp|call body Hp];
    try (exfalso; cbn [timers fetched set_zoom set_now] in Ht'; congruence).
  - exfalso. unfold clicked in Ht'. cbn [timers] in Ht'.
    destruct (truthy (animationInterval s)); [|congruence].
    apply lookup_cleared in Ht' as (t & Ht0 & _). congruence.
  - unfold parsed, rejected, started in *.
    destruct body as [[|loc locs]|error]; cbn [timers] in Ht'; try congruence.
    rewrite lookup_insert in Ht'. case_decide as Hh; [|congruence].
    injection Ht' as <-. subst h. cbn [frame i live animationInterval trace
                                       locations].
    repeat (split; [reflexivity|]).
    split; [|eauto].
    rewrite issuedBy_app, issuedBy_stamp, (issuedBy_fresh s Hwf).
    destruct (decide _) as [Heq|_]; [discriminate Heq|reflexivity].
  - exfalso. destruct Hf as [Hdead|t0 loc Ht0 Hlive Hloc|t0 Ht0 Hlive Hi].
    + congruence.
    + unfold advanced in Ht'. cbn [timers] in Ht'.
      rewrite lookup_insert in Ht'. case_decide; congruence.
    + unfold completed in Ht'. cbn [timers] in Ht'.
      apply lookup_rescheduled in Ht' as (t1 & Ht1 & _).
      apply lookup_cleared in Ht1 as (t2 & Ht2 & _). congruence.
Qed.

Lemma added_revealCmds (prev : option Coord) (loc : Fix) (z : R) :
  added (revealCmds prev loc z) = revealedFeatures prev loc.
Proof. unfold revealCmds, revealedFeatures. destruct prev; reflexivity. Qed.

Lemma added_firingCmds (s : State) (t : Timer) :
  consistent (frame t) ->
  added (firingCmds s t) = featuresAt (locations (frame t)) (i (frame t)).
Proof.
  intros Hc. unfold firingCmds, featuresAt.
  destruct (locations (frame t) !! i (frame t)) as [loc|].
  - rewrite added_revealCmds, (previous_consistent _ Hc). reflexivity.
  - apply (added_fitCmds (features s)).
Qed.

Lemma traced_step (ev : Event) (s : State) :
  wf s -> traced s -> traced (step ev s).
Proof.
  intros Hwf Htr h t' Ht'.
  destruct (step_timer_inv ev s h t' Hwf Ht')
    as [[t Ht]|(_ & Hi & _ & _ & -> & _)]; [|rewrite Hi; reflexivity].
  rewrite (step_issued ev s h t Hwf Ht).
  unfold added. rewrite omap_app. fold (added (issuedBy (TimerTask h) (trace s))).
  rewrite (Htr h t Ht).
  destruct (step_timer ev s h t Hwf Ht) as (t1 & Ht1 & _ & Hfr).
  rewrite Ht' in Ht1. injection Ht1 as <-.
  pose proof (wf_frames s Hwf h t Ht) as Hc.
  destruct Hfr as [Hfr|(loc & -> & Hlive & Hloc & Hfr)]; rewrite Hfr.
  - destruct ev as [| | |k| |]; try apply app_nil_r.
    destruct (decide (k = h)) as [->|_]; [|apply app_nil_r].
    destruct (live t) eqn:Hlive; [|apply app_nil_r].
    fold (added (firingCmds s t)). rewrite (added_firingCmds s t Hc).
    (* the closure is unchanged, so the firing was the completing one *)
    destruct (locations (frame t) !! i (frame t)) as [loc|] eqn:Hloc.
    + exfalso.
      rewrite (tick_advance s h t loc Ht Hlive Hloc (consistent_length _ Hc))
        in Ht'.
      unfold advanced in Ht'. cbn [timers] in Ht'.
      rewrite lookup_insert_eq in Ht'. injection Ht' as <-.
      cbn [frame] in Hfr. apply (f_equal i) in Hfr. cbn [i] in Hfr. lia.
    + unfold featuresAt. rewrite Hloc. apply app_nil_r.
  - cbn [locations i]. rewrite sessionFeatures_S.
    rewrite decide_True by reflexivity. rewrite Hlive.
    fold (added (firingCmds s t)). rewrite (added_firingCmds s t Hc).
    reflexivity.
Qed.

Lemma reachable_traced (s : State) : reachable s -> traced s.
Proof.
  induction 1 as [|ev s Hs IH].
  - intros h t Ht. discriminate.
  - apply traced_step; [apply reachable_wf; exact Hs|exact IH].
Qed.

(** *** Requests that do not overlap *)

Lemma calm_initial : calm initial.
Proof. split; cbn; intros; discriminate. Qed.

Lemma not_live (t : Timer) : live t <> true -> live t = false.
Proof. destruct (live t); congruence. Qed.

(** After a click on a page whose requests have not overlapped, no timer
    is live. *)
Lemma clicked_dead (g a b : string) (s : State) (h : nat) (t' : Timer) :
  wf s -> calm s ->
  timers (clicked g a b s) !! h = Some t' ->
  live t' = false.
Proof.
  intros Hwf Hcalm Ht'. apply not_live. intros Hlive.
  unfold clicked in Ht'. cbn [timers] in Ht'.
  destruct (truthy (animationInterval s)) eqn:Htruthy.
  - apply lookup_cleared in Ht' as (t & Ht & _ & _ & _ & Hl).
    rewrite Hlive in Hl.
    destruct (bool_decide (animationInterval s = Some h)) eqn:Hb;
      [discriminate|].
    apply bool_decide_eq_false in Hb. apply Hb.
    eapply calm_live; eauto.
  - pose proof (calm_live s Hcalm h t' Ht' Hlive) as Ha.
    pose proof (wf_handles s Hwf h t' Ht') as Hh.
    rewrite Ha in Htruthy. destruct h; [lia|discriminate].
Qed.

Lemma calm_clicked (g a b : string) (s : State) :
  wf s -> calm s ->
  (requesting (Click g a b) = true -> pending s = ∅) ->
  calm (clicked g a b s).
Proof.
  intros Hwf Hcalm Hseq.
  assert (Hdead : forall h t', timers (clicked g a b s) !! h = Some t' ->
                               live t' = false)
    by (intros h t'; apply clicked_dead; assumption).
  split.
  - unfold clicked. cbn [pending]. cbn [requesting] in Hseq.
    destruct (blank g || blank a || blank b); [apply Hcalm|].
    rewrite (Hseq eq_refl). intros c c' w w'.
    rewrite !lookup_insert, !lookup_empty.
    repeat case_decide; congruence.
  - intros h t' Ht' Hlive. rewrite (Hdead h t' Ht') in Hlive. discriminate.
  - intros c w _. split; [exact Hdead|]. split; reflexivity.
  - intros h t' Ht' Hlive. rewrite (Hdead h t' Ht') in Hlive. discriminate.
  - intros h t' Ht' Hlive. rewrite (Hdead h t' Ht') in Hlive. discriminate.
Qed.

(** A step of the handler after its first part keeps the timers, the
    source and the timeline, and the requests in flight are among those
    there were. *)
Lemma calm_handler (s s' : State) (call : nat) (cmds : list Cmd) :
  calm s ->
  animationInterval s' = animationInterval s ->
  timers s' = timers s ->
  features s' = features s ->
  timeline s' = timeline s ->
  trace s' = trace s ++ stamp (now s) (Handler call) cmds ->
  (forall c w, pending s' !! c = Some w -> is_Some (pending s !! c)) ->
  calm s'.
Proof.
  intros Hcalm Ha Hts Hfs Htl Htr Hp.
  assert (Hissued : forall h, issuedBy (TimerTask h) (trace s')
                              = issuedBy (TimerTask h) (trace s)).
  { intros h. rewrite Htr, issuedBy_app, issuedBy_stamp.
    destruct (decide _) as [Heq|_]; [discriminate Heq|apply app_nil_r]. }
  split.
  - intros c c' w w' Hc Hc'.
    destruct (Hp c w Hc) as [w0 Hw0]. destruct (Hp c' w' Hc') as [w0' Hw0'].
    eapply calm_pending; eassumption.
  - rewrite Hts, Ha. apply Hcalm.
  - intros c w Hc. destruct (Hp c w Hc) as [w0 Hw0].
    rewrite Hts, Hfs, Htl. eapply calm_waiting; eassumption.
  - rewrite Hts, Hfs, Htl. apply Hcalm.
  - intros h t. rewrite Hts, Hissued. apply Hcalm.
Qed.

Lemma calm_started (call : nat) (loc : Fix) (locs : list Fix) (s : State) :
  wf s -> calm s ->
  pending s !! call = Some AwaitJson ->
  calm (started call (loc :: locs) s).
Proof.
  intros Hwf Hcalm Hp.
  destruct (calm_waiting s Hcalm call _ Hp) as (Hdead & Hfs & Htl).
  assert (Hnew : forall h t',
             timers (started call (loc :: locs) s) !! h = Some t' ->
             live t' = true ->
             h = nextHandle s
             /\ frame t' = {| locations := loc :: locs; i := 0;
                              allCoordinates := [] |}).
  { intros h t'. unfold started. cbn [timers].
    rewrite lookup_insert. case_decide as Hh.
    - intros [= <-] _. auto.
    - intros Ht' Hlive. rewrite (Hdead h t' Ht') in Hlive. discriminate. }
  split.
  - intros c c' w w'. unfold started. cbn [pending].
    rewrite !lookup_delete. repeat case_decide; try discriminate.
    intros Hc Hc'. eapply calm_pending; eassumption.
  - intros h t' Ht' Hlive. destruct (Hnew h t' Ht' Hlive) as (-> & _).
    reflexivity.
  - intros c w. unfold started. cbn [pending].
    rewrite lookup_delete. case_decide as Hc; [discriminate|].
    intros Hw. exfalso. apply Hc.
    eapply calm_pending; eassumption.
  - intros h t' Ht' Hlive. destruct (Hnew h t' Ht' Hlive) as (_ & ->).
    unfold started. cbn [features timeline locations i].
    rewrite Hfs, Htl. split; reflexivity.
  - intros h t' Ht' Hlive. destruct (Hnew h t' Ht' Hlive) as (-> & _).
    unfold started. cbn [trace].
    rewrite issuedBy_app, issuedBy_stamp, (issuedBy_fresh s Hwf).
    destruct (decide _) as [Heq|_]; [discriminate Heq|reflexivity].
Qed.

Lemma fits_revealCmds (prev : option Coord) (loc : Fix) (z : R) :
  List.filter isFit (revealCmds prev loc z) = [].
Proof. unfold revealCmds. destruct prev; reflexivity. Qed.

Lemma calm_fired (h : nat) (s s' : State) :
  fired h s s' -> wf s -> calm s -> calm s'.
Proof.
  intros Hf Hwf Hcalm.
  destruct Hf as [Hdead|t loc Ht Hlive Hloc|t Ht Hlive Hi]; [exact Hcalm|..].
  - (* the timer reveals a fix *)
    pose proof (calm_live s Hcalm h t Ht Hlive) as Ha.
    pose proof (wf_frames s Hwf h t Ht) as Hc.
    destruct (calm_source s Hcalm h t Ht Hlive) as (Hfs & Htl).
    assert (Hone : forall k t',
               timers (advanced h t loc (N.max (now s) (due t)) s) !! k
               = Some t' ->
               live t' = true ->
               k = h
               /\ frame t' = {| locations := locations (frame t);
                                i := S (i (frame t));
                                allCoordinates :=
                                  allCoordinates (frame t)
                                    ++ [project loc] |}).
    { intros k t'. unfold advanced. cbn [timers].
      rewrite lookup_insert. case_decide as Hk.
      - intros [= <-] _. auto.
      - intros Ht' Hl. pose proof (calm_live s Hcalm k t' Ht' Hl).
        congruence. }
    split.
    + apply Hcalm.
    + intros k t' Ht' Hl. destruct (Hone k t' Ht' Hl) as (-> & _).
      exact Ha.
    + intros c w Hw. exfalso.
      destruct (calm_waiting s Hcalm c w Hw) as (Hnone & _).
      rewrite (Hnone h t Ht) in Hlive. discriminate.
    + intros k t' Ht' Hl. destruct (Hone k t' Ht' Hl) as (-> & ->).
      unfold advanced. cbn [features timeline locations i].
      rewrite Hfs, Htl, sessionFeatures_S, (take_S_r _ _ _ Hloc), map_app.
      unfold featuresAt. rewrite Hloc, (previous_consistent _ Hc).
      split; reflexivity.
    + intros k t' Ht' Hl. destruct (Hone k t' Ht' Hl) as (-> & _).
      unfold advanced. cbn [trace].
      rewrite issuedBy_app, issuedBy_stamp, List.filter_app.
      rewrite (calm_fits s Hcalm h t Ht Hlive).
      destruct (decide _) as [_|Hne]; [|reflexivity].
      apply fits_revealCmds.
  - (* the timer completes *)
    pose proof (calm_live s Hcalm h t Ht Hlive) as Ha.
    assert (Hnone : forall k t',
               timers (completed h (N.max (now s) (due t)) s) !! k = Some t' ->
               live t' = true -> False).
    { intros k t'. unfold completed. cbn [timers]. intros Ht' Hl.
      apply lookup_rescheduled in Ht' as (t1 & Ht1 & _ & _ & Hl1).
      apply lookup_cleared in Ht1 as (t0 & Ht0 & _ & _ & _ & Hl0).
      rewrite Hl in Hl1. rewrite <- Hl1 in Hl0.
      destruct (bool_decide (animationInterval s = Some k)) eqn:Hb;
        [discriminate|].
      apply bool_decide_eq_false in Hb. apply Hb.
      eapply calm_live; eauto. }
    split.
    + apply Hcalm.
    + intros k t' Ht' Hl. destruct (Hnone k t' Ht' Hl).
    + intros c w Hw. exfalso.
      destruct (calm_waiting s Hcalm c w Hw) as (Hdead & _).
      rewrite (Hdead h t Ht) in Hlive. discriminate.
    + intros k t' Ht' Hl. destruct (Hnone k t' Ht' Hl).
    + intros k t' Ht' Hl. destruct (Hnone k t' Ht' Hl).
Qed.

Lemma calm_step (ev : Event) (s : State) :
  wf s -> calm s ->
  (requesting ev = true -> pending s = ∅) ->
  calm (step ev s).
Proof.
  intros Hwf Hcalm Hseq.
  destruct (step_stepped ev s Hwf)
    as [g a b|call r Hp|call body Hp|k s' Hf|z|ms|call r Hp|call body Hp].
  - apply calm_clicked; assumption.
  - eapply (calm_handler s); [exact Hcalm|reflexivity..|].
    intros c w. unfold fetched. cbn [pending].
    destruct r as [error|[|] status].
    + rewrite lookup_delete. case_decide; [discriminate|eauto].
    + rewrite lookup_insert. case_decide; [subst; eauto|eauto].
    + rewrite lookup_delete. case_decide; [discriminate|eauto].
  - unfold parsed. destruct body as [[|loc locs]|error].
    + eapply (calm_handler s); [exact Hcalm|reflexivity..|].
      intros c w. unfold rejected. cbn [pending].
      rewrite lookup_delete. case_decide; [discriminate|eauto].
    + apply calm_started; assumption.
    + eapply (calm_handler s); [exact Hcalm|reflexivity..|].
      intros c w. unfold rejected. cbn [pending].
      rewrite lookup_delete. case_decide; [discriminate|eauto].
  - eapply calm_fired; eassumption.
  - destruct Hcalm. split; assumption.
  - destruct Hcalm. split; assumption.
  - exact Hcalm.
  - exact Hcalm.
Qed.

Lemma orderly_reachable (s : State) : orderly s -> reachable s.
Proof. induction 1; constructor; assumption. Qed.

Lemma orderly_calm (s : State) : orderly s -> calm s.
Proof.
  induction 1 as [|ev s Hs IH Hseq]; [apply calm_initial|].
  apply calm_step; [apply reachable_wf, orderly_reachable|..]; assumption.
Qed.

Lemma sequential_orderly (evs : list Event) (s : State) :
  orderly s -> sequential evs s -> orderly (run evs s).
Proof.
  revert s. induction evs as [|ev evs IH]; intros s Hs Hseq; [exact Hs|].
  destruct Hseq as [Hev Hseq]. rewrite run_cons.
  apply IH; [|exact Hseq]. constructor; assumption.
Qed.

(** *** What a waiting call has done *)

Lemma issuedBy_other (o o' : Origin) (tm : N) (cmds : list Cmd)
    (tr : list Entry) :
  o' <> o -> issuedBy o (tr ++ stamp tm o' cmds) = issuedBy o tr.
Proof.
  intros Hne. rewrite issuedBy_app, issuedBy_stamp.
  destruct (decide _) as [Heq|_]; [congruence|apply app_nil_r].
Qed.

Lemma asked_step (ev : Event) (s : State) :
  wf s -> asked s -> asked (step ev s).
Proof.
  intros Hwf Hasked.
  destruct (step_stepped ev s Hwf)
    as [g a b|call r Hp|call body Hp|k s' Hf|z|ms|call r Hp|call body Hp];
    try exact Hasked.
  - intros c w. unfold clicked. cbn [pending trace].
    destruct (blank g || blank a || blank b) eqn:Hblank.
    + intros Hc. rewrite issuedBy_other; [apply (Hasked c w Hc)|].
      apply (wf_pending s Hwf) in Hc. intros [= Heq]. lia.
    + rewrite lookup_insert. case_decide as Hnew.
      * intros _. subst c.
        rewrite issuedBy_app, issuedBy_stamp, (issuedBy_fresh_call s Hwf).
        rewrite decide_True by reflexivity.
        exists (animationInterval s), (requestUrl g a b).
        reflexivity.
      * intros Hc. rewrite issuedBy_other; [apply (Hasked c w Hc)|].
        congruence.
  - intros c w. unfold fetched. cbn [pending trace].
    destruct (decide (c = call)) as [->|Hne].
    + destruct r as [error|[|] status].
      * rewrite lookup_delete_eq. discriminate.
      * intros _. rewrite issuedBy_app, issuedBy_stamp.
        rewrite decide_True by reflexivity. rewrite app_nil_r.
        apply (Hasked call _ Hp).
      * rewrite lookup_delete_eq. discriminate.
    + intros Hc.
      assert (Hold : pending s !! c = Some w).
      { destruct r as [error|[|] status].
        - rewrite lookup_delete_ne in Hc by congruence. exact Hc.
        - rewrite lookup_insert_ne in Hc by congruence. exact Hc.
        - rewrite lookup_delete_ne in Hc by congruence. exact Hc. }
      rewrite issuedBy_other by congruence. apply (Hasked c w Hold).
  - intros c w.
    assert (Hpend : pending (parsed call body s) = delete call (pending s))
      by (unfold parsed, rejected, started;
          destruct body as [[|loc locs]|error]; reflexivity).
    assert (Htr : exists cmds,
               trace (parsed call body s)
               = trace s ++ stamp (now s) (Handler call) cmds)
      by (unfold parsed, rejected, started;
          destruct body as [[|loc locs]|error]; cbn [trace]; eauto).
    destruct Htr as (cmds & ->). rewrite Hpend.
    rewrite lookup_delete. case_decide as Hc; [discriminate|].
    intros Hw. rewrite issuedBy_other by congruence.
    apply (Hasked c w Hw).
  - destruct Hf as [Hdead|t loc Ht Hlive Hloc|t Ht Hlive Hi];
      [exact Hasked|..]; intros c w; cbn [pending advanced completed trace];
      intros Hc; (rewrite issuedBy_other by discriminate);
      apply (Hasked c w Hc).
Qed.

Lemma reachable_asked (s : State) : reachable s -> asked s.
Proof.
  induction 1 as [|ev s Hs IH].
  - intros call w Hw. discriminate.
  - apply asked_step; [apply reachable_wf; exact Hs|exact IH].
Qed.

(** ** The behaviour of the page *)

(** *** The arrow of a segment *)

(** C4: for every segment from [prev] to [curr], [createSegmentStyle]
    returns styles whose arrow icon is rotated by
    [- atan2 (curr.y - prev.y) (curr.x - prev.x) + PI / 2]; for travel
    along +x from the origin this is [PI / 2], for travel along +y it
    is [0]. *)
Theorem C4_arrow_rotation :
  (forall prev curr : Coord,
     exists styles,
       createSegmentStyle [prev; curr] = Returned styles
       /\ arrowRotation styles
          = Some (- atan2 (curr.2 - prev.2) (curr.1 - prev.1) + PI / 2))
  /\ (exists styles,
        createSegmentStyle [(0, 0); (1, 0)] = Returned styles
        /\ arrowRotation styles = Some (PI / 2))
  /\ (exists styles,
        createSegmentStyle [(0, 0); (0, 1)] = Returned styles
        /\ arrowRotation styles = Some 0).
Proof.
  split; [|split].
  - intros prev curr. eexists. split; [apply createSegmentStyle_pair|].
    apply arrowRotation_pair.
  - eexists. split; [apply createSegmentStyle_pair|].
    rewrite arrowRotation_pair. cbn [fst snd]. f_equal.
    replace (0 - 0) with 0 by lra. replace (1 - 0) with 1 by lra.
    rewrite atan2_east by lra. lra.
  - eexists. split; [apply createSegmentStyle_pair|].
    rewrite arrowRotation_pair. cbn [fst snd]. f_equal.
    replace (0 - 0) with 0 by lra. replace (1 - 0) with 1 by lra.
    rewrite atan2_north by lra. lra.
Qed.

Lemma toR_add (a b : Doubles.Double) :
  Doubles.toR (Doubles.add a b) = Doubles.toR a + Doubles.toR b.
Proof.
  unfold Doubles.add. destruct (Req_dec_T _ _) as [Heq|Hne]; [|reflexivity].
  destruct (_ && _); cbn; lra.
Qed.

Lemma toR_neg (a : Doubles.Double) :
  Doubles.toR (Doubles.neg a) = - Doubles.toR a.
Proof.
  destruct a as [|x]; cbn; [lra|].
  destruct (Req_dec_T x 0); cbn; lra.
Qed.

Lemma toR_half (a : Doubles.Double) :
  Doubles.toR (Doubles.half a) = Doubles.toR a / 2.
Proof. destruct a as [|x]; cbn; lra. Qed.

(** The difference of two equal numbers is a zero: [-0] when the first
    is [-0] and the second [+0], and [+0] otherwise. *)
Lemma sub_equal (a b : Doubles.Double) :
  Doubles.equal a b ->
  Doubles.sub a b
  = if Doubles.negDiff a b then Doubles.NegZero else Doubles.Finite 0.
Proof.
  intros Heq. unfold Doubles.sub.
  destruct (Req_dec_T _ _) as [_|Hne]; [reflexivity|].
  exfalso. apply Hne. exact Heq.
Qed.

(** On numbers other than [-0] the calculation with two zeros is the one
    with the real numbers. *)
Lemma atan2_finite (y x : R) :
  Doubles.toR (Doubles.atan2 (Doubles.Finite y) (Doubles.Finite x))
  = atan2 y x.
Proof.
  unfold Doubles.atan2, atan2. cbn [Doubles.toR Doubles.isNegZero orb].
  destruct (Req_dec_T y 0) as [->|Hy]; [|reflexivity].
  replace (0 / x) with 0 by (unfold Rdiv; ring).
  rewrite atan_0.
  destruct (Rlt_dec x 0) as [Hx|Hx]; cbn [Doubles.toR].
  - destruct (Rlt_dec 0 x); [lra|].
    destruct (Rle_dec 0 0); lra.
  - destruct (Rlt_dec 0 x); [reflexivity|].
    destruct (Rlt_dec 0 0); [lra|]. reflexivity.
Qed.

Lemma createSegmentStyle_finite (a1 a2 b1 b2 : R) :
  Doubles.createSegmentStyle
    [(Doubles.Finite a1, Doubles.Finite a2);
     (Doubles.Finite b1, Doubles.Finite b2)]
  = createSegmentStyle [(a1, a2); (b1, b2)].
Proof.
  rewrite createSegmentStyle_pair.
  unfold Doubles.createSegmentStyle, arrowStyle, Doubles.erase.
  cbn [lookup list_lookup fst snd List.app].
  rewrite !toR_half, !toR_add, toR_neg.
  assert (Hsub : forall u v,
            Doubles.sub (Doubles.Finite u) (Doubles.Finite v)
            = Doubles.Finite (u - v)).
  { intros u v. unfold Doubles.sub. cbn [Doubles.toR Doubles.isNegZero andb].
    destruct (Req_dec_T u v) as [->|_]; [|reflexivity]. f_equal. lra. }
  rewrite !Hsub, atan2_finite. reflexivity.
Qed.

(** C5, as stated, fails: for [prev = curr = (0, 0)] the arrow is not
    drawn with rotation [0]. *)
Lemma C5_degenerate_rotation_not_zero :
  ~ (exists styles,
       createSegmentStyle [(0, 0); (0, 0)] = Returned styles
       /\ arrowRotation styles = Some 0).
Proof.
  intros (styles & Hs & Hr).
  rewrite createSegmentStyle_pair in Hs. injection Hs as <-.
  rewrite arrowRotation_pair in Hr. cbn [fst snd] in Hr.
  injection Hr as Hr. replace (0 - 0) with 0 in Hr by lra.
  rewrite atan2_origin in Hr. pose proof PI_RGT_0. lra.
Qed.

(** C5, amended: for [prev == curr], the coordinates being finite, the
    calculation throws nothing, the segment is a zero-length line and its
    arrow sits on the point.  The differences [dx] and [dy] are zeros, and
    the rotation handed to the renderer is [PI / 2] when [dx] is [+0],
    as it is for identical coordinates; it is [- PI / 2] when [dx] is
    [-0] and [dy] is [+0], and [3 * PI / 2] when both are [-0].  A
    difference is [-0] when the coordinate of [curr] is [-0] and that of
    [prev] is [+0].  The rotation is never [0]; it is the one computed
    with the real numbers when [dx] is [+0], and only then. *)
Theorem C5_degenerate_segment (prev curr : Doubles.Coord) :
  Doubles.equal prev.1 curr.1 ->
  Doubles.equal prev.2 curr.2 ->
  let dxNeg := Doubles.negDiff curr.1 prev.1 in
  let dyNeg := Doubles.negDiff curr.2 prev.2 in
  let rot := Doubles.degenerateRotation dxNeg dyNeg in
  exists styles,
    Doubles.createSegmentStyle [prev; curr] = Returned styles
    /\ Doubles.erase prev = Doubles.erase curr
    /\ Doubles.sub curr.1 prev.1
       = (if dxNeg then Doubles.NegZero else Doubles.Finite 0)
    /\ Doubles.sub curr.2 prev.2
       = (if dyNeg then Doubles.NegZero else Doubles.Finite 0)
    /\ arrowMidpoint styles = Some (Doubles.erase prev)
    /\ arrowRotation styles = Some rot
    /\ rot <> 0
    /\ (prev = curr -> rot = PI / 2)
    /\ (dxNeg = false
        <-> arrowRotation
              (fstyle (segmentBetween (Doubles.erase prev)
                                      (Doubles.erase curr)))
            = Some rot).
Proof.
  intros Hx Hy dxNeg dyNeg rot.
  assert (Hdx : Doubles.sub curr.1 prev.1
                = if dxNeg then Doubles.NegZero else Doubles.Finite 0)
    by (apply sub_equal; symmetry; exact Hx).
  assert (Hdy : Doubles.sub curr.2 prev.2
                = if dyNeg then Doubles.NegZero else Doubles.Finite 0)
    by (apply sub_equal; symmetry; exact Hy).
  assert (Hangle : - Doubles.toR
                       (Doubles.atan2 (Doubles.sub curr.2 prev.2)
                                      (Doubles.sub curr.1 prev.1))
                   + PI / 2 = rot).
  { rewrite Hdx, Hdy. unfold rot, Doubles.degenerateRotation, Doubles.atan2.
    destruct dxNeg, dyNeg; cbn [Doubles.toR Doubles.isNegZero orb];
      (destruct (Req_dec_T 0 0) as [_|Hne]; [|congruence]);
      try (destruct (Rlt_dec 0 0) as [Hlt|_]; [lra|]);
      cbn [Doubles.toR]; lra. }
  assert (Hreal : arrowRotation
                    (fstyle (segmentBetween (Doubles.erase prev)
                                            (Doubles.erase curr)))
                  = Some (PI / 2)).
  { unfold segmentBetween. rewrite createSegmentStyle_pair.
    cbn [fstyle segmentFeature]. rewrite arrowRotation_pair.
    unfold Doubles.erase. cbn [fst snd].
    unfold Doubles.equal in Hx, Hy. rewrite Hx, Hy.
    replace (Doubles.toR curr.2 - Doubles.toR curr.2) with 0 by lra.
    replace (Doubles.toR curr.1 - Doubles.toR curr.1) with 0 by lra.
    rewrite atan2_origin. f_equal. lra. }
  pose proof PI_RGT_0 as Hpi.
  eexists. split; [reflexivity|].
  split.
  { unfold Doubles.erase, Doubles.equal in *. rewrite Hx, Hy. reflexivity. }
  split; [exact Hdx|]. split; [exact Hdy|].
  split.
  { cbn. unfold Doubles.erase. cbn [fst snd].
    rewrite !toR_half, !toR_add. unfold Doubles.equal in Hx, Hy.
    rewrite <- Hx, <- Hy. f_equal. apply (f_equal2 pair); lra. }
  split.
  { cbn. rewrite toR_add, toR_neg. cbn [Doubles.toR]. f_equal.
    exact Hangle. }
  split.
  { unfold rot, Doubles.degenerateRotation. destruct dxNeg, dyNeg; lra. }
  split.
  { intros ->. unfold rot, dxNeg, Doubles.negDiff.
    destruct (Doubles.isNegZero curr.1); reflexivity. }
  rewrite Hreal. unfold rot, Doubles.degenerateRotation. split.
  - intros ->. reflexivity.
  - destruct dxNeg; [|reflexivity]. intros [= Heq].
    destruct dyNeg; lra.
Qed.

(** C9: the arrow of the segment from [prev] to [curr] is placed at the
    component-wise mean of the two coordinates; from [(2, 2)] to
    [(4, 6)] that is [(3, 4)]; and when the callback reveals a fix
    after another one, the segment it adds runs between the projected
    coordinates of the two fixes and carries its arrow at their mean. *)
Theorem C9_arrow_midpoint :
  (forall prev curr : Coord,
     exists styles,
       createSegmentStyle [prev; curr] = Returned styles
       /\ arrowMidpoint styles
          = Some ((prev.1 + curr.1) / 2, (prev.2 + curr.2) / 2))
  /\ (exists styles,
        createSegmentStyle [(2, 2); (4, 6)] = Returned styles
        /\ arrowMidpoint styles = Some (3, 4))
  /\ (forall (evs : list Event) (h k : nat) (t : Timer) (a b : Fix),
        let s := run evs initial in
        timers s !! h = Some t ->
        live t = true ->
        i (frame t) = S k ->
        locations (frame t) !! k = Some a ->
        locations (frame t) !! S k = Some b ->
        let segment := segmentBetween (project a) (project b) in
        features (step (Tick h) s)
        = features s ++ [pointFeature (project b) b; segment]
        /\ fgeometry segment = Line [project a; project b]
        /\ arrowMidpoint (fstyle segment)
           = Some (((project a).1 + (project b).1) / 2,
                   ((project a).2 + (project b).2) / 2)).
Proof.
  split; [|split].
  - intros prev curr. eexists. split; [apply createSegmentStyle_pair|].
    apply arrowMidpoint_pair.
  - eexists. split; [apply createSegmentStyle_pair|].
    rewrite arrowMidpoint_pair. cbn [fst snd]. do 2 f_equal; lra.
  - intros evs h k t a b s Ht Hlive Hi Ha Hb segment.
    assert (Hwf : wf s) by (apply reachable_wf, reachable_run; constructor).
    pose proof (wf_frames s Hwf h t Ht) as Hc.
    rewrite <- Hi in Hb.
    rewrite (tick_advance s h t b Ht Hlive Hb (consistent_length _ Hc)).
    unfold advanced. cbn [features].
    rewrite (previous_consistent _ Hc), Hi. unfold prevAt. rewrite Ha.
    split; [reflexivity|]. split; [reflexivity|].
    unfold segment, segmentBetween. rewrite createSegmentStyle_pair.
    apply arrowMidpoint_pair.
Qed.

(** *** The playback loop *)

Lemma map_flat_map {A B C : Type} (g : B -> C) (f : A -> list B)
    (l : list A) :
  map g (flat_map f l) = flat_map (fun x => map g (f x)) l.
Proof.
  induction l as [|x l IH]; [reflexivity|].
  cbn [flat_map]. rewrite map_app, IH. reflexivity.
Qed.

(** C1: a playback of a non-empty list of [N] fixes that runs to its
    completing firing undisturbed adds the features of the fixes in
    index order: exactly [N] points, the point of fix [j] at position
    [j], at the projected coordinate of the fix and with its timestamp,
    and exactly [N - 1] segments, the segment at position [j] being the
    line from the coordinate of fix [j] to that of fix [j + 1].  The
    point of a fix is added before its segment, and both before the
    point of the next fix.  More generally, whatever happens on the page,
    every timer has added, in index order, the points of the [i] fixes it
    has revealed and the [i - 1] segments between them, and nothing
    else. *)
Theorem C1_playback_commands (evs : list Event) (g a b : string)
    (status : nat) (locs : list Fix) :
  complete g a b ->
  locs <> [] ->
  let s0 := run evs initial in
  let h := nextHandle s0 in
  let s := run (playback g a b status locs (nextCall s0) h
                  (S (length locs))) s0 in
  let cmds := issuedBy (TimerTask h) (trace s) in
  added cmds = flat_map (featuresAt locs) (seq 0 (length locs))
  /\ addedPoints cmds = map (fun loc => pointFeature (project loc) loc) locs
  /\ length (addedPoints cmds) = length locs
  /\ length (addedSegments cmds) = (length locs - 1)%nat
  /\ (forall j a b,
        locs !! j = Some a -> locs !! S j = Some b ->
        addedSegments cmds !! j
        = Some (segmentBetween (project a) (project b)))
  /\ map fgeometry (added cmds)
     = flat_map (geometriesAt locs) (seq 0 (length locs))
  /\ map described (addedPoints cmds) = map pointOf locs
  /\ (forall j a b,
        locs !! j = Some a -> locs !! S j = Some b ->
        described <$> addedSegments cmds !! j = Some (segmentOf a b))
  /\ (forall h' t,
        timers s0 !! h' = Some t ->
        let locs' := locations (frame t) in
        let cmds' := issuedBy (TimerTask h') (trace s0) in
        added cmds' = flat_map (featuresAt locs') (seq 0 (i (frame t)))
        /\ addedPoints cmds'
           = map (fun loc => pointFeature (project loc) loc)
                 (take (i (frame t)) locs')
        /\ length (addedSegments cmds') = (i (frame t) - 1)%nat
        /\ map fgeometry (added cmds')
           = flat_map (geometriesAt locs') (seq 0 (i (frame t)))
        /\ map described (addedPoints cmds')
           = map pointOf (take (i (frame t)) locs')
        /\ forall j a b,
             (S j < i (frame t))%nat ->
             locs' !! j = Some a -> locs' !! S j = Some b ->
             described <$> addedSegments cmds' !! j
             = Some (segmentOf a b)).
Proof.
  intros Hform Hne s0 h s cmds.
  assert (Hgeo : forall l k,
            map fgeometry (sessionFeatures l k)
            = flat_map (geometriesAt l) (seq 0 k)).
  { intros l k. unfold sessionFeatures. rewrite map_flat_map.
    apply flat_map_ext. intros j.
    unfold featuresAt, geometriesAt, revealedFeatures.
    destruct (l !! j) as [loc|]; [|reflexivity].
    destruct (prevAt l j); reflexivity. }
  assert (Hdesc : forall l,
            map described (map (fun loc => pointFeature (project loc) loc) l)
            = map pointOf l)
    by (intros l; rewrite map_map; reflexivity).
  destruct locs as [|loc rest]; [congruence|].
  assert (Hwf : wf s0) by (apply reachable_wf, reachable_run; constructor).
  assert (Hadded : added cmds
                   = sessionFeatures (loc :: rest) (length (loc :: rest))).
  { unfold cmds, s, h.
    replace (S (length (loc :: rest)))
      with (S (length (loc :: rest)) + 0)%nat by lia.
    rewrite playback_finished by exact Hform.
    rewrite (playback_issued g a b status (loc :: rest) s0 Hwf).
    unfold added. rewrite omap_app.
    change (omap addedFeature (ClearIntervalCall (Some (nextHandle s0))
              :: fitCmds (sessionFeatures (loc :: rest)
                            (length (loc :: rest)))))
      with (added (fitCmds (sessionFeatures (loc :: rest)
                              (length (loc :: rest))))).
    rewrite added_fitCmds, app_nil_r.
    rewrite <- (issuedBy_all (TimerTask (nextHandle s0)) _
                  (sessionEntries_origin _ _ _ _ _ _)).
    apply issuedBy_sessionEntries. }
  assert (Hpoints : addedPoints cmds
                    = map (fun l => pointFeature (project l) l)
                          (loc :: rest)).
  { unfold addedPoints. rewrite Hadded.
    rewrite points_sessionFeatures by lia.
    rewrite firstn_all. reflexivity. }
  destruct (segments_sessionFeatures (loc :: rest) (length (loc :: rest)))
    as [Hlen Hat]; [lia|].
  split; [exact Hadded|]. split; [exact Hpoints|].
  split; [rewrite Hpoints; apply length_map|].
  split; [unfold addedSegments; rewrite Hadded; exact Hlen|].
  split.
  { intros j a' b' Ha Hb. unfold addedSegments. rewrite Hadded.
    apply Hat; [|assumption..].
    apply lookup_lt_Some in Hb. exact Hb. }
  split; [rewrite Hadded; apply Hgeo|].
  split; [rewrite Hpoints; apply Hdesc|].
  split.
  { intros j a' b' Ha Hb. unfold addedSegments. rewrite Hadded.
    rewrite (Hat j a' b'); [reflexivity| |assumption..].
    apply lookup_lt_Some in Hb. exact Hb. }
  intros h' t Ht. cbv zeta.
  assert (Hreach : reachable s0) by (apply reachable_run; constructor).
  pose proof (reachable_traced s0 Hreach h' t Ht) as Htraced.
  destruct (wf_frames s0 Hwf h' t Ht) as (Hle & _ & _).
  destruct (segments_sessionFeatures (locations (frame t)) (i (frame t)) Hle)
    as [Hlen' Hat'].
  split; [exact Htraced|].
  unfold addedPoints, addedSegments. rewrite Htraced.
  split; [apply points_sessionFeatures; exact Hle|].
  split; [exact Hlen'|].
  split; [apply Hgeo|].
  split.
  { rewrite points_sessionFeatures by exact Hle. apply Hdesc. }
  intros j a' b' Hj Ha Hb. rewrite (Hat' j a' b' Hj Ha Hb). reflexivity.
Qed.

(** C6: in every state the page can reach and for every timer, the
    index [i] of its closure is between [0] and the number [N] of
    fixes; an event leaves [i] as it is or adds one to it, and it adds
    one exactly when it is a firing of this timer, live, with [i < N];
    that firing reads the fix at index [i], which exists; a firing
    with all fixes revealed finds [i = N] and reads nothing; no task
    ever ends in an exception; and an undisturbed playback has
    [i = k] after [k <= N] firings, so it reaches [N]. *)
Theorem C6_revealed_count (evs : list Event) (h : nat) (t : Timer) :
  let s := run evs initial in
  timers s !! h = Some t ->
  let fr := frame t in
  let N := length (locations fr) in
  (0 <= i fr <= N)%nat
  /\ (forall ev, exists t',
        timers (step ev s) !! h = Some t'
        /\ locations (frame t') = locations fr
        /\ (i fr <= i (frame t') <= S (i fr))%nat
        /\ (i (frame t') = S (i fr)
            <-> ev = Tick h /\ live t = true /\ (i fr < N)%nat))
  /\ (live t = true -> (i fr < N)%nat ->
        exists loc,
          locations fr !! i fr = Some loc
          /\ step (Tick h) s
             = advanced h t loc (N.max (now s) (due t)) s)
  /\ (live t = true -> (N <= i fr)%nat ->
        i fr = N
        /\ step (Tick h) s = completed h (N.max (now s) (due t)) s)
  /\ (forall e, In e (trace s) -> uncaught (command e) = false)
  /\ (forall g a b status locs k,
        complete g a b -> locs <> [] -> (k <= length locs)%nat ->
        exists t',
          timers (run (playback g a b status locs (nextCall s)
                         (nextHandle s) k) s) !! nextHandle s = Some t'
          /\ live t' = true
          /\ locations (frame t') = locs
          /\ i (frame t') = k).
Proof.
  intros s Ht fr N. subst fr N.
  assert (Hreach : reachable s) by (apply reachable_run; constructor).
  pose proof (reachable_wf s Hreach) as Hwf.
  pose proof (wf_frames s Hwf h t Ht) as Hc.
  pose proof Hc as (Hle & _ & _).
  assert (Hadv : live t = true ->
                 (i (frame t) < length (locations (frame t)))%nat ->
                 exists loc,
                   locations (frame t) !! i (frame t) = Some loc
                   /\ step (Tick h) s
                      = advanced h t loc (N.max (now s) (due t)) s).
  { intros Hlive Hlt.
    destruct (lookup_lt_is_Some_2 _ _ Hlt) as [loc Hloc].
    exists loc. split; [exact Hloc|].
    apply tick_advance; [assumption..|].
    apply consistent_length. exact Hc. }
  split; [lia|].
  split; [|split; [exact Hadv|split; [|split]]].
  - intros ev.
    destruct (step_timer ev s h t Hwf Ht) as (t' & Ht' & _ & Hfr).
    exists t'. split; [exact Ht'|].
    destruct Hfr as [Hfr|(loc & -> & Hlive & Hloc & Hfr)]; rewrite Hfr.
    + split; [reflexivity|]. split; [lia|].
      split; [lia|].
      intros (-> & Hlive & Hlt).
      destruct (Hadv Hlive Hlt) as (loc & _ & Hstep).
      rewrite Hstep in Ht'. unfold advanced in Ht'. cbn [timers] in Ht'.
      rewrite lookup_insert_eq in Ht'. injection Ht' as <-.
      cbn [frame] in Hfr.
      apply (f_equal i) in Hfr. cbn [i] in Hfr. lia.
    + cbn [locations i]. split; [reflexivity|]. split; [lia|].
      apply lookup_lt_Some in Hloc. tauto.
  - intros Hlive Hge. split; [lia|].
    apply tick_complete; assumption.
  - apply reachable_quiet. exact Hreach.
  - intros g a b status locs k Hform Hne Hk.
    destruct locs as [|loc rest]; [congruence|].
    rewrite playback_run by assumption.
    unfold revealedState. cbn [timers]. rewrite lookup_insert_eq.
    eexists. split; [reflexivity|]. cbn [frame live locations i]. auto.
Qed.

(** After the two overlapping requests of [raceEvents], the timer of the
    first request has revealed its two fixes and is still live; each of
    its further firings calls [clearInterval] on the handle of the other
    timer and fits the view again. *)
Lemma race_firing (m : nat) :
  let s0 := run raceEvents initial in
  let s := run (raceEvents ++ repeat (Tick 1) m) initial in
  animationInterval s = Some 2%nat
  /\ features s = features s0
  /\ (exists t,
        timers s !! 1%nat = Some t
        /\ live t = true
        /\ locations (frame t) = [fixA1; fixA2]
        /\ i (frame t) = 2%nat)
  /\ issuedBy (TimerTask 1) (trace s)
     = issuedBy (TimerTask 1) (trace s0)
         ++ concat (repeat (ClearIntervalCall (Some 2%nat)
                              :: fitCmds (features s0)) m).
Proof.
  cbv zeta. induction m as [|m IH].
  - cbn [repeat concat]. rewrite !app_nil_r.
    split; [vm_compute; reflexivity|]. split; [reflexivity|].
    split; [|reflexivity].
    eexists. split; [vm_compute; reflexivity|].
    split; [reflexivity|]. split; reflexivity.
  - destruct IH as (Ha & Hfs & (t & Ht & Hlive & Hlocs & Hi) & Hissued).
    rewrite repeat_snoc, app_assoc, run_snoc.
    set (s := run (raceEvents ++ repeat (Tick 1) m) initial) in *.
    assert (Hwf : wf s) by (apply reachable_wf, reachable_run; constructor).
    assert (Hstep : step (Tick 1) s
                    = completed 1 (N.max (now s) (due t)) s).
    { apply (tick_complete s 1 t Ht Hlive). rewrite Hlocs, Hi. cbn. lia. }
    rewrite Hstep. unfold completed at 1 2 3 4.
    cbn [animationInterval features timers trace].
    split; [exact Ha|]. split; [exact Hfs|]. split.
    + exists (rescheduled (N.max (now s) (due t)) t).
      rewrite Ha. unfold cleared.
      rewrite lookup_alter_eq, lookup_alter_ne, Ht by discriminate.
      repeat split; assumption.
    + rewrite issuedBy_app, issuedBy_stamp, Hissued, Ha, Hfs.
      rewrite decide_True by reflexivity.
      rewrite (repeat_snoc (ClearIntervalCall (Some 2%nat) :: _)).
      rewrite concat_app, <- app_assoc. cbn [concat]. rewrite app_nil_r.
      reflexivity.
Qed.

(** C8 fails on the code after overlapping requests.  The callback
    cancels the timer the page holds, not its own: the timer of the first
    request of [raceEvents] has revealed its two fixes and is never
    cancelled, and every one of its firings fits the view again, two
    times in [raceEvents] and once more for each further firing. *)
Theorem C8_completion_after_overlap (m : nat) :
  let s := run (raceEvents ++ repeat (Tick 1) m) initial in
  (exists t,
     timers s !! 1%nat = Some t
     /\ live t = true
     /\ locations (frame t) = [fixA1; fixA2]
     /\ i (frame t) = length (locations (frame t)))
  /\ animationInterval s = Some 2%nat
  /\ List.filter isCancel (issuedBy (TimerTask 1) (trace s))
     = repeat (ClearIntervalCall (Some 2%nat)) (2 + m)
  /\ length (List.filter isFit (issuedBy (TimerTask 1) (trace s)))
     = (2 + m)%nat.
Proof.
  intros s.
  destruct (race_firing m)
    as (Ha & Hfs & (t & Ht & Hlive & Hlocs & Hi) & Hissued).
  fold s in Ha, Hfs, Ht, Hissued.
  split.
  { exists t. rewrite Hlocs, Hi. repeat split; assumption. }
  split; [exact Ha|].
  rewrite Hissued, !List.filter_app.
  assert (Hcancel : forall k,
            List.filter isCancel
              (concat (repeat (ClearIntervalCall (Some 2%nat)
                                 :: fitCmds (features
                                               (run raceEvents initial))) k))
            = repeat (ClearIntervalCall (Some 2%nat)) k).
  { induction k as [|k IH]; [reflexivity|].
    cbn [repeat concat]. rewrite List.filter_app, IH.
    replace (List.filter isCancel
               (ClearIntervalCall (Some 2%nat)
                  :: fitCmds (features (run raceEvents initial))))
      with [ClearIntervalCall (Some 2%nat)] by (vm_compute; reflexivity).
    reflexivity. }
  assert (Hfit : forall k,
            length (List.filter isFit
                      (concat (repeat (ClearIntervalCall (Some 2%nat)
                                         :: fitCmds
                                              (features
                                                 (run raceEvents initial)))
                                 k)))
            = k).
  { induction k as [|k IH]; [reflexivity|].
    cbn [repeat concat]. rewrite List.filter_app, length_app, IH.
    replace (length (List.filter isFit
                       (ClearIntervalCall (Some 2%nat)
                          :: fitCmds (features (run raceEvents initial)))))
      with 1%nat by (vm_compute; reflexivity).
    reflexivity. }
  split.
  - rewrite Hcancel.
    replace (List.filter isCancel
               (issuedBy (TimerTask 1) (trace (run raceEvents initial))))
      with (repeat (ClearIntervalCall (Some 2%nat)) 2)
      by (vm_compute; reflexivity).
    rewrite <- repeat_app. reflexivity.
  - rewrite length_app, Hfit.
    replace (length (List.filter isFit
                       (issuedBy (TimerTask 1)
                          (trace (run raceEvents initial)))))
      with 2%nat by (vm_compute; reflexivity).
    reflexivity.
Qed.

(** C10 fails on the code after overlapping requests.  The list of the
    first request of [raceEvents] has [N = 2] fixes and plays to its end
    without being cancelled, but its callback does not stop after
    [N + 1] runs: it has run [N + 2] times in [raceEvents], finding every
    fix revealed in the last two of them, and it runs once more at each
    further firing. *)
Theorem C10_firing_schedule_after_overlap (m : nat) :
  let s := run (raceEvents ++ repeat (Tick 1) m) initial in
  let cmds := issuedBy (TimerTask 1) (trace s) in
  (exists t,
     timers s !! 1%nat = Some t
     /\ live t = true
     /\ length (locations (frame t)) = 2%nat
     /\ i (frame t) = 2%nat)
  /\ length (appended cmds) = 2%nat
  /\ length (List.filter isCancel cmds) = (2 + m)%nat
  /\ firings cmds = (2 + 2 + m)%nat
  /\ step (Tick 1) s <> s.
Proof.
  intros s cmds.
  destruct (race_firing m)
    as (Ha & Hfs & (t & Ht & Hlive & Hlocs & Hi) & Hissued).
  fold s in Ha, Hfs, Ht, Hissued.
  split.
  { exists t. rewrite Hlocs. repeat split; assumption. }
  assert (Happended : forall k,
            appended
              (concat (repeat (ClearIntervalCall (Some 2%nat)
                                 :: fitCmds (features
                                               (run raceEvents initial))) k))
            = []).
  { induction k as [|k IH]; [reflexivity|].
    cbn [repeat concat]. unfold appended in *. rewrite omap_app, IH.
    vm_compute. reflexivity. }
  assert (Hcancel : forall k,
            length
              (List.filter isCancel
                 (concat (repeat (ClearIntervalCall (Some 2%nat)
                                    :: fitCmds
                                         (features (run raceEvents initial)))
                            k)))
            = k).
  { induction k as [|k IH]; [reflexivity|].
    cbn [repeat concat]. rewrite List.filter_app, length_app, IH.
    replace (length (List.filter isCancel
                       (ClearIntervalCall (Some 2%nat)
                          :: fitCmds (features (run raceEvents initial)))))
      with 1%nat by (vm_compute; reflexivity).
    reflexivity. }
  assert (H1 : length (appended cmds) = 2%nat).
  { unfold cmds. rewrite Hissued. unfold appended. rewrite omap_app.
    fold (appended (concat (repeat (ClearIntervalCall (Some 2%nat)
                                      :: fitCmds
                                           (features
                                              (run raceEvents initial)))
                              m))).
    rewrite Happended, app_nil_r. vm_compute. reflexivity. }
  assert (H2 : length (List.filter isCancel cmds) = (2 + m)%nat).
  { unfold cmds. rewrite Hissued, List.filter_app, length_app, Hcancel.
    replace (length (List.filter isCancel
                       (issuedBy (TimerTask 1)
                          (trace (run raceEvents initial)))))
      with 2%nat by (vm_compute; reflexivity).
    reflexivity. }
  split; [exact H1|]. split; [exact H2|].
  split; [unfold firings; rewrite H1, H2; lia|].
  intros Heq.
  destruct (race_firing (S m)) as (_ & _ & _ & Hnext).
  cbv zeta in Hnext. fold s in Hnext.
  rewrite repeat_snoc, app_assoc, run_snoc in Hnext. fold s in Hnext.
  rewrite Heq, Hissued in Hnext.
  apply app_inv_head in Hnext.
  apply (f_equal (@length Cmd)) in Hnext.
  rewrite repeat_snoc, concat_app, length_app in Hnext.
  cbn [concat length List.app] in Hnext. lia.
Qed.

(** *** Requests and the timer the page holds *)

(** C7 fails on the code after overlapping requests.  In [staleEvents]
    the third request gets the empty array and its handler makes the
    calls of an empty result, the alert last; but the timer of the first
    request, which the click could not cancel, has revealed a fix in
    between: when the alert is shown the source holds a point and the
    timeline an item, and the timer is still live. *)
Theorem C7_empty_result_after_overlap :
  let s := run staleEvents initial in
  issuedBy (Handler 3) (trace s)
  = [ClearIntervalCall (Some 2%nat); SourceClear; TimelineClear;
     FetchCall (requestUrl "3" "2024-01-01" "2024-01-02");
     Alert "No data available for the selected criteria."]
  /\ digest (drop (length (trace (run overlapEvents initial))) (trace s))
     = [(Handler 3, Cancels (Some 2%nat)); (Handler 3, Clears);
        (TimerTask 1, Adds (Some "A1"%string))]
  /\ map described (features s) = [pointOf fixA1]
  /\ timeline s = ["Location at: A1"%string]
  /\ pending s = ∅
  /\ live <$> timers s !! 1%nat = Some true
  /\ live <$> timers s !! 2%nat = Some false.
Proof. vm_compute. repeat split; reflexivity. Qed.

(** C3: once the click handler has cancelled the timer the page holds,
    the timer is not live, a firing of it that was pending does
    nothing, and whatever events follow, however many, the cancelled
    playback makes no further call: no point, no segment, no timeline
    entry, no call on the view. *)
Theorem C3_cancelled_session_is_silent (evs evs' : list Event)
    (g a b : string) (h : nat) (t : Timer) :
  let s := run evs initial in
  animationInterval s = Some h ->
  timers s !! h = Some t ->
  live t = true ->
  let s1 := step (Click g a b) s in
  let s2 := run evs' s1 in
  (exists t1, timers s1 !! h = Some t1 /\ live t1 = false)
  /\ step (Tick h) s1 = s1
  /\ issuedBy (TimerTask h) (trace s1) = issuedBy (TimerTask h) (trace s)
  /\ issuedBy (TimerTask h) (trace s2) = issuedBy (TimerTask h) (trace s)
  /\ (exists t2, timers s2 !! h = Some t2 /\ live t2 = false
                 /\ frame t2 = frame t).
Proof.
  intros s Ha Ht Hlive s1 s2.
  assert (Hwf : wf s) by (apply reachable_wf, reachable_run; constructor).
  pose proof (wf_handles s Hwf h t Ht) as Hh.
  assert (Ht1 : timers s1 !! h = Some (stop t)).
  { unfold s1. rewrite click_step. unfold clicked. cbn [timers].
    rewrite Ha. destruct h as [|h']; [lia|]. cbn [truthy cleared].
    rewrite lookup_alter_eq, Ht. reflexivity. }
  assert (H1 : issuedBy (TimerTask h) (trace s1)
               = issuedBy (TimerTask h) (trace s)).
  { unfold s1. rewrite click_step. unfold clicked. cbn [trace].
    rewrite issuedBy_app, issuedBy_stamp.
    destruct (decide _) as [Heq|_]; [discriminate Heq|apply app_nil_r]. }
  destruct (dead_timer_silent evs' s1 h (stop t)
              (wf_step _ s Hwf) Ht1 eq_refl)
    as (t2 & Ht2 & Hl2 & Hfr2 & Hissued).
  split; [exists (stop t); split; [exact Ht1|reflexivity]|].
  split.
  { apply tick_dead. intros t' Ht'. rewrite Ht1 in Ht'.
    injection Ht' as <-. reflexivity. }
  split; [exact H1|].
  split; [unfold s2; rewrite Hissued; exact H1|].
  exists t2. split; [exact Ht2|]. split; [exact Hl2|exact Hfr2].
Qed.

(** C2 fails on the code when the second click comes while the first
    request is still in flight.  The second click cancels nothing, as
    the page holds no timer yet; both responses then start a timer and
    the page keeps the handle of the second one only.  The two timers add
    their features in turn, nothing being cleared in between; the second
    timer completes and cancels itself; the first one, on completing,
    cancels the handle of the second again, stays live, and fits the
    view at every later firing. *)
Theorem C2_overlapping_requests :
  let s := run raceEvents initial in
  digest (trace s)
  = [(Handler 1, Clears); (Handler 2, Clears);
     (Handler 1, Sets 1); (Handler 2, Sets 2);
     (TimerTask 1, Adds (Some "A1"%string));
     (TimerTask 2, Adds (Some "B1"%string));
     (TimerTask 1, Adds (Some "A2"%string));
     (TimerTask 1, Adds None);
     (TimerTask 2, Cancels (Some 2%nat)); (TimerTask 2, Fits);
     (TimerTask 1, Cancels (Some 2%nat)); (TimerTask 1, Fits);
     (TimerTask 1, Cancels (Some 2%nat)); (TimerTask 1, Fits)]
  /\ animationInterval s = Some 2%nat
  /\ live <$> timers s !! 1%nat = Some true
  /\ (locations ∘ frame) <$> timers s !! 1%nat = Some [fixA1; fixA2]
  /\ live <$> timers s !! 2%nat = Some false.
Proof.
  vm_compute. repeat split; reflexivity.
Qed.

(** ** Further properties of the page *)

(** *** The direction of the arrow *)





(** The angle of the opposite direction is half a turn away. *)
Lemma atan2_opp (y x : R) :
  (x, y) <> (0, 0) ->
  atan2 (- y) (- x) = atan2 y x + PI \/ atan2 (- y) (- x) = atan2 y x - PI.
Proof.
  intros Hne. pose proof PI_RGT_0 as Hpi.
  assert (Hq : x <> 0 -> - y / - x = y / x) by (intros; field; lra).
  unfold atan2.
  destruct (Rlt_dec 0 x) as [Hx|Hx].
  - destruct (Rlt_dec 0 (- x)); [lra|].
    destruct (Rlt_dec (- x) 0); [|lra].
    rewrite Hq by lra. destruct (Rle_dec 0 (- y)); auto.
  - destruct (Rlt_dec x 0) as [Hx'|Hx'].
    + destruct (Rlt_dec 0 (- x)); [|lra].
      rewrite Hq by lra. destruct (Rle_dec 0 y); [right|left]; ring.
    + assert (x = 0) by lra. subst x.
      destruct (Rlt_dec 0 (- 0)); [lra|].
      destruct (Rlt_dec (- 0) 0); [lra|].
      destruct (Rlt_dec 0 y), (Rlt_dec 0 (- y)); try lra.
      * destruct (Rlt_dec (- y) 0); [|lra]. right. lra.
      * destruct (Rlt_dec y 0); [left; lra|].
        exfalso. apply Hne. f_equal. lra.
      * destruct (Rlt_dec y 0); [lra|]. exfalso. apply Hne. f_equal. lra.
Qed.


(** X2: a segment travelled the other way has the same midpoint, and its
    arrow is turned by half a turn. *)
Theorem reversed_segment (prev curr : Coord) :
  prev <> curr ->
  exists styles styles' rot rot',
    createSegmentStyle [prev; curr] = Returned styles
    /\ createSegmentStyle [curr; prev] = Returned styles'
    /\ arrowRotation styles = Some rot
    /\ arrowRotation styles' = Some rot'
    /\ (rot' = rot + PI \/ rot' = rot - PI)
    /\ arrowMidpoint styles' = arrowMidpoint styles.
Proof.
  intros Hne. do 4 eexists.
  split; [apply createSegmentStyle_pair|].
  split; [apply createSegmentStyle_pair|].
  split; [apply arrowRotation_pair|].
  split; [apply arrowRotation_pair|].
  split.
  - replace (prev.2 - curr.2) with (- (curr.2 - prev.2)) by ring.
    replace (prev.1 - curr.1) with (- (curr.1 - prev.1)) by ring.
    destruct (atan2_opp (curr.2 - prev.2) (curr.1 - prev.1)) as [H|H].
    + intros Heq. apply Hne. injection Heq as H1 H2.
      destruct prev, curr. cbn in *. f_equal; lra.
    + right. rewrite H. ring.
    + left. rewrite H. ring.
  - rewrite !arrowMidpoint_pair. f_equal. apply (f_equal2 pair); lra.
Qed.

(** X3: [createSegmentStyle] reads the first two coordinates of the line and
    no others. Given fewer than two it throws; given two or more it returns
    two styles, the dashed line first. *)
Theorem createSegmentStyle_arity (geometry : LineString) :
  ((length geometry < 2)%nat
   <-> exists e, createSegmentStyle geometry = Thrown e)
  /\ (forall start end_ rest,
        geometry = start :: end_ :: rest ->
        createSegmentStyle geometry = createSegmentStyle [start; end_])
  /\ (forall styles,
        createSegmentStyle geometry = Returned styles ->
        exists arrow,
          styles = [dashStyle; arrow]
          /\ stroke arrow = None
          /\ exists mid, Geometry.geometry arrow = Some (Point mid)).
Proof.
  destruct geometry as [|start [|end_ rest]].
  - split; [split; [eauto|cbn; lia]|].
    split; [discriminate|]. discriminate.
  - split; [split; [eauto|cbn; lia]|].
    split; [discriminate|]. discriminate.
  - split.
    { split; [cbn; lia|]. intros [e He]. discriminate. }
    split.
    { intros ? ? ? [= <- <- <-]. reflexivity. }
    intros styles [= <-]. eexists. split; [reflexivity|].
    split; [reflexivity|]. eexists. reflexivity.
Qed.

(** *** Requests that start no playback *)

Lemma clicked_timer (g a b : string) (s : State) (h : nat) (t : Timer) :
  wf s ->
  timers (clicked g a b s) !! h = Some t ->
  live t = true ->
  timers s !! h = Some t /\ animationInterval s <> Some h.
Proof.
  intros Hwf Ht Hlive. unfold clicked in Ht. cbn [timers] in Ht.
  destruct (animationInterval s) as [k|] eqn:Ha.
  - destruct (wf_current s Hwf k Ha) as [ta Hta].
    pose proof (wf_handles s Hwf k ta Hta) as Hb.
    destruct k as [|k]; [lia|]. cbn [truthy cleared] in Ht.
    destruct (decide (h = S k)) as [->|Hne].
    + rewrite lookup_alter_eq, Hta in Ht. injection Ht as <-.
      discriminate Hlive.
    + rewrite lookup_alter_ne in Ht by congruence.
      split; [exact Ht|congruence].
  - cbn [truthy] in Ht. split; [exact Ht|discriminate].
Qed.

Lemma refused_idle (s : State) (call : nat) :
  pending s !! call = None ->
  (forall r, step (FetchSettled call r) s = s)
  /\ (forall body, step (JsonSettled call body) s = s).
Proof.
  intros Hp. split; intros; [apply fetch_step_idle|apply json_step_idle];
    rewrite Hp; discriminate.
Qed.

(** X4: a click on an incomplete form sends no request, but it has already
    stopped the timer the page holds and emptied the source and the
    timeline: the calls are the cancellation, the two clears and the alert,
    and the call is over. *)
Theorem incomplete_form (evs : list Event) (g a b : string) :
  blank g || blank a || blank b = true ->
  let s := run evs initial in
  let s1 := step (Click g a b) s in
  refused s s1 (nextCall s)
    ((if truthy (animationInterval s)
      then [ClearIntervalCall (animationInterval s)] else [])
       ++ [SourceClear; TimelineClear;
           Alert "Please select a group and a date range."])
  /\ pending s1 = pending s
  /\ forall h, animationInterval s = Some h ->
       exists t, timers s1 !! h = Some t /\ live t = false.
Proof.
  intros Hblank s s1.
  assert (Hwf : wf s) by (apply reachable_wf, reachable_run; constructor).
  assert (Hs1 : s1 = clicked g a b s) by apply click_step.
  clearbody s1. subst s1.
  assert (Hp : pending (clicked g a b s) = pending s).
  { unfold clicked. cbn [pending]. rewrite Hblank. reflexivity. }
  assert (Hnone : pending (clicked g a b s) !! nextCall s = None).
  { rewrite Hp. destruct (pending s !! nextCall s) as [w|] eqn:Hw;
      [|reflexivity].
    pose proof (wf_pending s Hwf _ _ Hw). lia. }
  split; [|split; [exact Hp|]].
  - unfold refused. split.
    { unfold clicked. cbn [trace].
      rewrite issuedBy_app, issuedBy_stamp, (issuedBy_fresh_call s Hwf).
      rewrite decide_True by reflexivity. rewrite Hblank. reflexivity. }
    split; [exact Hnone|].
    repeat (split; [reflexivity|]).
    split; [|apply refused_idle; exact Hnone].
    intros h t Ht Hlive.
    exact (clicked_timer g a b s h t Hwf Ht Hlive).
  - intros h Ha.
    destruct (wf_current s Hwf h Ha) as [t Ht].
    pose proof (wf_handles s Hwf h t Ht) as Hb.
    exists (stop t). split; [|reflexivity].
    unfold clicked. cbn [timers]. rewrite Ha.
    destruct h as [|h]; [lia|]. cbn [truthy cleared].
    rewrite lookup_alter_eq, Ht. reflexivity.
Qed.
(** X5: a request fails when [fetch] rejects, when the response is not
    [ok], or when its body does not parse.  Whenever that happens the
    handler logs the error it caught and alerts the user, and does
    nothing else: it sets no timer, and the timers, the handle the page
    holds, the source and the timeline are left as the settlement found
    them; the call is over.  When the requests of the run have not
    overlapped, the source and the timeline are then empty and no timer
    is live. *)
Theorem failed_request (evs : list Event) (call : nat) (ev : Event)
    (error : string) :
  let s := run evs initial in
  failing s call ev error ->
  let s' := step ev s in
  let said := [ConsoleError ("Error fetching location data: " ++ error);
               Alert "Failed to fetch location data."] in
  trace s' = trace s ++ stamp (now s) (Handler call) said
  /\ (exists a url,
        issuedBy (Handler call) (trace s')
        = (if truthy a then [ClearIntervalCall a] else [])
            ++ [SourceClear; TimelineClear; FetchCall url] ++ said)
  /\ timers s' = timers s
  /\ nextHandle s' = nextHandle s
  /\ animationInterval s' = animationInterval s
  /\ features s' = features s
  /\ timeline s' = timeline s
  /\ pending s' = delete call (pending s)
  /\ (forall r, step (FetchSettled call r) s' = s')
  /\ (forall body, step (JsonSettled call body) s' = s')
  /\ (sequential evs initial ->
      features s' = [] /\ timeline s' = []
      /\ forall h t, timers s' !! h = Some t -> live t = false).
Proof.
  intros s Hfail s' said.
  assert (Hreach : reachable s) by (apply reachable_run; constructor).
  assert (Hw : exists w, pending s !! call = Some w)
    by (destruct Hfail; eauto).
  destruct Hw as (w & Hw).
  assert (Hs' : s' = rejected call said s).
  { unfold s', said. destruct Hfail as [e Hp|status Hp|e Hp].
    - rewrite (fetch_step _ _ _ Hp). reflexivity.
    - rewrite (fetch_step _ _ _ Hp). reflexivity.
    - rewrite (json_step _ _ _ Hp). reflexivity. }
  clearbody s'. subst s'. unfold rejected at 1 2 3 4 5 6 7 8.
  cbn [trace timers nextHandle animationInterval features timeline pending].
  split; [reflexivity|]. split.
  { destruct (reachable_asked s Hreach call w Hw) as (a & url & Hissued).
    exists a, url. rewrite issuedBy_app, issuedBy_stamp, Hissued.
    rewrite decide_True by reflexivity. rewrite <- app_assoc. reflexivity. }
  do 6 (split; [reflexivity|]).
  assert (Hnone : pending (rejected call said s) !! call = None)
    by (unfold rejected; cbn [pending]; apply lookup_delete_eq).
  destruct (refused_idle _ call Hnone) as (Hfetch & Hjson).
  split; [exact Hfetch|]. split; [exact Hjson|].
  intros Hseq.
  pose proof (orderly_calm _ (sequential_orderly evs initial
                                orderly_initial Hseq)) as Hcalm.
  destruct (calm_waiting _ Hcalm call w Hw) as (Hdead & Hfs & Htl).
  auto.
Qed.

(** *** The handle the page holds *)

(** An event leaves the handle the page holds, or it is a response that
    starts a playback and the page holds the handle of the new timer. *)
Lemma step_handles (ev : Event) (s : State) :
  wf s ->
  (nextHandle (step ev s) = nextHandle s
   /\ animationInterval (step ev s) = animationInterval s
   /\ omap (fun e => setHandle (command e)) (trace (step ev s))
      = omap (fun e => setHandle (command e)) (trace s))
  \/ (nextHandle (step ev s) = S (nextHandle s)
      /\ animationInterval (step ev s) = Some (nextHandle s)
      /\ omap (fun e => setHandle (command e)) (trace (step ev s))
         = omap (fun e => setHandle (command e)) (trace s)
             ++ [nextHandle s]).
Proof.
  intros Hwf.
  destruct (step_stepped ev s Hwf)
    as [g a b|call r Hp|call body Hp|k s' Hf|z|ms|call r Hp|call body Hp].
  - left. unfold clicked. cbn [nextHandle animationInterval trace].
    repeat (split; [reflexivity|]). rewrite omap_app.
    destruct (truthy (animationInterval s)),
      (blank g || blank a || blank b); apply app_nil_r.
  - left. unfold fetched. cbn [nextHandle animationInterval trace].
    repeat (split; [reflexivity|]). rewrite omap_app.
    destruct r as [error|[|] status]; apply app_nil_r.
  - unfold parsed, rejected, started.
    destruct body as [[|loc locs]|error];
      cbn [nextHandle animationInterval trace]; [left|right|left];
      repeat (split; [reflexivity|]); rewrite omap_app;
      reflexivity || apply app_nil_r.
  - left. destruct Hf as [Hdead|t0 loc Ht0 Hlive Hloc|t0 Ht0 Hlive Hi].
    + auto.
    + unfold advanced. cbn [nextHandle animationInterval trace].
      repeat (split; [reflexivity|]). rewrite omap_app.
      unfold revealCmds. destruct (previous (frame t0)); apply app_nil_r.
    + unfold completed. cbn [nextHandle animationInterval trace].
      repeat (split; [reflexivity|]). rewrite omap_app.
      unfold fitCmds. destruct (features s); [apply app_nil_r|].
      destruct (sourceExtent _); apply app_nil_r.
  - left. auto.
  - left. auto.
  - left. auto.
  - left. auto.
Qed.

(** X6: the page holds the handle returned by the last call of
    [setInterval], from that call on: the variable is never reset, not even
    when the playback has completed or was cancelled. The handle is truthy,
    so every later click calls [clearInterval] on it. *)
Theorem held_handle_is_the_last_set (evs : list Event) :
  let s := run evs initial in
  animationInterval s = lastSet (trace s)
  /\ forall h,
       animationInterval s = Some h ->
       truthy (animationInterval s) = true
       /\ is_Some (timers s !! h)
       /\ forall g a b,
            issuedBy (Handler (nextCall s)) (trace (step (Click g a b) s))
            !! 0%nat
            = Some (ClearIntervalCall (Some h)).
Proof.
  intros s. split.
  - unfold s. clear s. induction evs as [|ev evs IH] using rev_ind.
    + reflexivity.
    + rewrite run_snoc.
      assert (Hwf : wf (run evs initial))
        by (apply reachable_wf, reachable_run; constructor).
      unfold lastSet in *.
      destruct (step_handles ev (run evs initial) Hwf)
        as [(_ & -> & ->)|(_ & -> & ->)]; [exact IH|].
      rewrite last_snoc. reflexivity.
  - intros h Ha.
    assert (Hwf : wf s) by (apply reachable_wf, reachable_run; constructor).
    destruct (wf_current s Hwf h Ha) as [t Ht].
    pose proof (wf_handles s Hwf h t Ht) as Hb.
    assert (Htruthy : truthy (animationInterval s) = true).
    { rewrite Ha. destruct h; [lia|reflexivity]. }
    split; [exact Htruthy|]. split; [eauto|].
    intros g a b. rewrite click_step. unfold clicked. cbn [trace].
    rewrite issuedBy_app, issuedBy_stamp, (issuedBy_fresh_call s Hwf).
    rewrite decide_True by reflexivity. rewrite Htruthy, Ha. reflexivity.
Qed.

(** *** Timers the page does not hold *)

Lemma step_live (ev : Event) (s : State) (h : nat) (t : Timer) :
  wf s ->
  timers s !! h = Some t ->
  live t = true ->
  animationInterval s <> Some h ->
  exists t', timers (step ev s) !! h = Some t' /\ live t' = true.
Proof.
  intros Hwf Ht Hlive Ha.
  assert (Hcleared : cleared (animationInterval s) (timers s) !! h = Some t).
  { unfold cleared. destruct (animationInterval s) as [k|]; [|exact Ht].
    rewrite lookup_alter_ne by congruence. exact Ht. }
  destruct (step_stepped ev s Hwf)
    as [g a b|call r Hp|call body Hp|k s' Hf|z|ms|call r Hp|call body Hp];
    try (exists t; split; [exact Ht|exact Hlive]).
  - exists t. split; [|exact Hlive]. unfold clicked. cbn [timers].
    destruct (truthy (animationInterval s)); assumption.
  - exists t. split; [|exact Hlive]. unfold parsed, rejected, started.
    destruct body as [[|loc locs]|error]; cbn [timers]; try exact Ht.
    rewrite lookup_insert_ne; [exact Ht|].
    pose proof (wf_handles s Hwf h t Ht). lia.
  - destruct Hf as [Hdead|t0 loc Ht0 Hlive0 Hloc|t0 Ht0 Hlive0 Hi].
    + eauto.
    + unfold advanced. cbn [timers].
      destruct (decide (k = h)) as [->|Hne].
      * rewrite lookup_insert_eq. eexists. split; [reflexivity|].
        cbn [live]. congruence.
      * rewrite lookup_insert_ne by exact Hne. eauto.
    + unfold completed. cbn [timers].
      destruct (decide (k = h)) as [->|Hne].
      * rewrite lookup_alter_eq, Hcleared. eexists.
        split; [reflexivity|exact Hlive].
      * rewrite lookup_alter_ne by exact Hne. eauto.
Qed.

Lemma leaked_step (ev : Event) (s : State) (h : nat) :
  wf s -> leaked h s -> leaked h (step ev s).
Proof.
  intros Hwf (Ha & t & Ht & Hlive). split.
  - destruct (step_handles ev s Hwf) as [(_ & -> & _)|(_ & -> & _)];
      [exact Ha|].
    pose proof (wf_handles s Hwf h t Ht). intros [= Heq]. lia.
  - exact (step_live ev s h t Hwf Ht Hlive Ha).
Qed.

Lemma leaked_run (evs : list Event) (s : State) (h : nat) :
  wf s -> leaked h s -> leaked h (run evs s).
Proof.
  revert s. induction evs as [|ev evs IH]; intros s Hwf Hl; [exact Hl|].
  rewrite run_cons. apply IH; [apply wf_step; exact Hwf|].
  apply leaked_step; assumption.
Qed.

(** X7: a live timer whose handle the page does not hold is never cancelled,
    whatever happens next: every [clearInterval] of the script is given the
    handle the page holds. Once such a timer has revealed all its fixes,
    each of its firings cancels the timer the page holds instead, and fits
    the view if the source holds a feature. *)
Theorem leaked_timer_is_never_cancelled (evs evs' : list Event) (h : nat) :
  let s := run evs initial in
  leaked h s ->
  let s' := run evs' s in
  leaked h s'
  /\ forall t',
       timers s' !! h = Some t' ->
       i (frame t') = length (locations (frame t')) ->
       let s'' := step (Tick h) s' in
       leaked h s''
       /\ issuedBy (TimerTask h) (trace s'')
          = issuedBy (TimerTask h) (trace s')
              ++ ClearIntervalCall (animationInterval s')
                   :: fitCmds (features s')
       /\ forall a,
            animationInterval s' = Some a ->
            exists ta, timers s'' !! a = Some ta /\ live ta = false.
Proof.
  intros s Hleak s'.
  assert (Hwf : wf s) by (apply reachable_wf, reachable_run; constructor).
  assert (Hwf' : wf s') by (apply reachable_wf, reachable_run, reachable_run;
                            constructor).
  pose proof (leaked_run evs' s h Hwf Hleak) as Hleak'. fold s' in Hleak'.
  split; [exact Hleak'|].
  intros t' Ht' Hi s''.
  destruct Hleak' as (Ha' & t1 & Ht1 & Hlive1).
  rewrite Ht' in Ht1. injection Ht1 as <-.
  split; [apply leaked_step; [exact Hwf'|]; split; eauto|].
  split.
  - unfold s''. rewrite (step_issued (Tick h) s' h t' Hwf' Ht').
    rewrite decide_True by reflexivity. rewrite Hlive1.
    unfold firingCmds. rewrite (proj2 (lookup_ge_None _ _)) by lia.
    reflexivity.
  - intros a Ha.
    destruct (wf_current s' Hwf' a Ha) as [ta Hta].
    exists (stop ta). split; [|reflexivity].
    unfold s''. rewrite (tick_complete s' h t' Ht' Hlive1) by lia.
    unfold completed. cbn [timers]. rewrite Ha. unfold cleared.
    rewrite lookup_alter_ne by congruence.
    rewrite lookup_alter_eq, Hta. reflexivity.
Qed.

(** *** What a timer has done, step by step *)

(** A timer of the next state has just been set, or it was there: then
    its closure is unchanged and it has made no call or those of a
    completing firing, or it has revealed one more fix. *)
Lemma step_history (ev : Event) (s : State) (h : nat) (t' : Timer) :
  wf s ->
  timers (step ev s) !! h = Some t' ->
  let before := issuedBy (TimerTask h) (trace s) in
  let after := issuedBy (TimerTask h) (trace (step ev s)) in
  (i (frame t') = 0%nat /\ after = [])
  \/ exists t,
       timers s !! h = Some t
       /\ locations (frame t') = locations (frame t)
       /\ ((i (frame t') = i (frame t)
            /\ (after = before
                \/ exists a fs,
                     after = before ++ ClearIntervalCall a :: fitCmds fs))
           \/ exists loc,
                locations (frame t) !! i (frame t) = Some loc
                /\ i (frame t') = S (i (frame t))
                /\ after
                   = before ++ revealCmds (previous (frame t)) loc (zoom s)).
Proof.
  intros Hwf Ht' before after. unfold before, after.
  destruct (step_timer_inv ev s h t' Hwf Ht')
    as [[t Ht]|(_ & Hi & _ & _ & Hnone & _)]; [right|left; auto].
  exists t. split; [exact Ht|].
  rewrite (step_issued ev s h t Hwf Ht).
  destruct (step_timer ev s h t Hwf Ht) as (t1 & Ht1 & _ & Hfr).
  rewrite Ht' in Ht1. injection Ht1 as <-.
  pose proof (wf_frames s Hwf h t Ht) as Hc.
  destruct Hfr as [Hfr|(loc & -> & Hlive & Hloc & Hfr)]; rewrite Hfr.
  - split; [reflexivity|]. left. split; [reflexivity|].
    destruct ev as [| | |k| |]; try (left; apply app_nil_r).
    destruct (decide (k = h)) as [->|_]; [|left; apply app_nil_r].
    destruct (live t) eqn:Hlive; [|left; apply app_nil_r].
    unfold firingCmds.
    destruct (locations (frame t) !! i (frame t)) as [loc|] eqn:Hloc.
    + exfalso.
      rewrite (tick_advance s h t loc Ht Hlive Hloc (consistent_length _ Hc))
        in Ht'.
      unfold advanced in Ht'. cbn [timers] in Ht'.
      rewrite lookup_insert_eq in Ht'. injection Ht' as <-.
      cbn [frame] in Hfr. apply (f_equal i) in Hfr. cbn [i] in Hfr. lia.
    + right. eauto.
  - cbn [locations i]. split; [reflexivity|]. right.
    exists loc. split; [exact Hloc|]. split; [reflexivity|].
    rewrite decide_True by reflexivity. rewrite Hlive.
    unfold firingCmds. rewrite Hloc. reflexivity.
Qed.

(** *** The timeline and the camera *)

Lemma appended_fitCmds (a : option nat) (fs : list Feature) :
  appended (ClearIntervalCall a :: fitCmds fs) = []
  /\ animations (ClearIntervalCall a :: fitCmds fs) = [].
Proof.
  unfold fitCmds. destruct fs; [split; reflexivity|].
  destruct (sourceExtent _); split; reflexivity.
Qed.

Lemma appended_revealCmds (prev : option Coord) (loc : Fix) (z : R) :
  appended (revealCmds prev loc z) = [entryText loc]
  /\ animations (revealCmds prev loc z) = [(project loc, 1000%N)].
Proof. unfold revealCmds. destruct prev; split; reflexivity. Qed.

(** X8: in every state the page can reach, and for every timer: the items
    the timer has appended to the timeline are the texts
    [Location at: timestamp] of the fixes it has revealed, in their order,
    one for each; and it has moved the view once for each of them, to the
    projected coordinate of the fix, over 1000 ms. *)
Theorem timeline_and_camera_follow (evs : list Event) (h : nat)
    (t : Timer) :
  let s := run evs initial in
  timers s !! h = Some t ->
  let cmds := issuedBy (TimerTask h) (trace s) in
  let revealed := take (i (frame t)) (locations (frame t)) in
  appended cmds = map entryText revealed
  /\ animations cmds = map (fun loc => (project loc, 1000%N)) revealed
  /\ length (appended cmds) = i (frame t).
Proof.
  intros s Ht cmds revealed.
  assert (Hboth : appended cmds = map entryText revealed
                  /\ animations cmds
                     = map (fun loc => (project loc, 1000%N)) revealed).
  { unfold cmds, revealed, s. clear cmds revealed. revert h t Ht. unfold s.
    clear s. induction evs as [|ev evs IH] using rev_ind; intros h t Ht.
    - discriminate.
    - rewrite run_snoc in Ht |- *.
      assert (Hwf : wf (run evs initial))
        by (apply reachable_wf, reachable_run; constructor).
      destruct (step_history ev _ h t Hwf Ht)
        as [(-> & ->)|(t0 & Ht0 & -> & Hcase)]; [split; reflexivity|].
      destruct (IH h t0 Ht0) as (IHa & IHc).
      destruct Hcase as [(-> & [->|(a & fs & ->)])|(loc & Hloc & -> & ->)].
      + split; assumption.
      + unfold appended, animations in *. rewrite !omap_app.
        destruct (appended_fitCmds a fs) as (Ha & Hc).
        unfold appended, animations in Ha, Hc.
        rewrite Ha, Hc, !app_nil_r. split; assumption.
      + unfold appended, animations in *. rewrite !omap_app.
        destruct (appended_revealCmds (previous (frame t0)) loc
                    (zoom (run evs initial))) as (Ha & Hc).
        unfold appended, animations in Ha, Hc.
        rewrite Ha, Hc, IHa, IHc, (take_S_r _ _ _ Hloc), !map_app.
        split; reflexivity. }
  destruct Hboth as (Ha & Hc). split; [exact Ha|]. split; [exact Hc|].
  rewrite Ha. unfold revealed. rewrite length_map, length_take.
  assert (Hwf : wf s) by (apply reachable_wf, reachable_run; constructor).
  destruct (wf_frames s Hwf h t Ht) as (Hi & _). lia.
Qed.

(** *** What the source and the timeline can hold *)

Lemma drawnFor_mono (locs : list Fix) (k k' : nat) (f : Feature) :
  (k <= k')%nat -> drawnFor locs k f -> drawnFor locs k' f.
Proof.
  intros Hk [(j & loc & Hj & H)|(j & a & b & Hj & H)]; [left|right].
  - exists j, loc. split; [lia|exact H].
  - exists j, a, b. split; [lia|exact H].
Qed.

(** What a timer has revealed it has revealed for good. *)
Lemma step_revealed (ev : Event) (s : State) (h : nat) (t : Timer) :
  wf s ->
  timers s !! h = Some t ->
  exists t',
    timers (step ev s) !! h = Some t'
    /\ locations (frame t') = locations (frame t)
    /\ (i (frame t) <= i (frame t'))%nat.
Proof.
  intros Hwf Ht.
  destruct (step_timer ev s h t Hwf Ht) as (t' & Ht' & _ & Hfr).
  exists t'. split; [exact Ht'|].
  destruct Hfr as [->|(loc & _ & _ & _ & ->)]; cbn [locations i];
    split; (reflexivity || lia).
Qed.

Lemma drawnFor_revealed (fr : Frame) (loc : Fix) (f : Feature) :
  consistent fr ->
  locations fr !! i fr = Some loc ->
  In f (revealedFeatures (previous fr) loc) ->
  drawnFor (locations fr) (S (i fr)) f.
Proof.
  intros Hc Hloc Hin. rewrite (previous_consistent fr Hc) in Hin.
  destruct Hin as [<-|Hin].
  - left. exists (i fr), loc. split; [lia|]. split; [exact Hloc|reflexivity].
  - unfold prevAt in Hin. destruct (i fr) as [|j] eqn:Hi; [destruct Hin|].
    destruct (locations fr !! j) as [a|] eqn:Ha; [|destruct Hin].
    cbn in Hin. destruct Hin as [<-|[]].
    right. exists j, a, loc. split; [lia|]. split; [exact Ha|].
    split; [exact Hloc|reflexivity].
Qed.

Lemma genuine_step (ev : Event) (s : State) :
  wf s -> genuine s -> genuine (step ev s).
Proof.
  intros Hwf (Hfs & Htl).
  pose proof (step_stepped ev s Hwf) as Hst.
  remember (step ev s) as s' eqn:Hs'.
  assert (Hkeep : forall f, In f (features s) ->
            exists h t, timers s' !! h = Some t
                        /\ drawnFor (locations (frame t)) (i (frame t)) f).
  { intros f Hin. destruct (Hfs f Hin) as (h & t & Ht & Hd).
    destruct (step_revealed ev s h t Hwf Ht) as (t' & Ht' & Hl & Hi).
    exists h, t'. rewrite Hs'. split; [exact Ht'|]. rewrite Hl.
    exact (drawnFor_mono _ _ _ f Hi Hd). }
  assert (Hkeep' : forall text, In text (timeline s) ->
            exists h t j loc, timers s' !! h = Some t
                              /\ (j < i (frame t))%nat
                              /\ locations (frame t) !! j = Some loc
                              /\ text = entryText loc).
  { intros text Hin.
    destruct (Htl text Hin) as (h & t & j & loc & Ht & Hj & Hloc & ->).
    destruct (step_revealed ev s h t Hwf Ht) as (t' & Ht' & Hl & Hi).
    exists h, t', j, loc. rewrite Hs', Hl.
    repeat split; (assumption || lia). }
  clear Hs'.
  destruct Hst
    as [g a b|call r Hp|call body Hp|k s' Hf|z|ms|call r Hp|call body Hp];
    try (split; assumption).
  - split; intros ? [].
  - split; [intros f Hin; apply Hkeep|intros text Hin; apply Hkeep'];
      revert Hin; unfold parsed, rejected, started;
      destruct body as [[|loc locs]|error]; cbn [features timeline]; auto.
  - destruct Hf as [Hdead|t0 loc Ht0 Hlive Hloc|t0 Ht0 Hlive Hi];
      try (split; assumption).
    pose proof (wf_frames s Hwf k t0 Ht0) as Hc.
    split.
    + intros f Hin. cbn [advanced features] in Hin.
      apply in_app_or in Hin as [Hin|Hin]; [auto|].
      exists k. eexists. split.
      { cbn [advanced timers]. apply lookup_insert_eq. }
      cbn [frame locations i].
      exact (drawnFor_revealed (frame t0) loc f Hc Hloc Hin).
    + intros text Hin. cbn [advanced timeline] in Hin.
      apply in_app_or in Hin as [Hin|Hin]; [auto|].
      destruct Hin as [<-|[]].
      exists k. eexists. exists (i (frame t0)), loc. split.
      { cbn [advanced timers]. apply lookup_insert_eq. }
      cbn [frame locations i]. split; [lia|]. split; [exact Hloc|reflexivity].
Qed.

Lemma reachable_genuine (s : State) : reachable s -> genuine s.
Proof.
  induction 1 as [|ev s Hs IH].
  - split; intros ? [].
  - apply genuine_step; [apply reachable_wf; exact Hs|exact IH].
Qed.

(** X9: whatever the order of events, the source holds nothing but what the
    callback has drawn: every feature is the point of a fix some timer has
    revealed or the segment between two consecutive fixes it has revealed,
    and every item of the timeline is the text written for such a fix. *)
Theorem source_holds_only_revealed_fixes (evs : list Event) (f : Feature) :
  let s := run evs initial in
  In f (features s) ->
  (exists h t,
     timers s !! h = Some t
     /\ drawnFor (locations (frame t)) (i (frame t)) f)
  /\ (isPoint f = true /\ isSegment f = false
      /\ (exists c, fgeometry f = Point c) /\ is_Some (ftimestamp f)
      \/ isPoint f = false /\ isSegment f = true
         /\ (exists p q, fgeometry f = Line [p; q]) /\ ftimestamp f = None
         /\ length (fstyle f) = 2%nat)
  /\ forall text, In text (timeline s) ->
       exists h t j loc,
         timers s !! h = Some t
         /\ (j < i (frame t))%nat
         /\ locations (frame t) !! j = Some loc
         /\ text = entryText loc.
Proof.
  intros s Hin.
  destruct (reachable_genuine s) as (Hfs & Htl);
    [apply reachable_run; constructor|].
  destruct (Hfs f Hin) as (h & t & Ht & Hd).
  split; [eauto|]. split; [|exact Htl].
  destruct Hd as [(j & loc & _ & _ & ->)|(j & a & b & _ & _ & _ & ->)].
  - left. cbn. eauto 10.
  - right. unfold segmentBetween. rewrite createSegmentStyle_pair. cbn.
    eauto 10.
Qed.

(** *** What the map and the timeline show *)

(** X10: while a playback that nothing disturbs is running, whatever
    came before it, the source holds the points of the fixes revealed so
    far, each at the projected coordinate of its fix and with its
    timestamp, and the lines from each of them to the next, in the order
    they were drawn; the timeline holds their texts, in the order of the
    fixes; after the completing firing they hold those of all the
    fixes. *)
Theorem playback_display (evs : list Event) (g a b : string)
    (status : nat) (locs : list Fix) (k : nat) :
  complete g a b ->
  locs <> [] ->
  (k <= length locs)%nat ->
  let s0 := run evs initial in
  let h := nextHandle s0 in
  let after n := run (playback g a b status locs (nextCall s0) h n) s0 in
  features (after k) = sessionFeatures locs k
  /\ List.filter isPoint (features (after k))
     = map (fun loc => pointFeature (project loc) loc) (take k locs)
  /\ length (List.filter isSegment (features (after k))) = (k - 1)%nat
  /\ timeline (after k) = map entryText (take k locs)
  /\ map fgeometry (features (after k))
     = flat_map (geometriesAt locs) (seq 0 k)
  /\ map described (List.filter isPoint (features (after k)))
     = map pointOf (take k locs)
  /\ (forall j a b,
        (S j < k)%nat ->
        locs !! j = Some a -> locs !! S j = Some b ->
        described <$> List.filter isSegment (features (after k)) !! j
        = Some (segmentOf a b))
  /\ forall m,
       features (after (S (length locs) + m)%nat)
       = sessionFeatures locs (length locs)
       /\ timeline (after (S (length locs) + m)%nat) = map entryText locs
       /\ map fgeometry (features (after (S (length locs) + m)%nat))
          = flat_map (geometriesAt locs) (seq 0 (length locs)).
Proof.
  intros Hform Hne Hk s0 h after.
  assert (Hgeo : forall n,
            map fgeometry (sessionFeatures locs n)
            = flat_map (geometriesAt locs) (seq 0 n)).
  { intros n. unfold sessionFeatures. rewrite map_flat_map.
    apply flat_map_ext. intros j.
    unfold featuresAt, geometriesAt, revealedFeatures.
    destruct (locs !! j) as [loc|]; [|reflexivity].
    destruct (prevAt locs j); reflexivity. }
  destruct locs as [|loc rest]; [congruence|].
  assert (Hfs : features (after k) = sessionFeatures (loc :: rest) k).
  { unfold after, h. rewrite playback_run by assumption. reflexivity. }
  destruct (segments_sessionFeatures (loc :: rest) k Hk) as [Hlen Hat].
  split; [exact Hfs|]. rewrite Hfs.
  split; [apply points_sessionFeatures; exact Hk|].
  split; [exact Hlen|].
  split.
  { unfold after, h. rewrite playback_run by assumption. reflexivity. }
  split; [apply Hgeo|].
  split.
  { rewrite points_sessionFeatures by exact Hk. rewrite map_map.
    reflexivity. }
  split.
  { intros j a' b' Hj Ha Hb. rewrite (Hat j a' b' Hj Ha Hb). reflexivity. }
  intros m. unfold after, h. rewrite playback_finished by assumption.
  split; [reflexivity|]. split; [reflexivity|].
  cbn [finishedState features armed requested fetched clicked List.app].
  apply Hgeo.
Qed.

(** X11: when no request is sent while another is in flight, one playback
    runs at a time. The only timer that can be live is the one the page
    holds; while it is live no request is in flight, and the source and the
    timeline show what that timer has revealed and nothing else. While a
    request is in flight it is the only one, no timer is live, and the
    source and the timeline are empty. *)
Theorem one_playback_at_a_time (evs : list Event) :
  sequential evs initial ->
  let s := run evs initial in
  (forall h, ~ leaked h s)
  /\ (forall h t,
        timers s !! h = Some t ->
        live t = true ->
        animationInterval s = Some h
        /\ pending s = ∅
        /\ features s = sessionFeatures (locations (frame t)) (i (frame t))
        /\ timeline s
           = map entryText (take (i (frame t)) (locations (frame t))))
  /\ (forall c w,
        pending s !! c = Some w ->
        (forall c', is_Some (pending s !! c') -> c' = c)
        /\ features s = []
        /\ timeline s = []
        /\ forall h t, timers s !! h = Some t -> live t = false).
Proof.
  intros Hseq s.
  pose proof (orderly_calm _ (sequential_orderly evs initial
                                orderly_initial Hseq)) as Hcalm.
  fold s in Hcalm.
  split; [|split].
  - intros h (Ha & t & Ht & Hlive).
    apply Ha. exact (calm_live s Hcalm h t Ht Hlive).
  - intros h t Ht Hlive.
    split; [exact (calm_live s Hcalm h t Ht Hlive)|].
    split; [|exact (calm_source s Hcalm h t Ht Hlive)].
    apply map_empty. intros c.
    destruct (pending s !! c) as [w|] eqn:Hw; [|reflexivity].
    destruct (calm_waiting s Hcalm c w Hw) as (Hdead & _).
    rewrite (Hdead h t Ht) in Hlive. discriminate.
  - intros c w Hw.
    destruct (calm_waiting s Hcalm c w Hw) as (Hdead & Hfs & Htl).
    split; [|auto].
    intros c' [w' Hw']. exact (calm_pending s Hcalm c' c w' w Hw' Hw).
Qed.

(** X12: on a page whose requests have not overlapped, a click silences
    every timer there is: after it none of them is live or makes a call,
    whatever follows; and the click clears the source and the timeline once. *)
Theorem click_supersedes (evs evs' : list Event) (g a b : string) :
  sequential evs initial ->
  let s := run evs initial in
  let s1 := step (Click g a b) s in
  (issuedBy (Handler (nextCall s)) (trace s1)
   = (if truthy (animationInterval s)
      then [ClearIntervalCall (animationInterval s)] else [])
       ++ [SourceClear; TimelineClear]
       ++ [if blank g || blank a || blank b
           then Alert "Please select a group and a date range."
           else FetchCall (requestUrl g a b)])
  /\ features s1 = []
  /\ timeline s1 = []
  /\ forall h t,
       timers s !! h = Some t ->
       (exists t', timers (run evs' s1) !! h = Some t' /\ live t' = false)
       /\ issuedBy (TimerTask h) (trace (run evs' s1))
          = issuedBy (TimerTask h) (trace s).
Proof.
  intros Hseq s s1.
  pose proof (sequential_orderly evs initial orderly_initial Hseq)
    as Horderly.
  fold s in Horderly.
  pose proof (orderly_calm s Horderly) as Hcalm.
  pose proof (reachable_wf s (orderly_reachable s Horderly)) as Hwf.
  assert (Hs1 : s1 = clicked g a b s) by apply click_step.
  split; [|split; [|split]].
  - rewrite Hs1. unfold clicked. cbn [trace].
    rewrite issuedBy_app, issuedBy_stamp, (issuedBy_fresh_call s Hwf).
    rewrite decide_True by reflexivity. reflexivity.
  - rewrite Hs1. reflexivity.
  - rewrite Hs1. reflexivity.
  - intros h t Ht.
    destruct (step_timer (Click g a b) s h t Hwf Ht) as (t1 & Ht1 & _).
    fold s1 in Ht1.
    assert (Hdead : live t1 = false).
    { rewrite Hs1 in Ht1. eapply clicked_dead; eassumption. }
    destruct (dead_timer_silent evs' s1 h t1 (wf_step _ s Hwf) Ht1 Hdead)
      as (t2 & Ht2 & Hl2 & _ & Hsame).
    split; [eauto|]. rewrite Hsame. unfold s1.
    rewrite (step_issued (Click g a b) s h t Hwf Ht). apply app_nil_r.
Qed.

(** *** The view at the end of a playback *)

Lemma attained_more (e : Extent) (cs cs' : list Coord) :
  attained e cs -> attained e (cs ++ cs').
Proof.
  destruct e as [[[minX minY] maxX] maxY].
  intros ((c1 & H1 & E1) & (c2 & H2 & E2) & (c3 & H3 & E3) & (c4 & H4 & E4)).
  cbn [attained].
  split; [exists c1|split; [exists c2|split; [exists c3|exists c4]]];
    (split; [apply in_or_app; left; assumption|assumption]).
Qed.

Lemma attained_extend (e : Extent) (cs : list Coord) (c : Coord) :
  attained e cs -> attained (extendCoordinate e c) (cs ++ [c]).
Proof.
  intros H. apply (attained_more _ _ [c]) in H.
  destruct e as [[[minX minY] maxX] maxY].
  destruct H as (H1 & H2 & H3 & H4).
  assert (Hc : In c (cs ++ [c])) by (apply in_or_app; right; left; reflexivity).
  cbn [extendCoordinate attained]. repeat split.
  - unfold Rmin. destruct (Rle_dec minX c.1); [exact H1|eauto].
  - unfold Rmin. destruct (Rle_dec minY c.2); [exact H2|eauto].
  - unfold Rmax. destruct (Rle_dec maxX c.1); [eauto|exact H3].
  - unfold Rmax. destruct (Rle_dec maxY c.2); [eauto|exact H4].
Qed.

Lemma attained_fold (cs seen : list Coord) (e : Extent) :
  attained e seen ->
  attained (fold_left extendCoordinate cs e) (seen ++ cs).
Proof.
  revert seen e. induction cs as [|c cs IH]; intros seen e H.
  - rewrite app_nil_r. exact H.
  - cbn [fold_left].
    replace (seen ++ c :: cs) with ((seen ++ [c]) ++ cs)
      by (rewrite <- app_assoc; reflexivity).
    apply IH, attained_extend, H.
Qed.

Lemma boundingExtent_attained (cs : list Coord) (e : Extent) :
  boundingExtent cs = Some e -> attained e cs.
Proof.
  destruct cs as [|c cs]; [discriminate|]. intros [= <-].
  apply (attained_fold cs [c]).
  repeat split; exists c; (split; [left; reflexivity|reflexivity]).
Qed.

(** X13: the view fitted at the end of a playback that nothing disturbs
    frames the whole path: the extent handed to [fit] contains the projected
    coordinate of every fix, and each of its four sides touches one. *)
Theorem fit_frames_the_path (evs : list Event) (g a b : string)
    (status : nat) (locs : list Fix) (m : nat) :
  complete g a b ->
  locs <> [] ->
  let s0 := run evs initial in
  let h := nextHandle s0 in
  let s := run (playback g a b status locs (nextCall s0) h
                  (S (length locs) + m)) s0 in
  exists e,
    List.filter isFit (issuedBy (TimerTask h) (trace s))
    = [ViewFit e [50; 50; 50; 50]%N 1000]
    /\ (forall loc, In loc locs -> covers e (project loc))
    /\ attained e (map project locs).
Proof.
  intros Hform Hne s0 h s.
  destruct locs as [|loc rest]; [congruence|].
  assert (Hwf : wf s0) by (apply reachable_wf, reachable_run; constructor).
  destruct (boundingExtent_some (map project (loc :: rest)))
    as [e He]; [discriminate|].
  exists e. split; [|split].
  - unfold s, h. rewrite playback_finished by exact Hform.
    rewrite (playback_issued g a b status (loc :: rest) s0 Hwf).
    rewrite List.filter_app, fits_sessionEntries.
    rewrite (fitCmds_extent _ e); [reflexivity|].
    rewrite sessionFeatures_extent by lia.
    rewrite firstn_all. exact He.
  - intros loc' Hin. apply (boundingExtent_covers _ e _ He).
    apply in_map. exact Hin.
  - apply boundingExtent_attained. exact He.
Qed.

(** *** The popup *)

Lemma pageRun_snoc (evs : list PageEvent) (ev : PageEvent) (pg : Page) :
  pageRun (evs ++ [ev]) pg = pageStep ev (pageRun evs pg).
Proof. unfold pageRun. rewrite fold_left_app. reflexivity. Qed.

Lemma plausible_snoc (evs : list PageEvent) (ev : PageEvent) (pg : Page) :
  plausible (evs ++ [ev]) pg
  <-> plausible evs pg /\ hits ev (pageRun evs pg).
Proof.
  revert pg. induction evs as [|ev' evs IH]; intros pg.
  - cbn. tauto.
  - cbn [List.app plausible]. rewrite IH. unfold pageRun. cbn [fold_left].
    tauto.
Qed.

Lemma pageRun_reachable (evs : list PageEvent) (html : string) :
  reachable (player (pageRun evs (loaded html))).
Proof.
  induction evs as [|ev evs IH] using rev_ind; [constructor|].
  rewrite pageRun_snoc. destruct ev as [e| |]; [|exact IH..].
  constructor. exact IH.
Qed.

(** X14: a popup that is shown is at the projected coordinate of a fix some
    timer has revealed, and its content is the timestamp of that fix inside
    the markup of the handler. *)
Theorem popup_shows_a_revealed_fix (evs : list PageEvent) (html : string) :
  plausible evs (loaded html) ->
  let pg := pageRun evs (loaded html) in
  forall c,
    position (popup pg) = Some c ->
    exists h t j loc,
      timers (player pg) !! h = Some t
      /\ (j < i (frame t))%nat
      /\ locations (frame t) !! j = Some loc
      /\ c = Single (project loc)
      /\ content (popup pg)
         = ("<p>Timestamp:</p><code>" ++ timestamp loc ++ "</code>")%string.
Proof.
  intros Hpl pg. unfold pg. clear pg. revert Hpl.
  induction evs as [|ev evs IH] using rev_ind; intros Hpl.
  - intros c Hc. discriminate.
  - apply plausible_snoc in Hpl as (Hpl & Hhit).
    specialize (IH Hpl). rewrite pageRun_snoc.
    pose proof (pageRun_reachable evs html) as Hreach.
    set (pg := pageRun evs (loaded html)) in *.
    pose proof (reachable_wf _ Hreach) as Hwf.
    destruct ev as [e|[f|]|]; intros c Hc; try discriminate.
    + destruct (IH c Hc) as (h & t & j & loc & Ht & Hj & Hloc & Hcs & Hct).
      destruct (step_revealed e (player pg) h t Hwf Ht) as (t' & Ht' & Hl & Hi).
      exists h, t', j, loc. rewrite Hl.
      split; [exact Ht'|]. split; [lia|]. auto.
    + destruct (reachable_genuine _ Hreach) as (Hfs & _).
      destruct (Hfs f Hhit) as (h & t & Ht & Hd).
      destruct Hd as [(j & loc & Hj & Hloc & ->)|(j & a & b & _ & _ & _ & ->)];
        [|discriminate Hc].
      injection Hc as <-. exists h, t, j, loc. auto.
Qed.

(** X15: a click on the map shows the popup when it finds a point, and hides
    it when it finds a segment or nothing; the closer hides it. Nothing else
    touches the popup: it stays as it is through every event of the
    playback, also through the click on the button that empties the source,
    so it can outlive the point it was opened on. *)
Theorem popup_is_changed_by_its_handlers_only (evs : list PageEvent)
    (html : string) :
  plausible evs (loaded html) ->
  let pg := pageRun evs (loaded html) in
  (forall f,
     In f (features (player pg)) ->
     let pg' := pageStep (MapClick (Some f)) pg in
     player pg' = player pg
     /\ (isPoint f = true /\ is_Some (position (popup pg'))
         \/ isSegment f = true /\ position (popup pg') = None))
  /\ position (popup (pageStep (MapClick None) pg)) = None
  /\ position (popup (pageStep CloserClick pg)) = None
  /\ (forall ev, popup (pageStep (Playing ev) pg) = popup pg)
  /\ forall g a b,
       let pg' := pageStep (Playing (Click g a b)) pg in
       features (player pg') = [] /\ position (popup pg') = position (popup pg).
Proof.
  intros Hpl pg.
  pose proof (pageRun_reachable evs html) as Hreach. fold pg in Hreach.
  split; [|split; [reflexivity|split; [reflexivity|split; [reflexivity|]]]].
  - intros f Hin pg'. split; [reflexivity|].
    destruct (reachable_genuine _ Hreach) as (Hfs & _).
    destruct (Hfs f Hin) as (h & t & Ht & Hd).
    destruct Hd as [(j & loc & _ & _ & ->)|(j & a & b & _ & _ & _ & ->)].
    + left. split; [reflexivity|]. cbn. eauto.
    + right. split; reflexivity.
  - intros g a b pg'. split; [|reflexivity].
    unfold pg'. cbn [pageStep player]. rewrite click_step. reflexivity.
Qed.

(** *** The answer to a click *)

Lemma answered_other (s s' : State) (c : nat) (tm : N) (o : Origin)
    (cmds : list Cmd) :
  o <> Handler c ->
  trace s' = trace s ++ stamp tm o cmds ->
  pending s' !! c = pending s !! c ->
  (let cmds := issuedBy (Handler c) (trace s) in
   match pending s !! c with
   | Some _ => alerts cmds = [] /\ timersSet cmds = []
   | None =>
       (exists msg, alerts cmds = [msg] /\ knownAlert msg
                    /\ timersSet cmds = [])
       \/ (alerts cmds = [] /\ exists h, timersSet cmds = [h])
   end) ->
  let cmds := issuedBy (Handler c) (trace s') in
  match pending s' !! c with
  | Some _ => alerts cmds = [] /\ timersSet cmds = []
  | None =>
      (exists msg, alerts cmds = [msg] /\ knownAlert msg
                   /\ timersSet cmds = [])
      \/ (alerts cmds = [] /\ exists h, timersSet cmds = [h])
  end.
Proof.
  intros Ho Htr Hp H. cbv zeta in *.
  rewrite Htr, Hp, (issuedBy_other _ _ _ _ _ Ho). exact H.
Qed.

Lemma answered_step (ev : Event) (s : State) :
  wf s -> answered s -> answered (step ev s).
Proof.
  intros Hwf Hans.
  pose proof (step_stepped ev s Hwf) as Hst.
  remember (step ev s) as s' eqn:Hs'. clear Hs'.
  destruct Hst
    as [g a b|call r Hp|call body Hp|k s' Hf|z|ms|call r Hp|call body Hp];
    try exact Hans.
  - intros c Hc. cbn [clicked nextCall] in Hc.
    destruct (decide (c = nextCall s)) as [->|Hne].
    + cbv zeta. unfold clicked. cbn [trace pending].
      rewrite issuedBy_app, issuedBy_stamp, (issuedBy_fresh_call s Hwf).
      rewrite decide_True by reflexivity. cbn [List.app].
      destruct (blank g || blank a || blank b).
      * assert (Hnone : pending s !! nextCall s = None).
        { destruct (pending s !! nextCall s) as [w|] eqn:Hw; [|reflexivity].
          pose proof (wf_pending s Hwf _ _ Hw). lia. }
        rewrite Hnone. left. eexists.
        destruct (truthy (animationInterval s));
          (split; [reflexivity|]; split; [left; reflexivity|reflexivity]).
      * rewrite lookup_insert_eq.
        destruct (truthy (animationInterval s)); split; reflexivity.
    + eapply (answered_other s); cycle 1.
      * reflexivity.
      * unfold clicked. cbn [pending].
        destruct (blank g || blank a || blank b); [reflexivity|].
        apply lookup_insert_ne. congruence.
      * apply Hans. lia.
      * intros [= Heq]. apply Hne. symmetry. exact Heq.
  - intros c Hc. cbn [fetched nextCall] in Hc.
    destruct (decide (c = call)) as [->|Hne].
    + specialize (Hans call Hc). cbv zeta in Hans. rewrite Hp in Hans.
      destruct Hans as (Ha & Hs).
      cbv zeta. unfold fetched. cbn [trace pending].
      rewrite issuedBy_app, issuedBy_stamp.
      rewrite decide_True by reflexivity.
      unfold alerts, timersSet in *. rewrite !omap_app, Ha, Hs.
      destruct r as [error|[|] status].
      * rewrite lookup_delete_eq. left. eexists.
        split; [reflexivity|]. split; [right; right; reflexivity|reflexivity].
      * rewrite lookup_insert_eq. split; reflexivity.
      * rewrite lookup_delete_eq. left. eexists.
        split; [reflexivity|]. split; [right; right; reflexivity|reflexivity].
    + eapply (answered_other s); cycle 1.
      * reflexivity.
      * unfold fetched. cbn [pending].
        destruct r as [error|[|] status];
          [apply lookup_delete_ne|apply lookup_insert_ne
           |apply lookup_delete_ne]; congruence.
      * apply Hans. exact Hc.
      * intros [= Heq]. apply Hne. symmetry. exact Heq.
  - intros c Hc.
    assert (Hnext : nextCall (parsed call body s) = nextCall s)
      by (unfold parsed, rejected, started;
          destruct body as [[|loc locs]|error]; reflexivity).
    rewrite Hnext in Hc.
    assert (Hpend : pending (parsed call body s) = delete call (pending s))
      by (unfold parsed, rejected, started;
          destruct body as [[|loc locs]|error]; reflexivity).
    destruct (decide (c = call)) as [->|Hne].
    + specialize (Hans call Hc). cbv zeta in Hans. rewrite Hp in Hans.
      destruct Hans as (Ha & Hs).
      cbv zeta. rewrite Hpend, lookup_delete_eq.
      unfold parsed, rejected, started.
      destruct body as [[|loc locs]|error]; cbn [trace];
        rewrite issuedBy_app, issuedBy_stamp;
        rewrite decide_True by reflexivity;
        unfold alerts, timersSet in *; rewrite !omap_app, Ha, Hs.
      * left. eexists. split; [reflexivity|].
        split; [right; left; reflexivity|reflexivity].
      * right. split; [reflexivity|]. eexists. reflexivity.
      * left. eexists. split; [reflexivity|].
        split; [right; right; reflexivity|reflexivity].
    + assert (Htr : exists cmds,
                trace (parsed call body s)
                = trace s ++ stamp (now s) (Handler call) cmds)
        by (unfold parsed, rejected, started;
            destruct body as [[|loc locs]|error]; cbn [trace]; eauto).
      destruct Htr as (cmds & Htr).
      eapply (answered_other s); cycle 1.
      * exact Htr.
      * rewrite Hpend. apply lookup_delete_ne. congruence.
      * apply Hans. exact Hc.
      * intros [= Heq]. apply Hne. symmetry. exact Heq.
  - destruct Hf as [Hdead|t0 loc Ht0 Hlive Hloc|t0 Ht0 Hlive Hi];
      [exact Hans|..]; intros c Hc;
      (eapply (answered_other s); cycle 1;
       [reflexivity|reflexivity|apply Hans; exact Hc|discriminate]).
Qed.

Lemma reachable_answered (s : State) : reachable s -> answered s.
Proof.
  induction 1 as [|ev s Hs IH].
  - intros c Hc. cbn in Hc. lia.
  - apply answered_step; [apply reachable_wf; exact Hs|exact IH].
Qed.

(** X16: every click is answered once. A call of [fetchAndDisplayPath] that
    still waits for its response has shown no alert and set no timer. A call
    that is over has either shown exactly one alert, one of the three
    messages of the script, and set no timer, or it has set exactly one
    timer and shown no alert. *)
Theorem every_click_is_answered (evs : list Event) (c : nat) :
  let s := run evs initial in
  (1 <= c < nextCall s)%nat ->
  let cmds := issuedBy (Handler c) (trace s) in
  match pending s !! c with
  | Some _ => alerts cmds = [] /\ timersSet cmds = []
  | None =>
      (exists msg, alerts cmds = [msg] /\ knownAlert msg
                   /\ timersSet cmds = [])
      \/ (alerts cmds = [] /\ exists h, timersSet cmds = [h])
  end.
Proof.
  intros s Hc. apply (reachable_answered s); [|exact Hc].
  apply reachable_run. constructor.
Qed.

(** *** Requests and playbacks that nothing disturbs *)

(** X17: when a click on a complete form is followed at once by the
    response to its request, and the response carries the empty array,
    the handler alerts that no data is available and does nothing else:
    it starts no timer, adds no point and no segment, and makes no call
    on the view; the source and the timeline are as the click cleared
    them.  More generally, whatever happened before, a call that receives
    the empty array has only cancelled, cleared, requested and alerted,
    and it changes no timer; and when the requests of the run have not
    overlapped, the source and the timeline are empty and no timer is
    live then. *)
Theorem empty_result_without_overlap (evs : list Event) (g a b : string)
    (status : nat) :
  complete g a b ->
  let s0 := run evs initial in
  let call := nextCall s0 in
  let s := run [Click g a b; FetchSettled call (Response true status);
                JsonSettled call (Returned [])] s0 in
  let cmds := requestCmds g a b s0
                ++ [Alert "No data available for the selected criteria."] in
  trace s = trace s0 ++ stamp (now s0) (Handler call) cmds
  /\ issuedBy (Handler call) (trace s) = cmds
  /\ added cmds = []
  /\ List.filter isCamera cmds = []
  /\ nextHandle s = nextHandle s0
  /\ animationInterval s = animationInterval s0
  /\ (forall h t, timers s !! h = Some t -> live t = true ->
        exists t0, timers s0 !! h = Some t0 /\ live t0 = true)
  /\ pending s !! call = None
  /\ features s = []
  /\ timeline s = []
  /\ (forall call',
        pending s0 !! call' = Some AwaitJson ->
        let s' := step (JsonSettled call' (Returned [])) s0 in
        let said := [Alert "No data available for the selected criteria."] in
        trace s' = trace s0 ++ stamp (now s0) (Handler call') said
        /\ timers s' = timers s0
        /\ nextHandle s' = nextHandle s0
        /\ animationInterval s' = animationInterval s0
        /\ (exists c url,
              issuedBy (Handler call') (trace s')
              = (if truthy c then [ClearIntervalCall c] else [])
                  ++ [SourceClear; TimelineClear; FetchCall url] ++ said)
        /\ (sequential evs initial ->
            features s' = [] /\ timeline s' = []
            /\ forall h t, timers s' !! h = Some t -> live t = false)).
Proof.
  intros Hform s0 call s cmds.
  assert (Hwf : wf s0) by (apply reachable_wf, reachable_run; constructor).
  assert (Hs : s = rejected call
                     [Alert "No data available for the selected criteria."]
                     (requested g a b status s0)).
  { unfold s, call.
    change [Click g a b; FetchSettled (nextCall s0) (Response true status);
            JsonSettled (nextCall s0) (Returned [])]
      with ([Click g a b;
             FetchSettled (nextCall s0) (Response true status)]
              ++ [JsonSettled (nextCall s0) (Returned [])]).
    rewrite run_app, request_run by exact Hform.
    unfold run. cbn [fold_left].
    apply json_step, requested_pending. }
  assert (Htrace : trace s = trace s0 ++ stamp (now s0) (Handler call) cmds).
  { rewrite Hs. unfold rejected. cbn [trace].
    rewrite requested_trace by exact Hform.
    unfold cmds, stamp. rewrite map_app, <- app_assoc. reflexivity. }
  split; [exact Htrace|].
  split.
  { rewrite Htrace, issuedBy_app, issuedBy_stamp.
    unfold call. rewrite (issuedBy_fresh_call s0 Hwf).
    destruct (decide _) as [_|Hne]; [reflexivity|congruence]. }
  split; [unfold cmds, requestCmds; destruct (truthy _); reflexivity|].
  split; [unfold cmds, requestCmds; destruct (truthy _); reflexivity|].
  rewrite Hs. unfold rejected, requested, fetched, clicked.
  cbn [nextHandle animationInterval timers pending features timeline
       nextCall].
  split; [reflexivity|]. split; [reflexivity|].
  split.
  { intros h t Ht Hlive. destruct (truthy (animationInterval s0)).
    - apply lookup_cleared in Ht as (t0 & Ht0 & _ & _ & _ & Hl).
      exists t0. split; [exact Ht0|].
      rewrite Hlive in Hl. destruct (bool_decide _); congruence.
    - eauto. }
  split; [apply lookup_delete_eq|]. split; [reflexivity|].
  split; [reflexivity|].
  intros call' Hp. cbv zeta.
  assert (Hreach : reachable s0) by (apply reachable_run; constructor).
  rewrite (json_step call' (Returned []) s0 Hp).
  unfold parsed, rejected. cbn [trace timers nextHandle animationInterval
                                 features timeline].
  repeat (split; [reflexivity|]).
  split.
  - destruct (reachable_asked s0 Hreach call' _ Hp) as (c & url & Hissued).
    exists c, url.
    rewrite issuedBy_app, issuedBy_stamp, Hissued.
    rewrite decide_True by reflexivity. rewrite <- app_assoc. reflexivity.
  - intros Hseq.
    pose proof (orderly_calm _ (sequential_orderly evs initial
                                  orderly_initial Hseq)) as Hcalm.
    destruct (calm_waiting _ Hcalm call' _ Hp) as (Hdead & Hfs & Htl).
    auto.
Qed.

(** X18: when the callback of a playback that nothing disturbs finds
    every fix revealed, its timer is cancelled, so that later firings do
    nothing, and the view is fitted exactly once, to the extent of all
    revealed coordinates, with padding 50 on each side and a duration of
    1000 ms; whenever a completing firing finds the source without
    features it fits nothing.  More generally, on a page whose requests
    have not overlapped, the firing of a live timer that has revealed all
    its fixes cancels that timer and fits the view to the extent of its
    coordinates, and whatever follows, the timer stays cancelled and
    that fit stays its only one. *)
Theorem completion_without_overlap (evs : list Event) (g a b : string)
    (status : nat) (locs : list Fix) (m : nat) :
  complete g a b ->
  locs <> [] ->
  let s0 := run evs initial in
  let h := nextHandle s0 in
  let s := run (playback g a b status locs (nextCall s0) h
                  (S (length locs) + m)) s0 in
  (exists t, timers s !! h = Some t /\ live t = false)
  /\ step (Tick h) s = s
  /\ (exists e,
        boundingExtent (map project locs) = Some e
        /\ List.filter isFit (issuedBy (TimerTask h) (trace s))
           = [ViewFit e [50; 50; 50; 50]%N 1000])
  /\ (forall (s' : State) (h' : nat) (t' : Timer),
        timers s' !! h' = Some t' ->
        live t' = true ->
        (length (locations (frame t')) <= i (frame t'))%nat ->
        features s' = [] ->
        trace (step (Tick h') s')
        = trace s' ++ stamp (N.max (now s') (due t')) (TimerTask h')
                        [ClearIntervalCall (animationInterval s')])
  /\ (sequential evs initial ->
      forall h' t',
        timers s0 !! h' = Some t' ->
        live t' = true ->
        i (frame t') = length (locations (frame t')) ->
        exists e,
          boundingExtent (map project (locations (frame t'))) = Some e
          /\ forall evs',
               let s' := run evs' (step (Tick h') s0) in
               (exists t1, timers s' !! h' = Some t1 /\ live t1 = false)
               /\ step (Tick h') s' = s'
               /\ List.filter isFit (issuedBy (TimerTask h') (trace s'))
                  = [ViewFit e [50; 50; 50; 50]%N 1000]).
Proof.
  intros Hform Hne s0 h s.
  destruct locs as [|loc rest]; [congruence|].
  assert (Hwf : wf s0) by (apply reachable_wf, reachable_run; constructor).
  assert (Hs : s = finishedState h (loc :: rest)
                     (armed (nextCall s0) (requested g a b status s0)))
    by (apply playback_finished; exact Hform).
  split; [|split; [|split; [|split]]].
  - rewrite Hs. unfold finishedState. cbn [timers].
    rewrite lookup_insert_eq. eauto.
  - rewrite Hs. apply (finished_idle h (loc :: rest) _ 1).
  - destruct (boundingExtent_some (map project (loc :: rest)))
      as [e He]; [discriminate|].
    exists e. split; [exact He|].
    rewrite Hs. unfold h.
    rewrite (playback_issued g a b status (loc :: rest) s0 Hwf).
    rewrite List.filter_app, fits_sessionEntries.
    rewrite (fitCmds_extent _ e); [reflexivity|].
    rewrite sessionFeatures_extent by lia.
    rewrite firstn_all. exact He.
  - intros s' h' t' Ht' Hlive' Hi' Hfs'.
    rewrite (tick_complete s' h' t' Ht' Hlive' Hi').
    unfold completed. cbn [trace]. rewrite Hfs'. reflexivity.
  - intros Hseq h' t' Ht' Hlive' Hi'.
    pose proof (orderly_calm _ (sequential_orderly evs initial
                                  orderly_initial Hseq)) as Hcalm.
    fold s0 in Hcalm.
    pose proof (calm_live s0 Hcalm h' t' Ht' Hlive') as Ha.
    destruct (calm_source s0 Hcalm h' t' Ht' Hlive') as (Hfs & _).
    pose proof (calm_fits s0 Hcalm h' t' Ht' Hlive') as Hfits.
    destruct (wf_frames s0 Hwf h' t' Ht') as (_ & _ & Hlocs).
    destruct (boundingExtent_some (map project (locations (frame t'))))
      as [e He].
    { destruct (locations (frame t')); [congruence|discriminate]. }
    exists e. split; [exact He|]. intros evs' s'.
    assert (Hstep : step (Tick h') s0
                    = completed h' (N.max (now s0) (due t')) s0)
      by (apply tick_complete; [assumption..|lia]).
    assert (Ht1 : timers (step (Tick h') s0) !! h'
                  = Some (rescheduled (N.max (now s0) (due t')) (stop t'))).
    { rewrite Hstep. unfold completed, cleared. cbn [timers].
      rewrite Ha, !lookup_alter_eq, Ht'. reflexivity. }
    assert (Hissued : List.filter isFit
                        (issuedBy (TimerTask h') (trace (step (Tick h') s0)))
                      = [ViewFit e [50; 50; 50; 50]%N 1000]).
    { rewrite Hstep. unfold completed. cbn [trace].
      rewrite issuedBy_app, issuedBy_stamp, List.filter_app, Hfits.
      rewrite decide_True by reflexivity.
      rewrite (fitCmds_extent _ e); [reflexivity|].
      rewrite Hfs, Hi', sessionFeatures_extent, firstn_all by lia.
      exact He. }
    destruct (dead_timer_silent evs' (step (Tick h') s0) h' _
                (wf_step _ s0 Hwf) Ht1 eq_refl)
      as (t2 & Ht2 & Hl2 & _ & Hsame).
    fold s' in Ht2, Hsame.
    split; [eauto|]. split.
    + apply tick_dead. intros t3 Ht3. congruence.
    + rewrite Hsame. exact Hissued.
Qed.

(** X19: the timer of a playback of [N >= 1] fixes that nothing disturbs
    is set with an interval of 2000 ms and its callback runs exactly
    [N + 1] times, 2000 ms apart: the firing number [k + 1], for
    [k < N], runs at [2000 * (k + 1)] ms after the start and reveals fix
    [k] and only it, drawing its point, and the line from the fix before
    it, writing its item and moving the view to it; the firing number
    [N + 1] runs at [2000 * (N + 1)] ms, one interval after the last
    point was added, and is the one that cancels the timer and fits the
    view; no later firing runs. *)
Theorem firing_schedule_undisturbed (evs : list Event) (g a b : string)
    (status : nat) (locs : list Fix) :
  complete g a b ->
  locs <> [] ->
  let s0 := run evs initial in
  let h := nextHandle s0 in
  let t0 := now s0 in
  let after k := run (playback g a b status locs (nextCall s0) h k) s0 in
  last (trace (after 0%nat))
  = Some {| time := t0; origin := Handler (nextCall s0);
            command := SetIntervalCall h 2000 |}
  /\ (forall k loc,
        locs !! k = Some loc ->
        let tm := (t0 + N.of_nat (S k) * 2000)%N in
        let cmds := revealCmds (prevAt locs k) loc (zoom s0) in
        now (after (S k)) = tm
        /\ trace (after (S k))
           = trace (after k) ++ stamp tm (TimerTask h) cmds
        /\ addedPoints cmds = [pointFeature (project loc) loc]
        /\ map fgeometry (added cmds) = geometriesAt locs k
        /\ map described (addedPoints cmds) = [pointOf loc]
        /\ appended cmds = [entryText loc]
        /\ animations cmds = [(project loc, 1000%N)])
  /\ (exists e,
        let tm := (t0 + N.of_nat (S (length locs)) * 2000)%N in
        now (after (S (length locs))) = tm
        /\ trace (after (S (length locs)))
           = trace (after (length locs))
               ++ stamp tm (TimerTask h)
                    [ClearIntervalCall (Some h);
                     ViewFit e [50; 50; 50; 50]%N 1000])
  /\ (forall m, after (S (length locs) + m)%nat = after (S (length locs))).
Proof.
  intros Hform Hne s0 h t0 after.
  destruct locs as [|loc0 rest]; [congruence|].
  set (locs := loc0 :: rest) in *.
  set (base := armed (nextCall s0) (requested g a b status s0)).
  assert (Hafter : forall k, (k <= length locs)%nat ->
                             after k = revealedState h locs k base)
    by (intros k Hk; apply playback_run; assumption).
  assert (Hdone : forall m, after (S (length locs) + m)%nat
                            = finishedState h locs base)
    by (intros m; apply playback_finished; assumption).
  split; [|split; [|split]].
  - rewrite Hafter by lia. unfold revealedState, base, armed.
    cbn [trace sessionEntries seq flat_map stamp map].
    rewrite app_nil_r, last_snoc. reflexivity.
  - intros k loc Hloc tm cmds.
    pose proof (lookup_lt_Some _ _ _ Hloc) as Hk.
    rewrite !Hafter by lia.
    unfold revealedState. cbn [now trace].
    split; [reflexivity|]. split.
    { rewrite sessionEntries_S, app_assoc. f_equal.
      unfold entriesAt. rewrite Hloc. unfold cmds, tm.
      replace (now base + 2000 + N.of_nat k * 2000)%N
        with (t0 + N.of_nat (S k) * 2000)%N by (cbn; lia).
      reflexivity. }
    split; [apply addedPoints_revealCmds|].
    split.
    { unfold cmds, revealCmds, geometriesAt. rewrite Hloc.
      destruct (prevAt locs k); reflexivity. }
    split; [unfold cmds; rewrite addedPoints_revealCmds; reflexivity|].
    apply appended_revealCmds.
  - destruct (boundingExtent_some (map project locs)) as [e He];
      [discriminate|].
    exists e. intros tm.
    replace (S (length locs)) with (S (length locs) + 0)%nat by lia.
    rewrite Hdone, Hafter by lia.
    unfold finishedState, revealedState. cbn [now trace].
    split; [reflexivity|].
    rewrite app_assoc. do 3 f_equal.
    apply fitCmds_extent.
    change (features base) with (@nil Feature). cbn [app].
    rewrite sessionFeatures_extent by lia.
    rewrite firstn_all. exact He.
  - intros m. rewrite Hdone.
    replace (S (length locs)) with (S (length locs) + 0)%nat by lia.
    rewrite Hdone. reflexivity.
Qed.

End Playback.

(** ** The theorems at concrete inputs

    The runs below use the equirectangular projection, which leaves a
    longitude and latitude pair as it is. *)

Lemma C1_witness :
  complete "1" "2024-01-01" "2024-01-02"
  /\ [fixA1; fixA2] <> []
  /\ let cmds := issuedBy (TimerTask 1)
                   (trace (run plateCarree
                             (playback "1" "2024-01-01" "2024-01-02" 200
                                [fixA1; fixA2] 1 1 3) initial)) in
     map fgeometry (added cmds)
     = [Point (77, 28); Point (78, 29); Line [(77, 28); (78, 29)]]
     /\ map described (addedPoints cmds)
        = [(Point (77, 28), Some "A1", "point");
           (Point (78, 29), Some "A2", "point")]%string
     /\ described <$> addedSegments cmds !! 0%nat
        = Some (Line [(77, 28); (78, 29)], None, "path-segment"%string)
     /\ length (addedSegments cmds) = 1%nat.
Proof.
  assert (Hform : complete "1" "2024-01-01" "2024-01-02")
    by (repeat split; reflexivity).
  assert (Hne : [fixA1; fixA2] <> []) by discriminate.
  split; [exact Hform|]. split; [exact Hne|].
  pose proof (C1_playback_commands plateCarree [] "1" "2024-01-01"
                "2024-01-02" 200 [fixA1; fixA2] Hform Hne) as H.
  cbv zeta in H.
  destruct H as (_ & _ & _ & Hlen & _ & Hgeo & Hpts & Hseg & _).
  split; [exact Hgeo|]. split; [exact Hpts|].
  split; [exact (Hseg 0%nat fixA1 fixA2 eq_refl eq_refl)|exact Hlen].
Defined.

Lemma C3_witness :
  let s := run plateCarree startedEvents initial in
  let s1 := step plateCarree form2 s in
  animationInterval s = Some 1%nat
  /\ live <$> timers s !! 1%nat = Some true
  /\ step plateCarree (Tick 1) s1 = s1
  /\ issuedBy (TimerTask 1) (trace (run plateCarree laterEvents s1))
     = issuedBy (TimerTask 1) (trace s).
Proof.
  cbv zeta.
  assert (Ha : animationInterval (run plateCarree startedEvents initial)
               = Some 1%nat) by (vm_compute; reflexivity).
  assert (Ht : timers (run plateCarree startedEvents initial) !! 1%nat
               = Some {| frame := {| locations := [fixA1; fixA2]; i := 1;
                                     allCoordinates :=
                                       [project plateCarree fixA1] |};
                         period := 2000; due := 4000; live := true |})
    by (vm_compute; reflexivity).
  split; [exact Ha|]. split; [rewrite Ht; reflexivity|].
  pose proof (C3_cancelled_session_is_silent plateCarree startedEvents
                laterEvents "2" "2024-01-01" "2024-01-02" 1 _ Ha Ht eq_refl)
    as H.
  cbv zeta in H. destruct H as (_ & Hpending & _ & Hsilent & _).
  split; [exact Hpending|exact Hsilent].
Defined.

Lemma C5_witness :
  let prev := (Doubles.Finite 0, Doubles.Finite 5) in
  let curr := (Doubles.NegZero, Doubles.Finite 5) in
  Doubles.equal prev.1 curr.1
  /\ Doubles.equal prev.2 curr.2
  /\ exists styles,
       Doubles.createSegmentStyle [prev; curr] = Returned styles
       /\ arrowRotation styles = Some (- (PI / 2)).
Proof.
  cbv zeta.
  assert (Hx : Doubles.equal (Doubles.Finite 0) Doubles.NegZero)
    by reflexivity.
  assert (Hy : Doubles.equal (Doubles.Finite 5) (Doubles.Finite 5))
    by reflexivity.
  split; [exact Hx|]. split; [exact Hy|].
  destruct (C5_degenerate_segment (Doubles.Finite 0, Doubles.Finite 5)
              (Doubles.NegZero, Doubles.Finite 5) Hx Hy)
    as (styles & Hs & _ & _ & _ & _ & Hr & _).
  exists styles. split; [exact Hs|exact Hr].
Defined.

Lemma C6_witness :
  let s := run plateCarree startedEvents initial in
  (i ∘ frame) <$> timers s !! 1%nat = Some 1%nat
  /\ (i ∘ frame) <$> timers (step plateCarree (Tick 1) s) !! 1%nat
     = Some 2%nat
  /\ forall e, In e (trace s) -> uncaught (command e) = false.
Proof.
  cbv zeta.
  assert (Ht : timers (run plateCarree startedEvents initial) !! 1%nat
               = Some {| frame := {| locations := [fixA1; fixA2]; i := 1;
                                     allCoordinates :=
                                       [project plateCarree fixA1] |};
                         period := 2000; due := 4000; live := true |})
    by (vm_compute; reflexivity).
  pose proof (C6_revealed_count plateCarree startedEvents 1 _ Ht) as H.
  cbv zeta in H. destruct H as (_ & _ & Hadv & _ & Hquiet & _).
  split; [rewrite Ht; reflexivity|]. split; [|exact Hquiet].
  destruct Hadv as (loc & _ & ->); [reflexivity|cbn; lia|].
  unfold advanced. cbn [timers]. rewrite lookup_insert_eq. reflexivity.
Defined.

Lemma empty_result_witness :
  complete "1" "2024-01-01" "2024-01-02"
  /\ let s := run plateCarree
                [form1; FetchSettled 1 (Response true 200);
                 JsonSettled 1 (Returned [])] initial in
     issuedBy (Handler 1) (trace s)
     = [SourceClear; TimelineClear;
        FetchCall (requestUrl "1" "2024-01-01" "2024-01-02");
        Alert "No data available for the selected criteria."]
     /\ nextHandle s = 1%nat
     /\ features s = []
     /\ timeline s = [].
Proof.
  assert (Hform : complete "1" "2024-01-01" "2024-01-02")
    by (repeat split; reflexivity).
  split; [exact Hform|].
  pose proof (empty_result_without_overlap plateCarree [] "1" "2024-01-01"
                "2024-01-02" 200 Hform) as H.
  cbv zeta in H.
  destruct H as (_ & Hissued & _ & _ & Hnext & _ & _ & _ & Hfs & Htl & _).
  cbv zeta. split; [exact Hissued|]. split; [exact Hnext|].
  split; [exact Hfs|exact Htl].
Defined.

Lemma completion_witness :
  complete "1" "2024-01-01" "2024-01-02"
  /\ [fixA1; fixA2] <> []
  /\ let s := run plateCarree
                (playback "1" "2024-01-01" "2024-01-02" 200 [fixA1; fixA2]
                   1 1 (3 + 4)) initial in
     live <$> timers s !! 1%nat = Some false
     /\ List.filter isFit (issuedBy (TimerTask 1) (trace s))
        = [ViewFit (77, 28, 78, 29) [50; 50; 50; 50]%N 1000].
Proof.
  assert (Hform : complete "1" "2024-01-01" "2024-01-02")
    by (repeat split; reflexivity).
  assert (Hne : [fixA1; fixA2] <> []) by discriminate.
  split; [exact Hform|]. split; [exact Hne|].
  pose proof (completion_without_overlap plateCarree [] "1" "2024-01-01"
                "2024-01-02"
                200 [fixA1; fixA2] 4 Hform Hne) as H.
  cbv zeta in H. destruct H as ((t & Ht & Hl) & _ & (e & He & Hfit) & _).
  assert (Hext : e = (77, 28, 78, 29)).
  { cbn in He. injection He as <-.
    unfold plateCarree. cbn [fst snd].
    rewrite Rmin_left, Rmax_right by lra.
    rewrite Rmin_left, Rmax_right by lra. reflexivity. }
  subst e. cbv zeta. split; [|exact Hfit].
  transitivity (live <$> Some t); [exact (f_equal (fmap live) Ht)|].
  cbn. rewrite Hl. reflexivity.
Defined.

Lemma C9_witness :
  let s := run plateCarree startedEvents initial in
  let segment := segmentBetween (project plateCarree fixA1)
                                (project plateCarree fixA2) in
  features (step plateCarree (Tick 1) s)
  = features s ++ [pointFeature (project plateCarree fixA2) fixA2; segment]
  /\ arrowMidpoint (fstyle segment) = Some ((77 + 78) / 2, (28 + 29) / 2).
Proof.
  cbv zeta.
  assert (Ht : timers (run plateCarree startedEvents initial) !! 1%nat
               = Some {| frame := {| locations := [fixA1; fixA2]; i := 1;
                                     allCoordinates :=
                                       [project plateCarree fixA1] |};
                         period := 2000; due := 4000; live := true |})
    by (vm_compute; reflexivity).
  destruct (C9_arrow_midpoint plateCarree) as (_ & _ & H).
  specialize (H startedEvents 1%nat 0%nat _ fixA1 fixA2 Ht eq_refl eq_refl
                eq_refl eq_refl).
  cbv zeta in H. destruct H as (Hfs & _ & Hmid).
  split; [exact Hfs|exact Hmid].
Defined.

Lemma firing_schedule_witness :
  complete "1" "2024-01-01" "2024-01-02"
  /\ [fixA1; fixA2] <> []
  /\ let after k := run plateCarree
                      (playback "1" "2024-01-01" "2024-01-02" 200
                         [fixA1; fixA2] 1 1 k) initial in
     now (after 1%nat) = 2000%N
     /\ now (after 2%nat) = 4000%N
     /\ now (after 3%nat) = 6000%N
     /\ after 7%nat = after 3%nat.
Proof.
  assert (Hform : complete "1" "2024-01-01" "2024-01-02")
    by (repeat split; reflexivity).
  assert (Hne : [fixA1; fixA2] <> []) by discriminate.
  split; [exact Hform|]. split; [exact Hne|].
  pose proof (firing_schedule_undisturbed plateCarree [] "1" "2024-01-01"
                "2024-01-02" 200 [fixA1; fixA2] Hform Hne) as H.
  cbv zeta in H. destruct H as (_ & Hreveal & (e & Hdone & _) & Hidle).
  cbv zeta.
  split; [exact (proj1 (Hreveal 0%nat fixA1 eq_refl))|].
  split; [exact (proj1 (Hreveal 1%nat fixA2 eq_refl))|].
  split; [exact Hdone|exact (Hidle 4%nat)].
Defined.

Lemma reversed_segment_witness :
  exists styles styles' rot rot',
    createSegmentStyle [(0, 0); (1, 0)] = Returned styles
    /\ createSegmentStyle [(1, 0); (0, 0)] = Returned styles'
    /\ arrowRotation styles = Some rot
    /\ arrowRotation styles' = Some rot'
    /\ (rot' = rot + PI \/ rot' = rot - PI)
    /\ arrowMidpoint styles' = arrowMidpoint styles.
Proof.
  apply (reversed_segment (0, 0) (1, 0)). intros [= H]. lra.
Defined.

Lemma incomplete_form_witness :
  let s := run plateCarree startedEvents initial in
  let s1 := step plateCarree (Click "1" "" "2024-01-02") s in
  issuedBy (Handler 2) (trace s1)
  = [ClearIntervalCall (Some 1%nat); SourceClear; TimelineClear;
     Alert "Please select a group and a date range."]
  /\ features s1 = []
  /\ pending s1 = pending s
  /\ live <$> timers s1 !! 1%nat = Some false.
Proof.
  pose proof (incomplete_form plateCarree startedEvents "1" ""
                "2024-01-02" eq_refl) as H.
  cbv zeta in H. destruct H as ((Hissued & _ & _ & _ & Hfs & _) & Hp & Hdead).
  cbv zeta. split; [exact Hissued|]. split; [exact Hfs|].
  split; [exact Hp|].
  destruct (Hdead 1%nat) as (t & Ht & Hl); [vm_compute; reflexivity|].
  rewrite Ht. cbn [fmap option_fmap option_map]. rewrite Hl. reflexivity.
Defined.

Lemma failed_request_witness :
  let s := run plateCarree [form1] initial in
  let ev := FetchSettled 1 (Response false 404) in
  let s' := step plateCarree ev s in
  failing s 1 ev "Error: HTTP error! status: 404"
  /\ trace s'
     = trace s
         ++ stamp 0 (Handler 1)
              [ConsoleError
                 "Error fetching location data: Error: HTTP error! status: 404";
               Alert "Failed to fetch location data."]
  /\ nextHandle s' = nextHandle s
  /\ features s' = features s
  /\ pending s' = delete 1%nat (pending s).
Proof.
  cbv zeta.
  assert (Hp : pending (run plateCarree [form1] initial) !! 1%nat
               = Some AwaitFetch) by (vm_compute; reflexivity).
  pose proof (failing_status _ 1 404 Hp) as Hfail.
  split; [exact Hfail|].
  pose proof (failed_request plateCarree [form1] 1 _ _ Hfail) as H.
  cbv zeta in H.
  destruct H as (Htr & _ & _ & Hnext & _ & Hfs & _ & Hpend & _).
  split; [exact Htr|]. split; [exact Hnext|]. split; [exact Hfs|exact Hpend].
Defined.

Lemma leaked_timer_witness :
  let s := run plateCarree overlapEvents initial in
  leaked 1 s
  /\ leaked 1 (run plateCarree [Tick 2; Tick 2; form2; Tick 1; Tick 1] s).
Proof.
  cbv zeta.
  assert (Hleak : leaked 1 (run plateCarree overlapEvents initial)).
  { split; [intros H; vm_compute in H; discriminate H|].
    eexists. split; vm_compute; reflexivity. }
  split; [exact Hleak|].
  exact (proj1 (leaked_timer_is_never_cancelled plateCarree overlapEvents
                  [Tick 2; Tick 2; form2; Tick 1; Tick 1] 1 Hleak)).
Defined.

Lemma timeline_and_camera_witness :
  let s := run plateCarree (startedEvents ++ [Tick 1]) initial in
  appended (issuedBy (TimerTask 1) (trace s))
  = ["Location at: A1"; "Location at: A2"]%string
  /\ animations (issuedBy (TimerTask 1) (trace s))
     = [((77, 28), 1000%N); ((78, 29), 1000%N)].
Proof.
  cbv zeta.
  assert (Ht : timers (run plateCarree (startedEvents ++ [Tick 1]) initial)
               !! 1%nat
               = Some {| frame := {| locations := [fixA1; fixA2]; i := 2;
                                     allCoordinates :=
                                       [project plateCarree fixA1;
                                        project plateCarree fixA2] |};
                         period := 2000; due := 6000; live := true |})
    by (vm_compute; reflexivity).
  pose proof (timeline_and_camera_follow plateCarree
                (startedEvents ++ [Tick 1]) 1 _ Ht) as H.
  cbv zeta in H. destruct H as (Ha & Hc & _).
  split; [exact Ha|exact Hc].
Defined.

Lemma source_holds_witness :
  let s := run plateCarree startedEvents initial in
  let f := pointFeature (project plateCarree fixA1) fixA1 in
  In f (features s)
  /\ exists h t,
       timers s !! h = Some t
       /\ drawnFor plateCarree (locations (frame t)) (i (frame t)) f.
Proof.
  cbv zeta.
  assert (Hin : In (pointFeature (project plateCarree fixA1) fixA1)
                   (features (run plateCarree startedEvents initial)))
    by (vm_compute; left; reflexivity).
  split; [exact Hin|].
  exact (proj1 (source_holds_only_revealed_fixes plateCarree startedEvents
                  _ Hin)).
Defined.

Lemma playback_display_witness :
  complete "1" "2024-01-01" "2024-01-02"
  /\ let s := run plateCarree
                (playback "1" "2024-01-01" "2024-01-02" 200
                   [fixA1; fixA2] 1 1 2) initial in
     map fgeometry (features s)
     = [Point (77, 28); Point (78, 29); Line [(77, 28); (78, 29)]]
     /\ map described (List.filter isPoint (features s))
        = [(Point (77, 28), Some "A1", "point");
           (Point (78, 29), Some "A2", "point")]%string
     /\ length (List.filter isSegment (features s)) = 1%nat
     /\ timeline s = ["Location at: A1"; "Location at: A2"]%string.
Proof.
  assert (Hform : complete "1" "2024-01-01" "2024-01-02")
    by (repeat split; reflexivity).
  split; [exact Hform|].
  pose proof (playback_display plateCarree [] "1" "2024-01-01" "2024-01-02"
                200 [fixA1; fixA2] 2 Hform) as H.
  cbv zeta in H.
  destruct H as (_ & _ & Hsegments & Htl & Hgeo & Hpoints & _);
    [discriminate|cbn; lia|].
  cbv zeta. split; [exact Hgeo|]. split; [exact Hpoints|].
  split; [exact Hsegments|exact Htl].
Defined.

Lemma one_playback_witness :
  sequential plateCarree startedEvents initial
  /\ let s := run plateCarree startedEvents initial in
     animationInterval s = Some 1%nat
     /\ pending s = ∅
     /\ timeline s = ["Location at: A1"%string].
Proof.
  assert (Hseq : sequential plateCarree startedEvents initial).
  { repeat split; intros Hreq; discriminate Hreq. }
  split; [exact Hseq|].
  assert (Ht : timers (run plateCarree startedEvents initial) !! 1%nat
               = Some {| frame := {| locations := [fixA1; fixA2]; i := 1;
                                     allCoordinates :=
                                       [project plateCarree fixA1] |};
                         period := 2000; due := 4000; live := true |})
    by (vm_compute; reflexivity).
  pose proof (one_playback_at_a_time plateCarree startedEvents Hseq) as H.
  cbv zeta in H. destruct H as (_ & Hlive & _).
  destruct (Hlive 1%nat _ Ht eq_refl) as (Ha & Hp & _ & Htl).
  cbv zeta. split; [exact Ha|]. split; [exact Hp|exact Htl].
Defined.

Lemma fit_frames_witness :
  complete "1" "2024-01-01" "2024-01-02"
  /\ exists e,
       List.filter isFit
         (issuedBy (TimerTask 1)
            (trace (run plateCarree
                      (playback "1" "2024-01-01" "2024-01-02" 200
                         [fixA1; fixA2] 1 1 3) initial)))
       = [ViewFit e [50; 50; 50; 50]%N 1000]
       /\ covers e (project plateCarree fixA1)
       /\ covers e (project plateCarree fixA2).
Proof.
  assert (Hform : complete "1" "2024-01-01" "2024-01-02")
    by (repeat split; reflexivity).
  split; [exact Hform|].
  pose proof (fit_frames_the_path plateCarree [] "1" "2024-01-01"
                "2024-01-02" 200 [fixA1; fixA2] 0 Hform) as H.
  cbv zeta in H. destruct H as (e & Hfit & Hcov & _); [discriminate|].
  exists e. split; [exact Hfit|].
  split; apply Hcov; [left|right; left]; reflexivity.
Defined.

Lemma popup_shows_witness :
  plausible plateCarree popupEvents (loaded "")
  /\ let pg := pageRun plateCarree popupEvents (loaded "") in
     position (popup pg) = Some (Single (77, 28))
     /\ exists h t j loc,
          timers (player pg) !! h = Some t
          /\ (j < i (frame t))%nat
          /\ locations (frame t) !! j = Some loc
          /\ Single (77, 28) = Single (project plateCarree loc)
          /\ content (popup pg)
             = ("<p>Timestamp:</p><code>" ++ timestamp loc
                  ++ "</code>")%string.
Proof.
  assert (Hpl : plausible plateCarree popupEvents (loaded "")).
  { repeat split. vm_compute. left. reflexivity. }
  split; [exact Hpl|].
  assert (Hpos : position (popup (pageRun plateCarree popupEvents
                                    (loaded "")))
                 = Some (Single (77, 28)))
    by (vm_compute; reflexivity).
  cbv zeta. split; [exact Hpos|].
  exact (popup_shows_a_revealed_fix plateCarree popupEvents "" Hpl _ Hpos).
Defined.

Lemma popup_handlers_witness :
  plausible plateCarree popupEvents (loaded "")
  /\ let pg := pageRun plateCarree popupEvents (loaded "") in
     let pg' := pageStep plateCarree (Playing form2) pg in
     features (player pg') = []
     /\ position (popup pg') = position (popup pg)
     /\ position (popup (pageStep plateCarree CloserClick pg)) = None.
Proof.
  assert (Hpl : plausible plateCarree popupEvents (loaded "")).
  { repeat split. vm_compute. left. reflexivity. }
  split; [exact Hpl|].
  pose proof (popup_is_changed_by_its_handlers_only plateCarree popupEvents
                "" Hpl) as H.
  cbv zeta in H. destruct H as (_ & _ & Hclose & _ & Hclick).
  destruct (Hclick "2"%string "2024-01-01"%string "2024-01-02"%string)
    as (Hfs & Hpos).
  cbv zeta. split; [exact Hfs|]. split; [exact Hpos|exact Hclose].
Defined.

Lemma click_supersedes_witness :
  sequential plateCarree startedEvents initial
  /\ let s := run plateCarree startedEvents initial in
     let s1 := step plateCarree form2 s in
     features s1 = []
     /\ issuedBy (TimerTask 1) (trace (run plateCarree laterEvents s1))
        = issuedBy (TimerTask 1) (trace s).
Proof.
  assert (Hseq : sequential plateCarree startedEvents initial).
  { repeat split; intros Hreq; discriminate Hreq. }
  split; [exact Hseq|].
  assert (Ht : timers (run plateCarree startedEvents initial) !! 1%nat
               = Some {| frame := {| locations := [fixA1; fixA2]; i := 1;
                                     allCoordinates :=
                                       [project plateCarree fixA1] |};
                         period := 2000; due := 4000; live := true |})
    by (vm_compute; reflexivity).
  pose proof (click_supersedes plateCarree startedEvents laterEvents
                "2" "2024-01-01" "2024-01-02" Hseq) as H.
  cbv zeta in H. destruct H as (_ & Hfs & _ & Htimers).
  destruct (Htimers 1%nat _ Ht) as (_ & Hsame).
  cbv zeta. split; [exact Hfs|exact Hsame].
Defined.

Lemma every_click_witness :
  let s := run plateCarree startedEvents initial in
  let cmds := issuedBy (Handler 1) (trace s) in
  (1 <= 1 < nextCall s)%nat
  /\ pending s !! 1%nat = None
  /\ ((exists msg, alerts cmds = [msg] /\ knownAlert msg
                   /\ timersSet cmds = [])
      \/ (alerts cmds = [] /\ exists h, timersSet cmds = [h])).
Proof.
  cbv zeta.
  assert (Hc : (1 <= 1 < nextCall (run plateCarree startedEvents initial))%nat)
    by (vm_compute; lia).
  assert (Hp : pending (run plateCarree startedEvents initial) !! 1%nat = None)
    by (vm_compute; reflexivity).
  pose proof (every_click_is_answered plateCarree startedEvents 1 Hc) as H.
  cbv zeta in H. rewrite Hp in H.
  split; [exact Hc|]. split; [exact Hp|exact H].
Defined.
